(** * uint64mph: CHD minimal perfect hashing over uint64 keys and values

    A shallow embedding of [chd.go], [chd_builder.go] and the portable
    [sliceReader], with the properties of the index that the package
    documentation promises.

    Conventions.  A Go [uintN] is a [Z] in [[0, 2^N)]; every operation that
    can wrap writes the reduction out.  A Go slice is a [list]; an index
    expression that Go would reject at run time yields [Panic].  A Go
    [(T, error)] result is a pair of options.  *)

From Stdlib Require Import ZArith Lia List Strings.Byte String.
From stdpp Require Import base tactics option list gmap sorting.

Local Open Scope Z_scope.

(** ** Fixed-width integers *)

Definition uint16 (z : Z) : Z := z mod 2 ^ 16.
Definition uint32 (z : Z) : Z := z mod 2 ^ 32.
Definition uint64 (z : Z) : Z := z mod 2 ^ 64.

(** [math.MaxUint64] *)
Definition MaxUint64 : Z := 18446744073709551615.

(** [^uint16(0)] *)
Definition unassigned : Z := 65535.

Definition is_uint16 (z : Z) : Prop := 0 <= z < 2 ^ 16.
Definition is_uint64 (z : Z) : Prop := 0 <= z < 2 ^ 64.

(** [len(s)] as an integer. *)
Definition len {A} (s : list A) : Z := Z.of_nat (length s).

(** ** Bytes and [encoding/binary.LittleEndian] *)

(** The conversion [byte(v)]. *)
Definition byte_of (v : Z) : byte :=
  default x00 (Byte.of_N (Z.to_N (v mod 256))).

(** The conversion [uint64(c)] of a byte. *)
Definition byte_val (c : byte) : Z := Z.of_N (Byte.to_N c).

(** [PutUint64(buf[:], v)]: [buf[i] = byte(v >> (8*i))]. *)
Definition PutUint64 (v : Z) : list byte :=
  [ byte_of v; byte_of (Z.shiftr v 8); byte_of (Z.shiftr v 16);
    byte_of (Z.shiftr v 24); byte_of (Z.shiftr v 32); byte_of (Z.shiftr v 40);
    byte_of (Z.shiftr v 48); byte_of (Z.shiftr v 56) ].

(** [n] little-endian bytes of [v], least significant first: what
    [binary.Write] emits for one fixed-size unsigned integer. *)
Fixpoint le_encode (n : nat) (v : Z) : list byte :=
  match n with
  | O => []
  | S n' => byte_of v :: le_encode n' (Z.shiftr v 8)
  end.

(** [uint64(b[0]) | uint64(b[1])<<8 | ...], the body shared by
    [LittleEndian.Uint16], [Uint32] and [Uint64]. *)
Fixpoint le_decode (b : list byte) : Z :=
  match b with
  | [] => 0
  | c :: b' => Z.lor (byte_val c) (Z.shiftl (le_decode b') 8)
  end.

(** ** Errors and results *)

(** The error values the package produces. *)
Inductive error : Type :=
  (* fmt.Errorf("duplicate key %d", key) *)
  | ErrDuplicateKey (key : Z)
  (* fmt.Errorf("failed to find a collision-free hash function after
     ~10000000 attempts, for bucket %d/%d with %d entries: %s",
     i, len(buckets), len(bucket.keys), &bucket) *)
  | ErrNoHashFunction (i nbuckets nentries : Z) (keys : list Z)
  (* whatever the io.Reader or io.Writer reported *)
  | ErrIO (msg : string).

(** Outcome of running a piece of Go code: a value, an early [return] with
    an error, or a run-time panic (index out of range, division by zero). *)
Inductive result (A : Type) : Type :=
  | Ok (a : A)
  | Err (e : error)
  | Panic.
Arguments Ok {A} a.
Arguments Err {A} e.
Arguments Panic {A}.

Definition bind {A B} (m : result A) (k : A -> result B) : result B :=
  match m with
  | Ok a => k a
  | Err e => Err e
  | Panic => Panic
  end.

Notation "'do' x <- m ; k" := (bind m (fun x => k))
  (at level 10, x pattern, m at level 100, k at level 200,
   format "'[v' 'do'  x  <-  m ; '/' k ']'").

(** [s[i]] *)
Definition index {A} (s : list A) (i : Z) : result A :=
  if decide (0 <= i) then
    match s !! Z.to_nat i with
    | Some x => Ok x
    | None => Panic
    end
  else Panic.

(** [s[i] = x] *)
Definition store {A} (s : list A) (i : Z) (x : A) : result (list A) :=
  if decide (0 <= i < len s) then Ok (<[Z.to_nat i := x]> s) else Panic.

(** [a % b] on unsigned operands. *)
Definition umod (a b : Z) : result Z :=
  if decide (b = 0) then Panic else Ok (a mod b).

(** ** chd.go *)

(** CHD hash table lookup. *)
Record CHD : Type := mkCHD {
  chd_r : list Z;        (* r []uint64: random hash function table *)
  chd_indices : list Z;  (* indices []uint16 *)
  chd_keys : list Z;     (* keys []uint64 *)
  chd_values : list Z    (* values []uint64 *)
}.

Definition fnv_offset : Z := 14695981039346656037.
Definition fnv_prime : Z := 1099511628211.

Definition hasher (data : Z) : Z :=
  fold_left (fun hash c => uint64 (Z.lxor hash (byte_val c) * fnv_prime))
            (PutUint64 data) fnv_offset.

Arguments hasher : simpl never.
Arguments byte_of : simpl never.
Arguments uint16 : simpl never.
Arguments uint32 : simpl never.
Arguments uint64 : simpl never.

(** Get an entry from the hash table. *)
Definition Get (c : CHD) (key : Z) : result Z :=
  do r0 <- index (chd_r c) 0;
  let h := Z.lxor (hasher key) r0 in
  do i <- umod h (len (chd_indices c));
  do ri <- index (chd_indices c) i;
  if decide (uint16 (len (chd_r c)) <= ri) then Ok MaxUint64 else
  do r <- index (chd_r c) ri;
  do ti <- umod (Z.lxor h r) (len (chd_keys c));
  do k <- index (chd_keys c) ti;
  if decide (k <> key) then Ok MaxUint64 else
  do v <- index (chd_values c) ti;
  Ok v.

(** [Len] *)
Definition Len (c : CHD) : Z := len (chd_keys c).

(** The conversion to a Go [int] (64 bits, two's complement). *)
Definition int64 (z : Z) : Z := (z + 2 ^ 63) mod 2 ^ 64 - 2 ^ 63.

(** An [Iterator] object: its position [i] and the structure [c] it
    points to. *)
Record Iterator : Type := mkIterator {
  it_i : Z;
  it_c : CHD
}.

(** Iterate over entries in the hash table.  [None] is the nil iterator. *)
Definition Iterate (c : CHD) : option Iterator :=
  if decide (len (chd_keys c) = 0) then None
  else Some {| it_i := 0; it_c := c |}.

(** [Get] of an iterator. *)
Definition Iterator_Get (it : Iterator) : result (Z * Z) :=
  do k <- index (chd_keys (it_c it)) (it_i it);
  do v <- index (chd_values (it_c it)) (it_i it);
  Ok (k, v).

(** [Next] advances the iterator object in place and returns either the
    receiver or nil: the first component is the object after the call, the
    second tells whether the receiver was returned. *)
Definition Iterator_Next (it : Iterator) : Iterator * bool :=
  let it' := {| it_i := int64 (it_i it + 1); it_c := it_c it |} in
  (it', if decide (it_i it' >= len (chd_keys (it_c it'))) then false else true).

(** The loop [for it := c.Iterate(); it != nil; it = it.Next() { k, v := it.Get(); ... }]
    collecting the pairs it sees; [None] when [fuel] rounds do not reach
    the nil iterator. *)
Fixpoint iterate_from (fuel : nat) (it : Iterator)
  : option (result (list (Z * Z))) :=
  match fuel with
  | O => None
  | S fuel' =>
      match Iterator_Get it with
      | Ok kv =>
          let '(it', more) := Iterator_Next it in
          if more then
            match iterate_from fuel' it' with
            | Some (Ok rest) => Some (Ok (kv :: rest))
            | other => other
            end
          else Some (Ok [kv])
      | Err e => Some (Err e)
      | Panic => Some Panic
      end
  end.

Definition entries (fuel : nat) (c : CHD) : option (result (list (Z * Z))) :=
  match Iterate c with
  | None => Some (Ok [])
  | Some it => iterate_from fuel it
  end.

(** ** The portable [sliceReader]

    [sr_b] is the region [b[0:cap(b)]] of the byte slice handed to [Mmap]:
    a slice expression [b.b[start:pos]] is checked against the capacity, and
    the reader never consults [len(b.b)]. *)
Record sliceReader : Type := mkSliceReader {
  sr_b : list byte;
  sr_pos : Z
}.

Definition sr_read (b : sliceReader) (size : Z)
  : result (list byte * sliceReader) :=
  let start := sr_pos b in
  let pos := uint64 (start + size) in
  if decide (start <= pos <= len (sr_b b)) then
    Ok (take (Z.to_nat (pos - start)) (drop (Z.to_nat start) (sr_b b)),
        {| sr_b := sr_b b; sr_pos := pos |})
  else Panic.

(** The loop [for i := 0; i < len(buf); i += w { out[i/w] = decode(buf[i:i+w]) }]
    over [out := make([]uintN, n)].  The count [n] comes from [ReadInt], so
    [n*w] does not wrap and [buf] holds exactly [n*w] bytes: the loop
    assigns every element of [out] once, in order. *)
Fixpoint decode_array (w n : nat) (buf : list byte) : list Z :=
  match n with
  | O => []
  | S n' => le_decode (take w buf) :: decode_array w n' (drop w buf)
  end.

Definition ReadUint64Array (b : sliceReader) (n : Z)
  : result (list Z * sliceReader) :=
  do (buf, b') <- sr_read b (uint64 (n * 8));
  Ok (decode_array 8 (Z.to_nat n) buf, b').

Definition ReadUint16Array (b : sliceReader) (n : Z)
  : result (list Z * sliceReader) :=
  do (buf, b') <- sr_read b (uint64 (n * 2));
  Ok (decode_array 2 (Z.to_nat n) buf, b').

Definition ReadInt (b : sliceReader) : result (Z * sliceReader) :=
  do (buf, b') <- sr_read b 4;
  Ok (le_decode buf, b').

(** Mmap creates a new CHD aliasing the CHD structure over an existing byte
    region. *)
Definition Mmap (b : list byte) : result (option CHD * option error) :=
  let bi := {| sr_b := b; sr_pos := 0 |} in
  do (rl, bi) <- ReadInt bi;
  do (r, bi) <- ReadUint64Array bi rl;
  do (il, bi) <- ReadInt bi;
  do (indices, bi) <- ReadUint16Array bi il;
  do (el, bi) <- ReadInt bi;
  do (keys, bi) <- ReadUint64Array bi el;
  do (values, bi) <- ReadUint64Array bi el;
  Ok (Some {| chd_r := r; chd_indices := indices;
              chd_keys := keys; chd_values := values |}, None).

(** An [io.Reader] as [ioutil.ReadAll] sees it: the bytes read, the spare
    capacity behind them in the returned slice, and the error. *)
Class Reader (R : Type) : Type :=
  ReadAll : R -> list byte * list byte * option error.

(** Read a serialized CHD. *)
Definition Read {R} `{Reader R} (r : R) : result (option CHD * option error) :=
  let '(b, spare, err) := ReadAll r in
  match err with
  | Some e => Ok (None, Some e)
  | None => Mmap (b ++ spare)
  end.

(** ** Serialization *)

(** An [io.Writer]: [Write(p)] yields the writer's next state and its error. *)
Class Writer (W : Type) : Type :=
  w_Write : W -> list byte -> W * option error.

(** [bytes.Buffer] appends and never fails. *)
#[export] Instance Buffer_Writer : Writer (list byte) :=
  fun buf p => (buf ++ p, None).

(** The values [Write] hands to [binary.Write]. *)
Inductive wire : Type :=
  | U32 (v : Z)
  | U64s (s : list Z)
  | U16s (s : list Z).

(** The bytes [binary.Write(w, binary.LittleEndian, d)] sends to [w]. *)
Definition wire_bytes (d : wire) : list byte :=
  match d with
  | U32 v => le_encode 4 v
  | U64s s => flat_map (le_encode 8) s
  | U16s s => flat_map (le_encode 2) s
  end.

Definition binary_Write {W} `{Writer W} (w : W) (d : wire) : W * option error :=
  w_Write w (wire_bytes d).

(** The closure [write] inside [Write]. *)
Fixpoint write {W} `{Writer W} (w : W) (nd : list wire) : W * option error :=
  match nd with
  | [] => (w, None)
  | d :: nd' =>
      let '(w', err) := binary_Write w d in
      match err with
      | Some e => (w', Some e)
      | None => write w' nd'
      end
  end.

(** Serialize the CHD. *)
Definition Write {W} `{Writer W} (c : CHD) (w : W) : W * option error :=
  let data :=
    [ U32 (uint32 (len (chd_r c))); U64s (chd_r c);
      U32 (uint32 (len (chd_indices c))); U16s (chd_indices c);
      U32 (uint32 (len (chd_keys c)));
      U64s (chd_keys c);
      U64s (chd_values c) ] in
  let '(w', err) := write w data in
  match err with
  | Some e => (w', Some e)
  | None => (w', None)
  end.

(** ** chd_builder.go *)

Record bucket : Type := mkBucket {
  bucket_index : Z;
  bucket_keys : list Z;
  bucket_values : list Z
}.

(** [String] of [bucket] without the decimal rendering: the keys it prints. *)
Definition bucket_String (b : bucket) : list Z := bucket_keys b.

(** Intermediate data structure storing buckets + outer hash index. *)
Abbreviation bucketVector := (list bucket).

(** The [sort.Interface] of [bucketVector].  [sort.Sort] calls [Less] and
    [Swap] with indices below [Len] only. *)
Definition bucket_less (x y : bucket) : bool :=
  bool_decide (len (bucket_keys x) > len (bucket_keys y)).

Definition bv_Len (b : bucketVector) : nat := length b.

(** [Less(i, j)] with the bounds checks of [b[i]] and [b[j]]: an index at
    or past [Len] panics. *)
Definition bv_Less_checked (b : bucketVector) (i j : nat) : result bool :=
  match b !! i with
  | Some x =>
      match b !! j with
      | Some y => Ok (bucket_less x y)
      | None => Panic
      end
  | None => Panic
  end.

(** [Less(i, j)] as the models of [sort.Sort] use it, on indices below
    [Len], where [bv_Less_checked] returns it. *)
Definition bv_Less (b : bucketVector) (i j : nat) : bool :=
  match b !! i, b !! j with
  | Some x, Some y => bucket_less x y
  | _, _ => false
  end.

Definition bv_Swap (b : bucketVector) (i j : nat) : bucketVector :=
  match b !! i, b !! j with
  | Some x, Some y => <[i := y]> (<[j := x]> b)
  | _, _ => b
  end.

(** Build a new CDH MPH. *)
Record CHDBuilder : Type := mkCHDBuilder {
  b_keys : list Z;
  b_values : list Z;
  b_seed : Z;
  b_seeded : bool
}.

(** Create a new CHD hash table builder. *)
Definition Builder : CHDBuilder :=
  {| b_keys := []; b_values := []; b_seed := 0; b_seeded := false |}.

(** Seed the RNG. *)
Definition Seed (seed : Z) (b : CHDBuilder) : CHDBuilder :=
  {| b_keys := b_keys b; b_values := b_values b;
     b_seed := seed; b_seeded := true |}.

(** Add a key and value to the hash table. *)
Definition Add (key value : Z) (b : CHDBuilder) : CHDBuilder :=
  {| b_keys := b_keys b ++ [key]; b_values := b_values b ++ [value];
     b_seed := b_seed b; b_seeded := b_seeded b |}.

(** A [rand.Rand]: the seed of its source and the number of values drawn. *)
Record Rand : Type := mkRand {
  rand_seed : Z;
  rand_drawn : nat
}.

Record chdHasher : Type := mkHasher {
  h_r : list Z;
  h_size : Z;
  h_buckets : Z;
  h_rand : Rand
}.

(** A Go [map[uint64]bool]: a missing key reads as [false]. *)
Definition map_get (m : gmap Z bool) (k : Z) : bool := default false (m !! k).

(** What [tryHash] mutates through its slice and map arguments. *)
Record table : Type := mkTable {
  t_seen : gmap Z bool;
  t_keys : list Z;
  t_values : list Z;
  t_indices : list Z
}.

(** [for i := 0; i < n; i++ { body }] with [continue nextBucket] on success:
    [body] either goes on with a new state or leaves the loop with a value. *)
Fixpoint retry {S R} (body : S -> result (S + R)) (n : positive) (s : S)
  : result (S + R) :=
  match n with
  | xH => body s
  | xO p =>
      do x <- retry body p s;
      match x with
      | inl s' => retry body p s'
      | inr v => Ok (inr v)
      end
  | xI p =>
      do x <- body s;
      match x with
      | inl s' =>
          do y <- retry body p s';
          match y with
          | inl s'' => retry body p s''
          | inr v => Ok (inr v)
          end
      | inr v => Ok (inr v)
      end
  end.

Arguments retry : simpl never.

(** The same loop counted in unary: at most [n] rounds of [body]. *)
Fixpoint rounds {S R} (body : S -> result (S + R)) (n : nat) (s : S)
  : result (S + R) :=
  match n with
  | O => Ok (inl s)
  | S n' =>
      do x <- body s;
      match x with
      | inl s' => rounds body n' s'
      | inr v => Ok (inr v)
      end
  end.

Section Build.

(** [rand_source seed k] is the [k]-th value of [Uint64] on
    [rand.New(rand.NewSource(seed))]. *)
Variable rand_source : Z -> nat -> Z.

(** [sort.Sort] on a [bucketVector]. *)
Variable sort_Sort : bucketVector -> bucketVector.

Definition rand_Uint64 (g : Rand) : Z * Rand :=
  (uint64 (rand_source (rand_seed g) (rand_drawn g)),
   {| rand_seed := rand_seed g; rand_drawn := S (rand_drawn g) |}).

(** Add a random value generated by Generate(). *)
Definition h_Add (c : chdHasher) (r : Z) : chdHasher :=
  {| h_r := h_r c ++ [r]; h_size := h_size c;
     h_buckets := h_buckets c; h_rand := h_rand c |}.

Definition h_Len (c : chdHasher) : Z := uint16 (len (h_r c)).

(** [now] is [time.Now().UnixNano()]. *)
Definition newCHDHasher (size buckets seed : Z) (seeded : bool) (now : Z)
  : chdHasher :=
  let seed := if seeded then seed else now in
  let c := {| h_r := []; h_size := size; h_buckets := buckets;
              h_rand := {| rand_seed := seed; rand_drawn := O |} |} in
  let '(v, g) := rand_Uint64 (h_rand c) in
  h_Add {| h_r := h_r c; h_size := h_size c;
           h_buckets := h_buckets c; h_rand := g |} v.

(** Hash index from key. *)
Definition HashIndexFromKey (h : chdHasher) (b : Z) : result Z :=
  do r0 <- index (h_r h) 0;
  umod (Z.lxor (hasher b) r0) (h_buckets h).

(** Table hash from random value and key. *)
Definition Table (h : chdHasher) (r b : Z) : result Z :=
  do r0 <- index (h_r h) 0;
  umod (Z.lxor (Z.lxor (hasher b) r0) r) (h_size h).

Definition Generate (c : chdHasher) : Z * Z * chdHasher :=
  let ri := h_Len c in
  let '(v, g) := rand_Uint64 (h_rand c) in
  (ri, v, {| h_r := h_r c; h_size := h_size c;
             h_buckets := h_buckets c; h_rand := g |}).

(** First loop of [tryHash]: the hashes of the bucket's keys, or [None] at
    the first one already seen or repeated within the bucket. *)
Fixpoint tryHash_hashes (h : chdHasher) (seen duplicate : gmap Z bool)
    (r : Z) (ks : list Z) : result (option (list Z)) :=
  match ks with
  | [] => Ok (Some [])
  | k :: ks' =>
      do hv <- Table h r k;
      if map_get seen hv then Ok None
      else if map_get duplicate hv then Ok None
      else
        do rest <- tryHash_hashes h seen (<[hv := true]> duplicate) r ks';
        Ok (cons hv <$> rest)
  end.

(** [for _, h := range hashes { seen[h] = true }] *)
Definition mark_seen (seen : gmap Z bool) (hashes : list Z) : gmap Z bool :=
  fold_left (fun s hv => <[hv := true]> s) hashes seen.

(** [for i, h := range hashes { keys[h] = bucket.keys[i]; values[h] = bucket.values[i] }],
    from position [i] on. *)
Fixpoint fill_table (keys values : list Z) (bk : bucket) (i : Z)
    (hashes : list Z) : result (list Z * list Z) :=
  match hashes with
  | [] => Ok (keys, values)
  | hv :: hashes' =>
      do k <- index (bucket_keys bk) i;
      do keys' <- store keys hv k;
      do v <- index (bucket_values bk) i;
      do values' <- store values hv v;
      fill_table keys' values' bk (i + 1) hashes'
  end.

(** Try to find a hash function that does not cause collisions with table,
    when applied to the keys in the bucket.  [None] is [false]; [Some] is
    [true] together with the updated slices and map. *)
Definition tryHash (h : chdHasher) (tb : table) (bk : bucket) (ri r : Z)
  : result (option table) :=
  do hs <- tryHash_hashes h (t_seen tb) ∅ r (bucket_keys bk);
  match hs with
  | None => Ok None
  | Some hashes =>
      let seen := mark_seen (t_seen tb) hashes in
      do indices <- store (t_indices tb) (bucket_index bk) ri;
      do (keys, values) <- fill_table (t_keys tb) (t_values tb) bk 0 hashes;
      Ok (Some {| t_seen := seen; t_keys := keys; t_values := values;
                  t_indices := indices |})
  end.

(** The loop over [b.keys] in [Build]. *)
Fixpoint Build_buckets (h : chdHasher) (ks vs : list Z)
    (duplicates : gmap Z bool) (buckets : bucketVector) : result bucketVector :=
  match ks with
  | [] => Ok buckets
  | key :: ks' =>
      match vs with
      | [] => Panic
      | value :: vs' =>
          if map_get duplicates key then Err (ErrDuplicateKey key)
          else
            let duplicates := <[key := true]> duplicates in
            do oh <- HashIndexFromKey h key;
            do bk <- index buckets oh;
            do buckets <- store buckets oh
                 {| bucket_index := oh;
                    bucket_keys := bucket_keys bk ++ [key];
                    bucket_values := bucket_values bk ++ [value] |};
            Build_buckets h ks' vs' duplicates buckets
      end
  end.

(** [for ri, r := range hasher.r { if tryHash(..., uint16(ri), r) { continue nextBucket } }] *)
Fixpoint try_existing (h : chdHasher) (tb : table) (bk : bucket)
    (ri : nat) (rs : list Z) : result (option table) :=
  match rs with
  | [] => Ok None
  | r :: rs' =>
      do t <- tryHash h tb bk (uint16 (Z.of_nat ri)) r;
      match t with
      | Some tb' => Ok (Some tb')
      | None => try_existing h tb bk (S ri) rs'
      end
  end.

(** One round of the retry loop: draw a value, try it, keep it on success. *)
Definition try_new (tb : table) (bk : bucket) (h : chdHasher)
  : result (chdHasher + chdHasher * table) :=
  let '(ri, r, h') := Generate h in
  do t <- tryHash h' tb bk ri r;
  match t with
  | Some tb' => Ok (inr (h_Add h' r, tb'))
  | None => Ok (inl h')
  end.

Definition retries : positive := 10000000.

(** The body of the loop over the sorted buckets. *)
Definition place_bucket (nbuckets i : Z) (st : chdHasher * table) (bk : bucket)
  : result (chdHasher * table) :=
  let '(h, tb) := st in
  if decide (len (bucket_keys bk) = 0) then Ok st
  else
    do t <- try_existing h tb bk O (h_r h);
    match t with
    | Some tb' => Ok (h, tb')
    | None =>
        do x <- retry (try_new tb bk) retries h;
        match x with
        | inr st' => Ok st'
        | inl _ =>
            Err (ErrNoHashFunction i nbuckets (len (bucket_keys bk))
                                   (bucket_String bk))
        end
    end.

#[local] Arguments place_bucket : simpl never.

Fixpoint place_buckets (nbuckets i : Z) (st : chdHasher * table)
    (buckets : bucketVector) : result (chdHasher * table) :=
  match buckets with
  | [] => Ok st
  | bk :: buckets' =>
      do st' <- place_bucket nbuckets i st bk;
      place_buckets nbuckets (i + 1) st' buckets'
  end.

Definition bucket_count (n : Z) : Z :=
  let m := n / 2 in
  if decide (m = 0) then 1 else m.

(** The buckets after the loop over [b.keys], before sorting. *)
Definition partition (now : Z) (b : CHDBuilder) : result bucketVector :=
  let n := len (b_keys b) in
  let m := bucket_count n in
  let hasher := newCHDHasher n m (b_seed b) (b_seeded b) now in
  let buckets :=
    replicate (Z.to_nat m)
      {| bucket_index := 0; bucket_keys := []; bucket_values := [] |} in
  Build_buckets hasher (b_keys b) (b_values b) ∅ buckets.

(** [Build], with [Err] for [return nil, err]. *)
Definition Build_body (now : Z) (b : CHDBuilder) : result CHD :=
  let n := len (b_keys b) in
  let m := bucket_count n in
  let keys := replicate (Z.to_nat n) 0 in
  let values := replicate (Z.to_nat n) 0 in
  let hasher := newCHDHasher n m (b_seed b) (b_seeded b) now in
  let indices := replicate (Z.to_nat m) unassigned in
  let seen : gmap Z bool := ∅ in
  do buckets <- partition now b;
  let buckets := sort_Sort buckets in
  do (hasher, tb) <-
     place_buckets (len buckets) 0
       (hasher, {| t_seen := seen; t_keys := keys; t_values := values;
                   t_indices := indices |})
       buckets;
  Ok {| chd_r := h_r hasher; chd_indices := t_indices tb;
        chd_keys := t_keys tb; chd_values := t_values tb |}.

Definition Build (now : Z) (b : CHDBuilder) : result (option CHD * option error) :=
  match Build_body now b with
  | Ok c => Ok (Some c, None)
  | Err e => Ok (None, Some e)
  | Panic => Panic
  end.

End Build.

Arguments place_bucket : simpl never.

(** ** Using the builder *)

(** A call on a builder between [Builder()] and [Build()]. *)
Inductive call : Type :=
  | CallSeed (seed : Z)
  | CallAdd (key value : Z).

Definition apply_call (b : CHDBuilder) (c : call) : CHDBuilder :=
  match c with
  | CallSeed seed => Seed seed b
  | CallAdd key value => Add key value b
  end.

(** The builder after a sequence of calls on a fresh one. *)
Definition run (calls : list call) : CHDBuilder :=
  fold_left apply_call calls Builder.

(** The pairs a sequence of calls adds, in insertion order. *)
Fixpoint added (calls : list call) : list (Z * Z) :=
  match calls with
  | [] => []
  | CallSeed _ :: calls' => added calls'
  | CallAdd key value :: calls' => (key, value) :: added calls'
  end.

(** The last seed a sequence of calls sets, if any. *)
Fixpoint seeded_with (calls : list call) : option Z :=
  match calls with
  | [] => None
  | CallSeed seed :: calls' =>
      match seeded_with calls' with
      | Some s => Some s
      | None => Some seed
      end
  | CallAdd _ _ :: calls' => seeded_with calls'
  end.

(** ** The hash primitive and the file layout as the documentation words them *)

(** FNV-1a: for every byte, XOR it into the hash, then multiply by the
    prime, on 64 bits. *)
Fixpoint fnv1a (bytes : list Z) (hash : Z) : Z :=
  match bytes with
  | [] => hash
  | c :: bytes' => fnv1a bytes' ((Z.lxor hash c * 1099511628211) mod 2 ^ 64)
  end.

(** The 8 little-endian bytes of a key. *)
Definition le_bytes8 (key : Z) : list Z :=
  map (fun i => (key / 256 ^ i) mod 256) [0; 1; 2; 3; 4; 5; 6; 7].

Definition digest (key : Z) : Z :=
  fnv1a (le_bytes8 key) 14695981039346656037.

(** [slot(k, r) = (digest(k) XOR r0 XOR r) mod n] *)
Definition slot (r0 n k r : Z) : Z :=
  Z.lxor (Z.lxor (digest k) r0) r mod n.

(** [partition(k) = (digest(k) XOR r0) mod bucketCount] *)
Definition outer (r0 m k : Z) : Z :=
  Z.lxor (digest k) r0 mod m.

(** The little-endian bytes of an unsigned integer of [w] bytes. *)
Definition le (w : nat) (v : Z) : list byte :=
  map (fun i => byte_of (v / 256 ^ Z.of_nat i)) (seq 0 w).

(** The fixed layout: u32 saltCount, u64 salts[saltCount], u32 mapCount,
    u16 bucketToSalt[mapCount], u32 entryCount, u64 keys[entryCount],
    u64 values[entryCount]. *)
Definition layout (c : CHD) : list byte :=
  le 4 (len (chd_r c)) ++ flat_map (le 8) (chd_r c) ++
  le 4 (len (chd_indices c)) ++ flat_map (le 2) (chd_indices c) ++
  le 4 (len (chd_keys c)) ++
  flat_map (le 8) (chd_keys c) ++
  flat_map (le 8) (chd_values c).

(** ** Invariants of the construction *)

(** The pairs a bucket holds. *)
Definition bucket_pairs (bk : bucket) : list (Z * Z) :=
  zip (bucket_keys bk) (bucket_values bk).

(** [HashIndexFromKey] and [Table] once [r[0]], the bucket count and the
    table size are fixed. *)
Definition outer_hash (r0 m k : Z) : Z := Z.lxor (hasher k) r0 mod m.
Definition table_hash (r0 n r k : Z) : Z :=
  Z.lxor (Z.lxor (hasher k) r0) r mod n.

(** A placed pair can be found again: its bucket records the index of a
    hash function that leads to a slot holding the pair. *)
Definition placed_ok (r0 n m : Z) (h : chdHasher) (tb : table) (kv : Z * Z)
  : Prop :=
  exists (ri : nat) (r : Z),
    t_indices tb !! Z.to_nat (outer_hash r0 m kv.1) = Some (uint16 (Z.of_nat ri)) /\
    h_r h !! ri = Some r /\
    t_keys tb !! Z.to_nat (table_hash r0 n r kv.1) = Some kv.1 /\
    t_values tb !! Z.to_nat (table_hash r0 n r kv.1) = Some kv.2 /\
    map_get (t_seen tb) (table_hash r0 n r kv.1) = true.

(** The state of the placement loop once the pairs [placed] are in. *)
Definition Inv (r0 n m : Z) (placed : list (Z * Z)) (h : chdHasher) (tb : table)
  : Prop :=
  (h_size h = n /\ h_buckets h = m /\ 0 < m /\ h_r h !! 0%nat = Some r0) /\
  (len (t_keys tb) = n /\ len (t_values tb) = n /\ len (t_indices tb) = m) /\
  Forall (placed_ok r0 n m h tb) placed /\
  (forall s, map_get (t_seen tb) s = true ->
     0 <= s < n /\
     exists kv, kv ∈ placed /\ t_keys tb !! Z.to_nat s = Some kv.1 /\
                t_values tb !! Z.to_nat s = Some kv.2) /\
  (exists slots, NoDup slots /\ length slots = length placed /\
                 forall s, s ∈ slots <-> map_get (t_seen tb) s = true) /\
  (Forall is_uint64 (h_r h) /\ Forall is_uint16 (t_indices tb) /\
   forall i x, t_indices tb !! i = Some x -> x = unassigned \/ placed <> []).

(** A bucket of the partition of the keys [ks]: as many values as keys,
    and, unless it is empty, exactly the keys of [ks] that hash to its index. *)
Definition bucket_ok (r0 m : Z) (ks : list Z) (bk : bucket) : Prop :=
  length (bucket_keys bk) = length (bucket_values bk) /\
  (bucket_keys bk <> [] ->
   forall k, k ∈ bucket_keys bk <-> k ∈ ks /\ outer_hash r0 m k = bucket_index bk).

(** The bucket at position [p] once the keys [done] are partitioned. *)
Definition part_ok (r0 m : Z) (done : list Z) (p : nat) (bk : bucket) : Prop :=
  length (bucket_keys bk) = length (bucket_values bk) /\
  (bucket_keys bk <> [] -> bucket_index bk = Z.of_nat p) /\
  (forall k, k ∈ bucket_keys bk <-> k ∈ done /\ outer_hash r0 m k = Z.of_nat p).

(** An entry of the bucket map is either still [unassigned] or belongs to
    a bucket that holds a placed pair. *)
Definition idx_ok (r0 m : Z) (placed : list (Z * Z)) (tb : table) : Prop :=
  forall (i : nat) (x : Z), t_indices tb !! i = Some x ->
    x = unassigned \/
    exists kv, kv ∈ placed /\ Z.to_nat (outer_hash r0 m kv.1) = i.


(** The state of the placement loop as long as the first hash function
    has fitted every bucket: no other function exists, and every taken
    slot is the hash of a placed key reduced modulo the table size. *)
Definition first_ok (r0 n : Z) (placed : list (Z * Z)) (h : chdHasher)
    (tb : table) : Prop :=
  h_r h = [r0] /\
  forall s, map_get (t_seen tb) s = true ->
    exists kv, kv ∈ placed /\ s = hasher kv.1 mod n.

(** The structure [Build] returns from the final hasher and table. *)
Definition chd_of (h : chdHasher) (tb : table) : CHD :=
  {| chd_r := h_r h; chd_indices := t_indices tb;
     chd_keys := t_keys tb; chd_values := t_values tb |}.


(** ** [sort.Sort]

    [Build] relies on [sort.Sort] for two things: the buckets are
    rearranged, and afterwards no bucket is [Less] than one before it.
    [sort.Sort] is documented as not guaranteed to be stable. *)
Definition sorts (sort : bucketVector -> bucketVector) : Prop :=
  (forall b, sort b ≡ₚ b) /\
  (forall b, StronglySorted (fun x y => bucket_less y x = false) (sort b)).

(** [for j := i; j > a && data.Less(j, j-1); j-- { data.Swap(j, j-1) }] *)
Fixpoint insert_down (data : bucketVector) (a j : nat) : bucketVector :=
  match j with
  | O => data
  | S j' =>
      if bool_decide (a < j)%nat && bv_Less data j j'
      then insert_down (bv_Swap data j j') a j'
      else data
  end.

(** [insertionSort(data, a, b)] *)
Definition insertionSort (data : bucketVector) (a b : nat) : bucketVector :=
  fold_left (fun d i => insert_down d a i) (seq (a + 1) (b - (a + 1))) data.

(** The ShellSort pass with gap 6 of [quickSort]:
    [for i := a + 6; i < b; i++ { if data.Less(i, i-6) { data.Swap(i, i-6) } }] *)
Definition shell_pass (data : bucketVector) (a b : nat) : bucketVector :=
  fold_left (fun d i => if bv_Less d i (i - 6) then bv_Swap d i (i - 6) else d)
            (seq (a + 6) (b - (a + 6))) data.

(** What [sort.Sort] of go1.18 and earlier does to a slice of at most 12
    elements, the tail of its [quickSort]: one ShellSort pass with gap 6,
    then [insertionSort].  The two passes sort a slice of any length. *)
Definition Sort_short (data : bucketVector) : bucketVector :=
  let n := bv_Len data in
  insertionSort (shell_pass data 0 n) 0 n.

(** ** [sort.Sort] of go1.19 and later: pattern-defeating quicksort

    [pdqsort] as the [sort] package runs it on a [sort.Interface].  Its
    [breakPatterns], which scatters three elements with a xorshift
    generator after an unbalanced partition, is left as a parameter. *)

(** [for i < b && cond(i) { i++ }] *)
Fixpoint scan_lt (fuel : nat) (cond : nat -> bool) (i b : nat) : nat :=
  match fuel with
  | O => i
  | S fuel' =>
      if bool_decide (i < b)%nat && cond i then scan_lt fuel' cond (S i) b else i
  end.

(** [for i <= j && cond(i) { i++ }] *)
Fixpoint scan_up (fuel : nat) (cond : nat -> bool) (i j : nat) : nat :=
  match fuel with
  | O => i
  | S fuel' =>
      if bool_decide (i <= j)%nat && cond i then scan_up fuel' cond (S i) j else i
  end.

(** [for i <= j && cond(j) { j-- }] *)
Fixpoint scan_down (fuel : nat) (cond : nat -> bool) (i j : nat) : nat :=
  match fuel with
  | O => j
  | S fuel' =>
      if bool_decide (i <= j)%nat && cond j
      then scan_down fuel' cond i (j - 1) else j
  end.

(** [siftDown(data, lo, hi, first)], with [root] running from [lo]. *)
Fixpoint siftDown (fuel : nat) (data : bucketVector) (root hi first : nat)
  : bucketVector :=
  match fuel with
  | O => data
  | S fuel' =>
      let child := (2 * root + 1)%nat in
      if bool_decide (hi <= child)%nat then data
      else
        let child :=
          if bool_decide (child + 1 < hi)%nat
             && bv_Less data (first + child) (first + child + 1)
          then (child + 1)%nat else child in
        if negb (bv_Less data (first + root) (first + child)) then data
        else siftDown fuel' (bv_Swap data (first + root) (first + child))
                      child hi first
  end.

(** [heapSort(data, a, b)] *)
Definition heapSort (data : bucketVector) (a b : nat) : bucketVector :=
  let first := a in
  let lo := O in
  let hi := (b - a)%nat in
  let data :=
    fold_left (fun d i => siftDown hi d i hi first)
              (rev (seq 0 ((hi - 1) / 2 + 1))) data in
  fold_left (fun d i => siftDown hi (bv_Swap d first (first + i)) lo i first)
            (rev (seq 0 hi)) data.

(** The unnamed loop [for { ... }] of [partition]. *)
Fixpoint partition_loop (fuel : nat) (data : bucketVector) (a i j : nat)
  : bucketVector * nat :=
  match fuel with
  | O => (data, j)
  | S fuel' =>
      let i := scan_up (length data) (fun i => bv_Less data i a) i j in
      let j := scan_down (length data) (fun j => negb (bv_Less data j a)) i j in
      if bool_decide (j < i)%nat then (data, j)
      else partition_loop fuel' (bv_Swap data i j) a (S i) (j - 1)
  end.

(** [partition(data, a, b, pivot)] *)
Definition pdq_partition (data : bucketVector) (a b pivot : nat)
  : bucketVector * nat * bool :=
  let data := bv_Swap data a pivot in
  let i := (a + 1)%nat in
  let j := (b - 1)%nat in
  let i := scan_up (length data) (fun i => bv_Less data i a) i j in
  let j := scan_down (length data) (fun j => negb (bv_Less data j a)) i j in
  if bool_decide (j < i)%nat then (bv_Swap data j a, j, true)
  else
    let data := bv_Swap data i j in
    let '(data, j) := partition_loop (length data) data a (S i) (j - 1) in
    (bv_Swap data j a, j, false).

Fixpoint partitionEqual_loop (fuel : nat) (data : bucketVector) (a i j : nat)
  : bucketVector * nat :=
  match fuel with
  | O => (data, i)
  | S fuel' =>
      let i := scan_up (length data) (fun i => negb (bv_Less data a i)) i j in
      let j := scan_down (length data) (fun j => bv_Less data a j) i j in
      if bool_decide (j < i)%nat then (data, i)
      else partitionEqual_loop fuel' (bv_Swap data i j) a (S i) (j - 1)
  end.

(** [partitionEqual(data, a, b, pivot)] *)
Definition partitionEqual (data : bucketVector) (a b pivot : nat)
  : bucketVector * nat :=
  let data := bv_Swap data a pivot in
  partitionEqual_loop (length data) data a (a + 1) (b - 1).

(** [for j := i - 1; j >= 1; j-- { if !data.Less(j, j-1) { break }; data.Swap(j, j-1) }] *)
Fixpoint shift_left (data : bucketVector) (j : nat) : bucketVector :=
  match j with
  | O => data
  | S j' =>
      if negb (bv_Less data j j') then data
      else shift_left (bv_Swap data j j') j'
  end.

(** [for j := i + 1; j < b; j++ { if !data.Less(j, j-1) { break }; data.Swap(j, j-1) }] *)
Fixpoint shift_right (fuel : nat) (data : bucketVector) (j b : nat)
  : bucketVector :=
  match fuel with
  | O => data
  | S fuel' =>
      if bool_decide (j < b)%nat then
        if negb (bv_Less data j (j - 1)) then data
        else shift_right fuel' (bv_Swap data j (j - 1)) (S j) b
      else data
  end.

(** The loop [for j := 0; j < maxSteps; j++] of [partialInsertionSort]. *)
Fixpoint partialInsertionSort_loop (steps : nat) (data : bucketVector)
    (a b i : nat) : bucketVector * bool :=
  match steps with
  | O => (data, false)
  | S steps' =>
      let i := scan_lt (length data)
                 (fun i => negb (bv_Less data i (i - 1))) i b in
      if bool_decide (i = b) then (data, true)
      else if bool_decide (b - a < 50)%nat then (data, false)
      else
        let data := bv_Swap data i (i - 1) in
        let data :=
          if bool_decide (2 <= i - a)%nat then shift_left data (i - 1)
          else data in
        let data :=
          if bool_decide (2 <= b - i)%nat
          then shift_right (length data) data (i + 1) b else data in
        partialInsertionSort_loop steps' data a b i
  end.

(** [partialInsertionSort(data, a, b)] *)
Definition partialInsertionSort (data : bucketVector) (a b : nat)
  : bucketVector * bool :=
  partialInsertionSort_loop 5 data a b (a + 1).

Inductive sortedHint : Type := unknownHint | increasingHint | decreasingHint.

(** [order2(data, a, b, swaps)] *)
Definition order2 (data : bucketVector) (a b swaps : nat) : nat * nat * nat :=
  if bv_Less data b a then (b, a, S swaps) else (a, b, swaps).

(** [median(data, a, b, c, swaps)] *)
Definition median (data : bucketVector) (a b c swaps : nat) : nat * nat :=
  let '(a, b, swaps) := order2 data a b swaps in
  let '(b, c, swaps) := order2 data b c swaps in
  let '(a, b, swaps) := order2 data a b swaps in
  (b, swaps).

(** [medianAdjacent(data, a, swaps)] *)
Definition medianAdjacent (data : bucketVector) (a swaps : nat) : nat * nat :=
  median data (a - 1) a (a + 1) swaps.

(** [choosePivot(data, a, b)] *)
Definition choosePivot (data : bucketVector) (a b : nat) : nat * sortedHint :=
  let l := (b - a)%nat in
  let i := (a + l / 4 * 1)%nat in
  let j := (a + l / 4 * 2)%nat in
  let k := (a + l / 4 * 3)%nat in
  let '(j, swaps) :=
    if bool_decide (8 <= l)%nat then
      let '(i, j, k, swaps) :=
        if bool_decide (50 <= l)%nat then
          let '(i, swaps) := medianAdjacent data i O in
          let '(j, swaps) := medianAdjacent data j swaps in
          let '(k, swaps) := medianAdjacent data k swaps in
          (i, j, k, swaps)
        else (i, j, k, O) in
      median data i j k swaps
    else (j, O) in
  match swaps with
  | 0%nat => (j, increasingHint)
  | 12%nat => (j, decreasingHint)
  | _ => (j, unknownHint)
  end.

(** [reverseRange(data, a, b)] *)
Fixpoint reverseRange_loop (fuel : nat) (data : bucketVector) (i j : nat)
  : bucketVector :=
  match fuel with
  | O => data
  | S fuel' =>
      if bool_decide (i < j)%nat
      then reverseRange_loop fuel' (bv_Swap data i j) (S i) (j - 1)
      else data
  end.

Definition reverseRange (data : bucketVector) (a b : nat) : bucketVector :=
  reverseRange_loop (length data) data a (b - 1).

Section Pdqsort.

(** [breakPatterns(data, a, b)] *)
Variable breakPatterns : bucketVector -> nat -> nat -> bucketVector.

(** [pdqsort(data, a, b, limit)]; [wasBalanced] and [wasPartitioned] are
    the variables of its loop, both [true] on entry. *)
Fixpoint pdqsort (fuel : nat) (data : bucketVector) (a b limit : nat)
    (wasBalanced wasPartitioned : bool) : bucketVector :=
  match fuel with
  | O => data
  | S fuel' =>
      let length := (b - a)%nat in
      if bool_decide (length <= 12)%nat then insertionSort data a b
      else if bool_decide (limit = O) then heapSort data a b
      else
        let '(data, limit) :=
          if negb wasBalanced then (breakPatterns data a b, (limit - 1)%nat)
          else (data, limit) in
        let '(pivot, hint) := choosePivot data a b in
        let '(data, pivot, hint) :=
          match hint with
          | decreasingHint =>
              (reverseRange data a b, ((b - 1) - (pivot - a))%nat,
               increasingHint)
          | _ => (data, pivot, hint)
          end in
        let '(data, sorted) :=
          match hint with
          | increasingHint =>
              if wasBalanced && wasPartitioned
              then partialInsertionSort data a b else (data, false)
          | _ => (data, false)
          end in
        if sorted then data
        else if bool_decide (0 < a)%nat && negb (bv_Less data (a - 1) pivot)
        then
          let '(data, mid) := partitionEqual data a b pivot in
          pdqsort fuel' data mid b limit wasBalanced wasPartitioned
        else
          let '(data, mid, alreadyPartitioned) :=
            pdq_partition data a b pivot in
          let leftLen := (mid - a)%nat in
          let rightLen := (b - mid)%nat in
          let balanceThreshold := (length / 8)%nat in
          if bool_decide (leftLen < rightLen)%nat then
            let data := pdqsort fuel' data a mid limit true true in
            pdqsort fuel' data (mid + 1) b limit
                    (bool_decide (balanceThreshold <= leftLen)%nat)
                    alreadyPartitioned
          else
            let data := pdqsort fuel' data (mid + 1) b limit true true in
            pdqsort fuel' data a mid limit
                    (bool_decide (balanceThreshold <= rightLen)%nat)
                    alreadyPartitioned
  end.

(** [sort.Sort(data)]; [bits.Len(n)] is [Nat.log2 n + 1] for positive [n]. *)
Definition Sort_pdq (data : bucketVector) : bucketVector :=
  let n := bv_Len data in
  if bool_decide (n <= 1)%nat then data
  else pdqsort (S n) data 0 n (Nat.log2 n + 1) true true.

End Pdqsort.

(** Where [insert_down] leaves [x] among the elements before it, given last
    first in [before]. *)
Fixpoint place (x : bucket) (before : list bucket) : list bucket :=
  match before with
  | [] => [x]
  | y :: before' =>
      if bucket_less x y then place x before' ++ [y]
      else reverse before ++ [x]
  end.

(** Buckets of equal population keep the order of their bucket ids. *)
Definition stable_by_id (order : bucketVector) : Prop :=
  forall (i j : nat) (x y : bucket),
    (i < j)%nat -> order !! i = Some x -> order !! j = Some y ->
    bucket_keys x <> [] ->
    length (bucket_keys x) = length (bucket_keys y) ->
    bucket_index x < bucket_index y.

(** A stand-in for [math/rand] in the examples. *)
Definition example_source (seed : Z) (k : nat) : Z :=
  (seed + 1) * 6364136223846793005 * (Z.of_nat k + 1) + 1442695040888963407.

(** The sample data of the package's tests, added to a builder seeded
    with 42. *)
Definition sample_calls : list call :=
  [ CallSeed 42;
    CallAdd 4497751427889084562 7350820204916009064;
    CallAdd 6500312395473234249 3838014355565228088;
    CallAdd 4512880937691157593 8476067645091641406;
    CallAdd 341165985643372816 9137376927100172348;
    CallAdd 5935824643270476650 815096534710225439;
    CallAdd 2672920638734362811 6212145708329429500;
    CallAdd 85228549085877255 5674464906966263850 ].

(** What [Build] returns for [sample_calls] with [example_source] and
    [Sort_short]. *)
Definition sample_chd : CHD :=
  {| chd_r := [16846135634367339998; 13989755346458666439];
     chd_indices := [0; 0; 1];
     chd_keys :=
       [4512880937691157593; 6500312395473234249; 2672920638734362811;
        85228549085877255; 4497751427889084562; 341165985643372816;
        5935824643270476650];
     chd_values :=
       [8476067645091641406; 3838014355565228088; 6212145708329429500;
        5674464906966263850; 7350820204916009064; 9137376927100172348;
        815096534710225439] |}.

(** ** Well-formed structures and positioned readers *)

(** A structure whose elements fit their types and whose lengths fit the
    32-bit counts of the file layout. *)
Definition wf_chd (c : CHD) : Prop :=
  Forall is_uint64 (chd_r c) /\ Forall is_uint16 (chd_indices c) /\
  Forall is_uint64 (chd_keys c) /\ Forall is_uint64 (chd_values c) /\
  length (chd_values c) = length (chd_keys c) /\
  len (chd_r c) < 2 ^ 32 /\ len (chd_indices c) < 2 ^ 32 /\
  len (chd_keys c) < 2 ^ 32.

(** A reader that has consumed [pre] and has [rest] ahead. *)
Definition reader_at (pre rest : list byte) : sliceReader :=
  {| sr_b := pre ++ rest; sr_pos := len pre |}.

(** ** The order of placement *)

(** The non-empty buckets in the order in which the loop of [Build] places
    them: it runs over the sorted vector and skips the empty buckets. *)
Definition placement_order (rand_source : Z -> nat -> Z)
    (sort_Sort : bucketVector -> bucketVector) (now : Z) (b : CHDBuilder)
  : result bucketVector :=
  do buckets <- partition rand_source now b;
  Ok (filter (fun bk => bucket_keys bk <> []) (sort_Sort buckets)).

(** Populations never increase along the order. *)
Definition descending (order : bucketVector) : Prop :=
  forall (i j : nat) (x y : bucket),
    (i < j)%nat -> order !! i = Some x -> order !! j = Some y ->
    (length (bucket_keys y) <= length (bucket_keys x))%nat.

(** What [Uint64] first returns on [rand.New(rand.NewSource(42))]: the
    value that [newCHDHasher] stores as [r[0]] after [Seed(42)]. *)
Definition rand_42_first : Z := 12663951391086054483.

(** A source that draws [rand_42_first] first after [Seed(42)].  The
    partition of the keys into buckets, and with it the order of placement,
    uses no other value of the source; elsewhere the source is
    [example_source]. *)
Definition source_42 (seed : Z) (k : nat) : Z :=
  if decide (seed = 42 /\ k = O) then rand_42_first else example_source seed k.

(** The hasher and the table of [Build] before its loop over the sorted
    buckets. *)
Definition Build_start (rand_source : Z -> nat -> Z) (now : Z) (b : CHDBuilder)
  : chdHasher * table :=
  let n := len (b_keys b) in
  let m := bucket_count n in
  (newCHDHasher rand_source n m (b_seed b) (b_seeded b) now,
   {| t_seen := ∅; t_keys := replicate (Z.to_nat n) 0;
      t_values := replicate (Z.to_nat n) 0;
      t_indices := replicate (Z.to_nat m) unassigned |}).

(** Fourteen keys, seeded with 42: with [r[0] = rand_42_first] they fall
    into seven buckets of populations 3, 2, 2, 2, 1, 3, 1. *)
Definition tie_calls : list call :=
  CallSeed 42 ::
  map (fun k => CallAdd k k) [1; 2; 3; 4; 5; 6; 7; 8; 9; 10; 11; 12; 13; 14].

(** Twenty-six keys, seeded with 42: with [r[0] = rand_42_first] they
    fall into thirteen buckets of populations
    5, 0, 0, 3, 3, 2, 3, 1, 3, 1, 1, 0, 4. *)
Definition tie_calls_26 : list call :=
  CallSeed 42 :: map (fun k => CallAdd k k) (seqZ 1 26).

(** The non-empty buckets of [tie_calls] when [r[0]] is [rand_42_first], by
    decreasing population and, within a population, by bucket id:
    0, 5, 1, 2, 3, 4, 6. *)
Definition tie_placement : bucketVector :=
  [ {| bucket_index := 0; bucket_keys := [7; 10; 12];
       bucket_values := [7; 10; 12] |};
    {| bucket_index := 5; bucket_keys := [5; 8; 14];
       bucket_values := [5; 8; 14] |};
    {| bucket_index := 1; bucket_keys := [1; 4]; bucket_values := [1; 4] |};
    {| bucket_index := 2; bucket_keys := [2; 9]; bucket_values := [2; 9] |};
    {| bucket_index := 3; bucket_keys := [3; 6]; bucket_values := [3; 6] |};
    {| bucket_index := 4; bucket_keys := [11]; bucket_values := [11] |};
    {| bucket_index := 6; bucket_keys := [13]; bucket_values := [13] |} ].

(** The non-empty buckets of [tie_calls_26] when [r[0]] is [rand_42_first],
    in the order 0, 12, 6, 3, 4, 8, 5, 7, 9, 10 of their ids: the
    populations are 5, 4, 3, 3, 3, 3, 2, 1, 1, 1, and bucket 6 stands
    before the buckets 3 and 4 of as many keys. *)
Definition tie_placement_26 : bucketVector :=
  [ {| bucket_index := 0; bucket_keys := [4; 10; 13; 19; 26];
       bucket_values := [4; 10; 13; 19; 26] |};
    {| bucket_index := 12; bucket_keys := [2; 3; 14; 20];
       bucket_values := [2; 3; 14; 20] |};
    {| bucket_index := 6; bucket_keys := [9; 23; 25];
       bucket_values := [9; 23; 25] |};
    {| bucket_index := 3; bucket_keys := [7; 15; 22];
       bucket_values := [7; 15; 22] |};
    {| bucket_index := 4; bucket_keys := [8; 17; 24];
       bucket_values := [8; 17; 24] |};
    {| bucket_index := 8; bucket_keys := [6; 12; 18];
       bucket_values := [6; 12; 18] |};
    {| bucket_index := 5; bucket_keys := [11; 21]; bucket_values := [11; 21] |};
    {| bucket_index := 7; bucket_keys := [5]; bucket_values := [5] |};
    {| bucket_index := 9; bucket_keys := [16]; bucket_values := [16] |};
    {| bucket_index := 10; bucket_keys := [1]; bucket_values := [1] |} ].

(** ** A small table for the examples of [tryHash] *)

Definition example_hasher : chdHasher :=
  {| h_r := [7]; h_size := 4; h_buckets := 2;
     h_rand := {| rand_seed := 0; rand_drawn := 1 |} |}.

Definition example_table : table :=
  {| t_seen := ∅; t_keys := [0; 0; 0; 0]; t_values := [0; 0; 0; 0];
     t_indices := [unassigned; unassigned] |}.

Definition example_bucket : bucket :=
  {| bucket_index := 1; bucket_keys := [2; 3]; bucket_values := [20; 30] |}.

Definition example_bucket_empty : bucket :=
  {| bucket_index := 0; bucket_keys := []; bucket_values := [] |}.

(** ** A structure with 2^16 hash functions

    One pair, (13, 37), in the only slot of a table with one bucket; the
    bucket was placed by the hash function at position 65535, the last of
    65536. *)




(** ** A structure with 2^32 entries

    One hash function and one bucket, and 2^32 slots for keys and values:
    one more than the 32-bit entry count of the file layout can say. *)



(** * Properties *)

(** ** Results *)

Lemma bind_Ok {A B} (m : result A) (k : A -> result B) (v : B) :
  bind m k = Ok v -> exists a, m = Ok a /\ k a = Ok v.
Proof. destruct m; simpl; intros; eauto; discriminate. Qed.

Lemma index_Ok {A} (s : list A) (i : Z) (x : A) :
  index s i = Ok x <-> 0 <= i /\ s !! Z.to_nat i = Some x.
Proof.
  unfold index. destruct (decide (0 <= i)) as [Hi|Hi].
  - destruct (s !! Z.to_nat i) eqn:E; split; intros H.
    + injection H as ->. auto.
    + destruct H as [_ H]. congruence.
    + discriminate.
    + destruct H as [_ H]. discriminate.
  - split; [discriminate | intros [H _]; contradiction].
Qed.

Lemma store_Ok {A} (s s' : list A) (i : Z) (x : A) :
  store s i x = Ok s' <-> 0 <= i < len s /\ s' = <[Z.to_nat i := x]> s.
Proof.
  unfold store. destruct (decide (0 <= i < len s)) as [Hi|Hi].
  - split; [intros H; injection H as <-; auto | intros [_ ->]; auto].
  - split; [discriminate | intros [H _]; contradiction].
Qed.

Lemma umod_Ok (a b v : Z) : umod a b = Ok v <-> b <> 0 /\ v = a mod b.
Proof.
  unfold umod. destruct (decide (b = 0)); split; try discriminate.
  - intros [H _]; contradiction.
  - intros H; injection H as <-; auto.
  - intros [_ ->]; auto.
Qed.

(** Decompose a successful run of a sequence of binds in [H]. *)
Tactic Notation "inv_bind" hyp(H) "as" ident(a) ident(Ha) :=
  apply bind_Ok in H; destruct H as (a & Ha & H).

(** ** Bytes *)

Lemma byte_val_of (v : Z) : byte_val (byte_of v) = v mod 256.
Proof.
  unfold byte_val, byte_of.
  assert (Hr : 0 <= v mod 256 < 256) by (apply Z.mod_pos_bound; lia).
  destruct (Byte.of_N (Z.to_N (v mod 256))) as [b|] eqn:E.
  - apply Byte.to_of_N in E. simpl. rewrite E. lia.
  - apply Byte.of_N_None_iff in E. lia.
Qed.

Lemma byte_val_range (c : byte) : 0 <= byte_val c < 256.
Proof. unfold byte_val. pose proof (Byte.to_N_bounded c). lia. Qed.

Lemma byte_of_mod (v : Z) : byte_of (v mod 256) = byte_of v.
Proof. unfold byte_of. rewrite Z.mod_mod by lia. reflexivity. Qed.

Lemma le_encode_le (w : nat) (v : Z) : le_encode w v = le w v.
Proof.
  unfold le. revert v. induction w as [|w IH]; intros v; [reflexivity|].
  simpl. f_equal; [f_equal; rewrite Z.div_1_r; reflexivity|].
  rewrite IH, <- seq_shift, map_map. apply map_ext. intros i.
  f_equal. rewrite Z.shiftr_div_pow2 by lia.
  rewrite Z.div_div by lia. f_equal.
  replace (Z.of_nat (S i)) with (1 + Z.of_nat i) by lia.
  rewrite Z.pow_add_r by lia. reflexivity.
Qed.

Lemma PutUint64_le (v : Z) : PutUint64 v = le 8 v.
Proof.
  unfold PutUint64, le. simpl.
  rewrite !Z.shiftr_div_pow2 by lia. rewrite Z.div_1_r. reflexivity.
Qed.

Lemma lor_shiftl_8 (a b : Z) :
  0 <= a < 256 -> 0 <= b -> Z.lor a (Z.shiftl b 8) = a + 256 * b.
Proof.
  intros Ha Hb.
  assert (Hland : Z.land a (Z.shiftl b 8) = 0).
  { apply Z.bits_inj'; intros i Hi. rewrite Z.land_spec, Z.bits_0.
    destruct (Z.lt_ge_cases i 8).
    - rewrite Z.shiftl_spec_low by lia. apply andb_false_r.
    - replace a with (a mod 2 ^ 8) by (apply Z.mod_small; lia).
      rewrite Z.mod_pow2_bits_high by lia. reflexivity. }
  rewrite <- Z.lxor_lor by exact Hland.
  rewrite <- Z.add_nocarry_lxor by exact Hland.
  rewrite Z.shiftl_mul_pow2 by lia. lia.
Qed.

Lemma le_decode_nonneg (b : list byte) : 0 <= le_decode b.
Proof.
  induction b as [|c b IH]; simpl; [lia|].
  pose proof (byte_val_range c). rewrite lor_shiftl_8 by lia. lia.
Qed.

Lemma le_decode_encode (w : nat) (v : Z) :
  le_decode (le_encode w v) = v mod 2 ^ (8 * Z.of_nat w).
Proof.
  revert v. induction w as [|w IH]; intros v; simpl le_encode; simpl le_decode.
  - rewrite Z.mod_1_r. reflexivity.
  - rewrite IH, byte_val_of.
    assert (0 < 2 ^ (8 * Z.of_nat w)) by (apply Z.pow_pos_nonneg; lia).
    rewrite lor_shiftl_8;
      [| apply Z.mod_pos_bound; lia | apply Z.mod_pos_bound; lia].
    rewrite Z.shiftr_div_pow2 by lia.
    replace (8 * Z.of_nat (S w)) with (8 + 8 * Z.of_nat w) by lia.
    rewrite Z.pow_add_r by lia.
    change (2 ^ 8) with 256. change (2 ^ 1) with 2.
    rewrite Z.rem_mul_r by lia. reflexivity.
Qed.

Lemma length_le_encode (w : nat) (v : Z) : length (le_encode w v) = w.
Proof. revert v. induction w; intros; simpl; auto. Qed.

(** ** The hash primitive *)

Lemma hasher_fold (bytes : list byte) (h : Z) :
  fold_left (fun hash c => uint64 (Z.lxor hash (byte_val c) * fnv_prime)) bytes h
  = fnv1a (map byte_val bytes) h.
Proof.
  revert h. induction bytes as [|c bytes IH]; intros h; simpl; [reflexivity|].
  rewrite IH. reflexivity.
Qed.

Lemma hasher_digest (key : Z) : hasher key = digest key.
Proof.
  unfold hasher, digest. rewrite hasher_fold. f_equal.
  rewrite PutUint64_le. unfold le, le_bytes8. simpl.
  rewrite !byte_val_of. reflexivity.
Qed.

(** From here on the hash is used through [hasher_digest] only. *)
Opaque hasher.

(** ** Go maps *)

Lemma map_get_empty (k : Z) : map_get ∅ k = false.
Proof. unfold map_get. rewrite lookup_empty. reflexivity. Qed.

Lemma map_get_insert (m : gmap Z bool) (k x : Z) :
  map_get (<[k := true]> m) x = true <-> x = k \/ map_get m x = true.
Proof.
  unfold map_get. destruct (decide (k = x)) as [->|Hne].
  - rewrite lookup_insert_eq. simpl. tauto.
  - rewrite lookup_insert_ne by done. split; [tauto|].
    intros [->|H]; [contradiction|exact H].
Qed.

Lemma map_get_insert_false (m : gmap Z bool) (k x : Z) :
  map_get (<[k := true]> m) x = false -> x <> k /\ map_get m x = false.
Proof.
  intros H. split.
  - intros ->. unfold map_get in H. rewrite lookup_insert_eq in H. discriminate.
  - destruct (map_get m x) eqn:E; [|reflexivity].
    assert (map_get (<[k := true]> m) x = true) by (apply map_get_insert; auto).
    congruence.
Qed.

Lemma mark_seen_spec (hashes : list Z) (seen : gmap Z bool) (x : Z) :
  map_get (mark_seen seen hashes) x = true <->
  x ∈ hashes \/ map_get seen x = true.
Proof.
  unfold mark_seen. revert seen.
  induction hashes as [|hv hashes IH]; intros seen; simpl.
  - rewrite elem_of_nil. tauto.
  - rewrite IH, map_get_insert, elem_of_cons. tauto.
Qed.

(** ** [tryHash] *)

Lemma Table_Ok (h : chdHasher) (r k hv : Z) :
  Table h r k = Ok hv <->
  exists r0, h_r h !! 0%nat = Some r0 /\ h_size h <> 0 /\
             hv = table_hash r0 (h_size h) r k.
Proof.
  unfold Table, table_hash. split.
  - intros H. inv_bind H as r0 Ha. apply index_Ok in Ha as [_ Ha].
    apply umod_Ok in H as [? ->]. eauto.
  - intros (r0 & Hr0 & Hn & ->).
    assert (E : index (h_r h) 0 = Ok r0) by (apply index_Ok; split; [lia|exact Hr0]).
    rewrite E. simpl. apply umod_Ok. auto.
Qed.

Lemma HashIndexFromKey_Ok (h : chdHasher) (k oh : Z) :
  HashIndexFromKey h k = Ok oh <->
  exists r0, h_r h !! 0%nat = Some r0 /\ h_buckets h <> 0 /\
             oh = outer_hash r0 (h_buckets h) k.
Proof.
  unfold HashIndexFromKey, outer_hash. split.
  - intros H. inv_bind H as r0 Ha. apply index_Ok in Ha as [_ Ha].
    apply umod_Ok in H as [? ->]. eauto.
  - intros (r0 & Hr0 & Hn & ->).
    assert (E : index (h_r h) 0 = Ok r0) by (apply index_Ok; split; [lia|exact Hr0]).
    rewrite E. simpl. apply umod_Ok. auto.
Qed.

Lemma tryHash_hashes_Some (h : chdHasher) (seen : gmap Z bool) (r : Z)
    (ks : list Z) :
  forall (dup : gmap Z bool) (hashes : list Z),
  tryHash_hashes h seen dup r ks = Ok (Some hashes) ->
  Forall2 (fun k hv => Table h r k = Ok hv) ks hashes /\
  Forall (fun hv => map_get seen hv = false /\ map_get dup hv = false) hashes /\
  NoDup hashes.
Proof.
  induction ks as [|k ks IH]; intros dup hashes H; simpl in H.
  - injection H as <-. repeat split; constructor.
  - inv_bind H as hv Hhv.
    destruct (map_get seen hv) eqn:Hseen; [discriminate|].
    destruct (map_get dup hv) eqn:Hdup; [discriminate|].
    inv_bind H as rest' Hrest. destruct rest' as [rest|]; simpl in H; [|discriminate].
    injection H as <-.
    destruct (IH _ _ Hrest) as (HT & HF & HN).
    split; [constructor; assumption|]. split.
    + constructor; [auto|]. eapply Forall_impl; [exact HF|].
      simpl. intros x [? Hx]. apply map_get_insert_false in Hx. tauto.
    + apply NoDup_cons. split; [|exact HN].
      intros Hin. rewrite Forall_forall in HF.
      destruct (HF _ Hin) as [_ Hx].
      apply map_get_insert_false in Hx. tauto.
Qed.

Lemma fill_table_spec (bk : bucket) (hashes : list Z) :
  forall (keys values : list Z) (i : Z) (keys' values' : list Z),
  0 <= i -> NoDup hashes ->
  fill_table keys values bk i hashes = Ok (keys', values') ->
  length keys' = length keys /\ length values' = length values /\
  (forall (j : nat) hv, hashes !! j = Some hv ->
     0 <= hv < len keys /\ 0 <= hv < len values /\
     exists k v,
       bucket_keys bk !! (Z.to_nat i + j)%nat = Some k /\
       bucket_values bk !! (Z.to_nat i + j)%nat = Some v /\
       keys' !! Z.to_nat hv = Some k /\ values' !! Z.to_nat hv = Some v) /\
  (forall x : nat, (forall hv, hv ∈ hashes -> Z.to_nat hv <> x) ->
     keys' !! x = keys !! x /\ values' !! x = values !! x).
Proof.
  induction hashes as [|hv hashes IH]; intros keys values i keys' values' Hi HN H;
    simpl in H.
  - injection H as <- <-.
    split; [reflexivity|]. split; [reflexivity|]. split; [|auto].
    intros j hv Hj. rewrite lookup_nil in Hj. discriminate.
  - inv_bind H as k Hk. inv_bind H as keys1 Hkeys1.
    inv_bind H as v Hv. inv_bind H as values1 Hvalues1.
    apply index_Ok in Hk as [_ Hk]. apply index_Ok in Hv as [_ Hv].
    apply store_Ok in Hkeys1 as [Hb1 ->]. apply store_Ok in Hvalues1 as [Hb2 ->].
    apply NoDup_cons in HN as [Hnotin HN].
    assert (Hi' : 0 <= i + 1) by lia.
    destruct (IH _ _ _ _ _ Hi' HN H) as (HL1 & HL2 & Hin & Hout).
    rewrite length_insert in HL1, HL2.
    assert (Hrest : forall hv', hv' ∈ hashes -> Z.to_nat hv' <> Z.to_nat hv).
    { intros hv' Hin' Heq. apply list_elem_of_lookup in Hin' as [j Hj].
      destruct (Hin _ _ Hj) as (Hr & _). 
      assert (hv' = hv) by lia. subst hv'.
      apply Hnotin. apply list_elem_of_lookup. eauto. }
    split; [exact HL1|]. split; [exact HL2|]. split.
    + intros [|j] hv' Hj; simpl in Hj.
      * injection Hj as <-. split; [lia|]. split; [lia|].
        exists k, v. rewrite Nat.add_0_r. split; [exact Hk|]. split; [exact Hv|].
        destruct (Hout _ Hrest) as [-> ->].
        unfold len in *.
        rewrite !list_lookup_insert_eq by lia. auto.
      * destruct (Hin _ _ Hj) as (Hr1 & Hr2 & k' & v' & Hk' & Hv' & ? & ?).
        unfold len in *. rewrite length_insert in Hr1, Hr2.
        split; [lia|]. split; [lia|]. exists k', v'.
        replace (Z.to_nat i + S j)%nat with (Z.to_nat (i + 1) + j)%nat by lia.
        auto.
    + intros x Hx.
      destruct (Hout x) as [-> ->].
      { intros hv' Hin'. apply Hx. apply elem_of_cons. auto. }
      assert (Z.to_nat hv <> x) by (apply Hx; apply elem_of_cons; auto).
      rewrite !list_lookup_insert_ne by done. auto.
Qed.


Lemma tryHash_Some (hT : chdHasher) (tb : table) (bk : bucket) (ri r : Z)
    (tb' : table) :
  tryHash hT tb bk ri r = Ok (Some tb') ->
  exists hashes,
    Forall2 (fun k hv => Table hT r k = Ok hv) (bucket_keys bk) hashes /\
    Forall (fun hv => map_get (t_seen tb) hv = false) hashes /\
    NoDup hashes /\
    t_seen tb' = mark_seen (t_seen tb) hashes /\
    0 <= bucket_index bk < len (t_indices tb) /\
    t_indices tb' = <[Z.to_nat (bucket_index bk) := ri]> (t_indices tb) /\
    fill_table (t_keys tb) (t_values tb) bk 0 hashes
      = Ok (t_keys tb', t_values tb').
Proof.
  unfold tryHash. intros H. inv_bind H as hs Hhs.
  destruct hs as [hashes|]; [|discriminate].
  inv_bind H as indices Hind. inv_bind H as kv Hfill. destruct kv as [keys values].
  injection H as <-. simpl.
  apply tryHash_hashes_Some in Hhs as (HT & HF & HN).
  apply store_Ok in Hind as [Hb ->].
  exists hashes. repeat split; try assumption; try lia.
  eapply Forall_impl; [exact HF|]. simpl. tauto.
Qed.

Lemma is_uint16_uint16 (z : Z) : is_uint16 (uint16 z).
Proof. unfold is_uint16, uint16. apply Z.mod_pos_bound. lia. Qed.

Lemma outer_hash_range (r0 m k : Z) : 0 < m -> 0 <= outer_hash r0 m k < m.
Proof. intros. unfold outer_hash. apply Z.mod_pos_bound. lia. Qed.

Lemma tryHash_Inv (r0 n m : Z) (ks : list Z) (placed : list (Z * Z))
    (h hT h' : chdHasher) (tb tb' : table) (bk : bucket) (ri : nat) (r : Z) :
  Inv r0 n m placed h tb ->
  bucket_ok r0 m ks bk -> bucket_keys bk <> [] ->
  (forall kv, kv ∈ placed -> kv.1 ∈ ks /\ kv.1 ∉ bucket_keys bk) ->
  h_r hT !! 0%nat = Some r0 -> h_size hT = n ->
  tryHash hT tb bk (uint16 (Z.of_nat ri)) r = Ok (Some tb') ->
  h_size h' = n -> h_buckets h' = m -> h_r h `prefix_of` h_r h' ->
  h_r h' !! ri = Some r -> Forall is_uint64 (h_r h') ->
  Inv r0 n m (placed ++ bucket_pairs bk) h' tb'.
Proof.
  intros ((Hsz & Hbk & Hm & Hr0) & (Lk & Lv & Li) & Hplaced & Hseen &
          (slots & HNs & Hls & Hslots) & (Hu64 & Hu16 & _))
         [Hlen Hbok] Hne Hfresh HrT HszT Htry Hsz' Hbk' Hpre Hri Hu64'.
  specialize (Hbok Hne).
  apply tryHash_Some in Htry
    as (hashes & HT & Hunseen & HN & Eseen & Hidx & Eind & Hfill).
  apply fill_table_spec in Hfill as (HL1 & HL2 & Hin & Hout); [|lia|exact HN].
  rewrite Forall_forall in Hunseen.
  (* the hash of the key at every position of the bucket *)
  assert (Hhash : forall j k, bucket_keys bk !! j = Some k ->
            hashes !! j = Some (table_hash r0 n r k)).
  { intros j k Hj.
    destruct (Forall2_lookup_l _ _ _ _ _ HT Hj) as (hv & Hhv & HTab).
    apply Table_Ok in HTab as (r0' & Hr0' & _ & ->).
    rewrite HrT in Hr0'. injection Hr0' as <-. rewrite HszT in Hhv. exact Hhv. }
  assert (Hold : forall s, map_get (t_seen tb) s = true ->
            t_keys tb' !! Z.to_nat s = t_keys tb !! Z.to_nat s /\
            t_values tb' !! Z.to_nat s = t_values tb !! Z.to_nat s).
  { intros s Hs. apply Hout. intros hv Hhv Heq.
    destruct (Hseen _ Hs) as [Hrs _].
    apply list_elem_of_lookup in Hhv as Hj. destruct Hj as [j Hj].
    destruct (Hin _ _ Hj) as (Hrh & _).
    assert (hv = s) by lia. subst hv.
    specialize (Hunseen _ Hhv). congruence. }
  assert (Hpairs : forall j k v,
            bucket_keys bk !! j = Some k -> bucket_values bk !! j = Some v ->
            t_keys tb' !! Z.to_nat (table_hash r0 n r k) = Some k /\
            t_values tb' !! Z.to_nat (table_hash r0 n r k) = Some v /\
            0 <= table_hash r0 n r k < n).
  { intros j k v Hk Hv. specialize (Hhash _ _ Hk).
    destruct (Hin _ _ Hhash) as (Hr1 & _ & k' & v' & Hk' & Hv' & ? & ?).
    simpl in Hk', Hv'. rewrite Hk in Hk'. rewrite Hv in Hv'.
    injection Hk' as <-. injection Hv' as <-. repeat split; auto; lia. }
  unfold Inv. split; [|split; [|split; [|split; [|split]]]].
  - repeat split; auto. exact (prefix_lookup_Some _ _ _ _ Hr0 Hpre).
  - unfold len in *. rewrite HL1, HL2, Eind, length_insert. auto.
  - apply Forall_app. split.
    + rewrite Forall_forall in Hplaced |- *. intros kv Hkv.
      destruct (Hplaced _ Hkv) as (ri0 & r1 & Hi & Hr & Hk & Hv & Hs).
      destruct (Hfresh _ Hkv) as [Hks Hnot].
      exists ri0, r1. destruct (Hold _ Hs) as [-> ->].
      repeat split; auto.
      * rewrite Eind. rewrite list_lookup_insert_ne; [exact Hi|].
        intros Heq. apply Hnot. apply Hbok. split; [exact Hks|].
        pose proof (outer_hash_range r0 m kv.1 Hm). lia.
      * exact (prefix_lookup_Some _ _ _ _ Hr Hpre).
      * rewrite Eseen. apply mark_seen_spec. auto.
    + rewrite Forall_forall. intros [k v] Hkv.
      apply list_elem_of_lookup in Hkv as [j Hj].
      apply lookup_zip_with_Some in Hj as (k' & v' & E & Hk & Hv).
      injection E as <- <-.
      destruct (Hpairs _ _ _ Hk Hv) as (HK & HV & _).
      exists ri, r. cbn [fst snd]. repeat split; auto.
      * assert (Ho : outer_hash r0 m k = bucket_index bk).
        { apply Hbok. eapply list_elem_of_lookup_2; eauto. }
        rewrite Ho, Eind. apply list_lookup_insert_eq. unfold len in *. lia.
      * rewrite Eseen. apply mark_seen_spec. left.
        eapply list_elem_of_lookup_2. eapply Hhash; eauto.
  - intros s Hs. rewrite Eseen in Hs. apply mark_seen_spec in Hs.
    destruct (decide (map_get (t_seen tb) s = true)) as [Hs'|Hs'].
    + destruct (Hseen _ Hs') as (Hr & kv & Hkv & Hk & Hv).
      split; [exact Hr|]. exists kv. destruct (Hold _ Hs') as [-> ->].
      split; [apply elem_of_app; auto|]. auto.
    + destruct Hs as [Hs|Hs]; [|contradiction].
      apply list_elem_of_lookup in Hs as [j Hj].
      assert (Hjlt : (j < length (bucket_keys bk))%nat).
      { rewrite (Forall2_length _ _ _ HT). eapply lookup_lt_Some; eauto. }
      destruct (lookup_lt_is_Some_2 _ _ Hjlt) as [k Hk].
      rewrite Hlen in Hjlt.
      destruct (lookup_lt_is_Some_2 _ _ Hjlt) as [v Hv].
      pose proof (Hhash _ _ Hk) as Hj'. rewrite Hj in Hj'. injection Hj' as ->.
      destruct (Hpairs _ _ _ Hk Hv) as (HK & HV & Hr).
      split; [exact Hr|]. exists (k, v). cbn [fst snd]. split; [|auto].
      apply elem_of_app. right. eapply list_elem_of_lookup_2.
      unfold bucket_pairs. apply lookup_zip_with_Some. eauto.
  - exists (hashes ++ slots). split; [|split].
    + apply NoDup_app. split; [exact HN|]. split; [|exact HNs].
      intros x Hx Hx'. apply Hslots in Hx'. specialize (Hunseen _ Hx). congruence.
    + rewrite !length_app, Hls, Nat.add_comm. f_equal. unfold bucket_pairs.
      rewrite length_zip_with, <- Hlen, Nat.min_id.
      symmetry. eapply Forall2_length; eauto.
    + intros s. rewrite elem_of_app, Eseen, mark_seen_spec, Hslots. tauto.
  - split; [exact Hu64'|]. split.
    + rewrite Eind. apply Forall_insert; [exact Hu16|]. apply is_uint16_uint16.
    + intros i x _. right. unfold bucket_pairs.
      destruct (bucket_keys bk) as [|k0 ks0]; [contradiction|].
      destruct (bucket_values bk) as [|v0 vs0]; [discriminate|].
      intros E. apply app_eq_nil in E as [_ E]. discriminate.
Qed.


(** ** The placement loop *)

Lemma try_existing_Some (h : chdHasher) (tb : table) (bk : bucket) (rs : list Z) :
  forall (ri0 : nat) (tb' : table),
  try_existing h tb bk ri0 rs = Ok (Some tb') ->
  exists (j : nat) (r : Z),
    rs !! j = Some r /\
    tryHash h tb bk (uint16 (Z.of_nat (ri0 + j))) r = Ok (Some tb').
Proof.
  induction rs as [|r rs IH]; intros ri0 tb' H; simpl in H; [discriminate|].
  inv_bind H as t Ht. destruct t as [tb1|].
  - injection H as <-. exists O, r. rewrite Nat.add_0_r. auto.
  - destruct (IH _ _ H) as (j & r' & Hj & Htry).
    exists (S j), r'. replace (ri0 + S j)%nat with (S ri0 + j)%nat by lia. auto.
Qed.

Lemma rounds_add {S R} (body : S -> result (S + R)) (a b : nat) (s : S) :
  rounds body (a + b) s
  = (do x <- rounds body a s;
     match x with
     | inl s' => rounds body b s'
     | inr v => Ok (inr v)
     end).
Proof.
  revert s. induction a as [|a IH]; intros s; simpl; [reflexivity|].
  destruct (body s) as [[s'|v]| |]; simpl; auto.
Qed.

(** [retry] runs the body at most [n] times, leaving at the first success. *)
Lemma retry_rounds {S R} (body : S -> result (S + R)) (n : positive) (s : S) :
  retry body n s = rounds body (Pos.to_nat n) s.
Proof.
  revert s. induction n as [p IH|p IH|]; intros s.
  - change (retry body p~1 s)
      with (do x <- body s;
            match x with
            | inl s' =>
                do y <- retry body p s';
                match y with
                | inl s'' => retry body p s''
                | inr v => Ok (inr v)
                end
            | inr v => Ok (inr v)
            end).
    rewrite Pos2Nat.inj_xI. cbn [rounds Nat.mul].
    destruct (body s) as [[s'|v]| |]; cbn [bind]; auto.
    rewrite Nat.add_0_r, rounds_add, <- IH.
    destruct (retry body p s') as [[s''|v]| |]; cbn [bind]; auto.
  - change (retry body p~0 s)
      with (do x <- retry body p s;
            match x with
            | inl s' => retry body p s'
            | inr v => Ok (inr v)
            end).
    rewrite Pos2Nat.inj_xO. cbn [Nat.mul].
    rewrite Nat.add_0_r, rounds_add, <- IH.
    destruct (retry body p s) as [[s'|v]| |]; cbn [bind]; auto.
  - change (retry body 1 s) with (body s).
    change (Pos.to_nat 1) with 1%nat. cbn [rounds].
    destruct (body s) as [[s'|v]| |]; reflexivity.
Qed.

Lemma retry_spec {S R} (P : S -> Prop) (body : S -> result (S + R)) :
  (forall s s', P s -> body s = Ok (inl s') -> P s') ->
  forall (n : positive) (s : S) (x : S + R),
  P s -> retry body n s = Ok x ->
  match x with
  | inl s' => P s'
  | inr v => exists s', P s' /\ body s' = Ok (inr v)
  end.
Proof.
  intros Hstep. induction n as [p IH|p IH|]; intros s x Hs H; simpl in H.
  - inv_bind H as y Hy. destruct y as [s1|v].
    + inv_bind H as z Hz. specialize (Hstep _ _ Hs Hy).
      pose proof (IH _ _ Hstep Hz) as Hz'. destruct z as [s2|v].
      * exact (IH _ _ Hz' H).
      * injection H as <-. exact Hz'.
    + injection H as <-. eauto.
  - inv_bind H as y Hy. pose proof (IH _ _ Hs Hy) as Hy'. destruct y as [s1|v].
    + exact (IH _ _ Hy' H).
    + injection H as <-. exact Hy'.
  - destruct x as [s'|v]; eauto.
Qed.

Section Placement.

Variable rand_source : Z -> nat -> Z.

Lemma is_uint64_uint64 (z : Z) : is_uint64 (uint64 z).
Proof. unfold is_uint64, uint64. apply Z.mod_pos_bound. lia. Qed.

Lemma try_new_spec (tb : table) (bk : bucket) (h : chdHasher)
    (x : chdHasher + chdHasher * table) :
  try_new rand_source tb bk h = Ok x ->
  match x with
  | inl h1 =>
      h_r h1 = h_r h /\ h_size h1 = h_size h /\ h_buckets h1 = h_buckets h
  | inr (h', tb') =>
      exists (hT : chdHasher) (r : Z),
        h_r hT = h_r h /\ h_size hT = h_size h /\ is_uint64 r /\
        tryHash hT tb bk (uint16 (len (h_r h))) r = Ok (Some tb') /\
        h_r h' = h_r h ++ [r] /\ h_size h' = h_size h /\
        h_buckets h' = h_buckets h
  end.
Proof.
  unfold try_new, Generate, rand_Uint64, h_Len. intros H.
  inv_bind H as t Ht. destruct t as [tb'|]; injection H as <-.
  - eexists _, _. split; [|split; [|split; [|split; [exact Ht|]]]]; simpl; auto.
    apply is_uint64_uint64.
  - simpl. auto.
Qed.

Lemma place_bucket_Inv (r0 n m : Z) (ks : list Z) (placed : list (Z * Z))
    (h h' : chdHasher) (tb tb' : table) (bk : bucket) (nb i : Z) :
  Inv r0 n m placed h tb ->
  bucket_ok r0 m ks bk ->
  (forall kv, kv ∈ placed -> kv.1 ∈ ks /\ kv.1 ∉ bucket_keys bk) ->
  place_bucket rand_source nb i (h, tb) bk = Ok (h', tb') ->
  Inv r0 n m (placed ++ bucket_pairs bk) h' tb' /\
  (length (h_r h') <= S (length (h_r h)))%nat.
Proof.
  intros HInv Hbok Hfresh H. unfold place_bucket in H.
  destruct (decide (len (bucket_keys bk) = 0)) as [Hz|Hnz].
  - injection H as <- <-.
    assert (E : bucket_keys bk = []).
    { destruct (bucket_keys bk); [reflexivity|]. unfold len in Hz. simpl in Hz. lia. }
    unfold bucket_pairs. rewrite E. simpl. rewrite app_nil_r. auto.
  - assert (Hne : bucket_keys bk <> []).
    { intros E. rewrite E in Hnz. apply Hnz. reflexivity. }
    pose proof HInv as ((Hsz & Hbk & Hm & Hr0) & _ & _ & _ & _ & (Hu64 & _)).
    inv_bind H as t Ht. destruct t as [tb1|].
    + injection H as <- <-.
      apply try_existing_Some in Ht as (j & r & Hj & Htry). simpl in Htry.
      split; [|lia].
      eapply (tryHash_Inv r0 n m ks placed h h h); eauto.
    + inv_bind H as x Hx. destruct x as [h1|[h1 tb1]]; [discriminate|].
      injection H as <- <-.
      apply (retry_spec
               (fun s => h_r s = h_r h /\ h_size s = h_size h /\
                         h_buckets s = h_buckets h)) in Hx; [| |auto].
      * destruct Hx as (s' & (Er & Es & Eb) & Hx).
        apply try_new_spec in Hx
          as (hT & r & ErT & EsT & Hr & Htry & Er' & Es' & Eb').
        rewrite Er in Htry, Er', ErT. rewrite Er'.
        split; [|rewrite length_app; simpl; lia].
        unfold len in Htry.
        eapply (tryHash_Inv r0 n m ks placed h hT h1); eauto; try congruence.
        -- rewrite Er'. apply prefix_app_r. reflexivity.
        -- rewrite Er'. apply list_lookup_middle. reflexivity.
        -- rewrite Er'. apply Forall_app. split; [exact Hu64|].
           constructor; [exact Hr|constructor].
      * intros s s' (Er & Es & Eb) Hs. apply try_new_spec in Hs. simpl in Hs.
        destruct Hs as (-> & -> & ->). auto.
Qed.

Lemma place_buckets_Inv (r0 n m : Z) (ks : list Z) (nb : Z) (L : bucketVector) :
  forall (i : Z) (placed : list (Z * Z)) (h h' : chdHasher) (tb tb' : table),
  Inv r0 n m placed h tb ->
  Forall (bucket_ok r0 m ks) L ->
  Forall (fun k => k ∈ ks) placed.*1 ->
  NoDup (placed.*1 ++ (L ≫= bucket_keys)) ->
  place_buckets rand_source nb i (h, tb) L = Ok (h', tb') ->
  Inv r0 n m (placed ++ (L ≫= bucket_pairs)) h' tb' /\
  (length (h_r h') <= length (h_r h) + length L)%nat.
Proof.
  induction L as [|bk L IH]; intros i placed h h' tb tb' HInv HL Hks HN H;
    simpl in H.
  - injection H as <- <-. simpl. rewrite app_nil_r. split; [exact HInv|lia].
  - inv_bind H as st Hst. destruct st as [h1 tb1].
    apply Forall_cons in HL as [Hbk HL].
    rewrite bind_cons in HN. rewrite bind_cons.
    assert (Hfresh : forall kv, kv ∈ placed -> kv.1 ∈ ks /\ kv.1 ∉ bucket_keys bk).
    { intros kv Hkv. rewrite Forall_forall in Hks.
      assert (Hin : kv.1 ∈ placed.*1) by (apply list_elem_of_fmap_2; exact Hkv).
      split; [auto|]. apply NoDup_app in HN as (_ & HN & _).
      intros Hk. apply (HN _ Hin). apply elem_of_app. auto. }
    destruct (place_bucket_Inv _ _ _ _ _ _ _ _ _ _ _ _ HInv Hbk Hfresh Hst)
      as [HInv1 Hlen1].
    assert (Efst : (placed ++ bucket_pairs bk).*1 = placed.*1 ++ bucket_keys bk).
    { rewrite fmap_app. f_equal. unfold bucket_pairs. apply fst_zip.
      destruct Hbk as [-> _]. lia. }
    destruct (IH (i + 1) (placed ++ bucket_pairs bk) h1 h' tb1 tb') as [HI HLn];
      try assumption.
    + rewrite Efst. apply Forall_app. split; [exact Hks|].
      apply Forall_forall. intros k Hk. destruct Hbk as [_ Hbk].
      apply Hbk; [|exact Hk]. intros E. rewrite E in Hk. inversion Hk.
    + rewrite Efst, <- app_assoc. exact HN.
    + rewrite <- app_assoc in HI. split; [exact HI|]. simpl. lia.
Qed.

End Placement.

(** ** The partition into buckets *)

Lemma bind_insert_Permutation {A B} (f : A -> list B) (l : list A) (i : nat)
    (x y : A) (e : list B) :
  l !! i = Some x -> f y = f x ++ e ->
  <[i := y]> l ≫= f ≡ₚ (l ≫= f) ++ e.
Proof.
  intros Hi Hy. revert i Hi. induction l as [|a l IH]; intros i Hi.
  - rewrite lookup_nil in Hi. discriminate.
  - destruct i as [|i]; simpl in Hi.
    + injection Hi as ->. change (<[0%nat := y]> (x :: l)) with (y :: l).
      rewrite !bind_cons, Hy, <- !app_assoc.
      apply Permutation_app_head, Permutation_app_comm.
    + change (<[S i := y]> (a :: l)) with (a :: <[i := y]> l).
      rewrite !bind_cons, (IH _ Hi), app_assoc. reflexivity.
Qed.

Lemma bind_bucket_keys (bs : bucketVector) :
  Forall (fun bk => length (bucket_keys bk) = length (bucket_values bk)) bs ->
  (bs ≫= bucket_pairs).*1 = bs ≫= bucket_keys.
Proof.
  induction 1 as [|bk bs Hbk _ IH]; [reflexivity|].
  rewrite !bind_cons, fmap_app, IH. f_equal.
  unfold bucket_pairs. apply fst_zip. lia.
Qed.

Lemma Build_buckets_spec (h : chdHasher) (r0 m : Z) (ks : list Z) :
  forall (vs : list Z) (dups : gmap Z bool) (bs bs' : bucketVector)
         (done : list (Z * Z)),
  h_r h !! 0%nat = Some r0 -> h_buckets h = m -> 0 < m ->
  length bs = Z.to_nat m ->
  length ks = length vs ->
  (forall k, map_get dups k = true <-> k ∈ done.*1) ->
  NoDup done.*1 ->
  (forall p bk, bs !! p = Some bk -> part_ok r0 m done.*1 p bk) ->
  bs ≫= bucket_pairs ≡ₚ done ->
  Build_buckets h ks vs dups bs = Ok bs' ->
  NoDup (done.*1 ++ ks) /\
  length bs' = Z.to_nat m /\
  (forall p bk, bs' !! p = Some bk -> part_ok r0 m (done.*1 ++ ks) p bk) /\
  bs' ≫= bucket_pairs ≡ₚ done ++ zip ks vs.
Proof.
  induction ks as [|key ks IH];
    intros vs dups bs bs' done Hr0 Hm Hpos Hlen Hkv Hdups HN Hpart Hperm H.
  - simpl in H. injection H as <-. simpl. rewrite !app_nil_r. auto.
  - destruct vs as [|value vs]; [discriminate|]. simpl in H.
    destruct (map_get dups key) eqn:Hdup; [discriminate|].
    inv_bind H as oh Hoh. inv_bind H as bk Hbk. inv_bind H as bs1 Hbs1.
    apply HashIndexFromKey_Ok in Hoh as (r0' & Hr0' & _ & ->).
    rewrite Hr0 in Hr0'. injection Hr0' as <-. rewrite Hm in *.
    pose proof (outer_hash_range r0 m key Hpos) as Hrange.
    set (oh := outer_hash r0 m key) in *.
    apply index_Ok in Hbk as [_ Hbk]. apply store_Ok in Hbs1 as [_ ->].
    assert (Hnew : key ∉ done.*1).
    { intros Hin. apply Hdups in Hin. congruence. }
    destruct (Hpart _ _ Hbk) as (Hl & Hidx & Hkeys).
    assert (E : (done ++ [(key, value)]).*1 = done.*1 ++ [key])
      by (rewrite fmap_app; reflexivity).
    assert (E1 : forall l : list Z, (done.*1 ++ [key]) ++ l = done.*1 ++ key :: l)
      by (intros l; rewrite <- app_assoc; reflexivity).
    assert (E2 : (done ++ [(key, value)]) ++ zip ks vs
                 = done ++ zip (key :: ks) (value :: vs))
      by (rewrite <- app_assoc; reflexivity).
    rewrite <- E2, <- (E1 ks), <- E.
    apply (IH vs (<[key := true]> dups)
                  (<[Z.to_nat oh :=
                       {| bucket_index := oh;
                          bucket_keys := bucket_keys bk ++ [key];
                          bucket_values := bucket_values bk ++ [value] |}]> bs)
                  bs' (done ++ [(key, value)])); auto; rewrite ?E.
    + rewrite length_insert. exact Hlen.
    + intros k. rewrite map_get_insert, Hdups, elem_of_app, list_elem_of_singleton.
      tauto.
    + apply NoDup_app. split; [exact HN|]. split; [|apply NoDup_singleton].
      intros x Hx Hx'. apply list_elem_of_singleton in Hx'. subst x. contradiction.
    + intros p bk' Hp. destruct (decide (p = Z.to_nat oh)) as [->|Hne].
      * rewrite list_lookup_insert_eq in Hp
          by (eapply lookup_lt_Some; exact Hbk).
        injection Hp as <-. unfold part_ok. simpl.
        split; [rewrite !length_app; simpl; lia|]. split; [intros _; lia|].
        intros k. rewrite !elem_of_app, !list_elem_of_singleton, Hkeys.
        split; [|tauto]. intros [?| ->]; [tauto|]. split; [auto|]. unfold oh. lia.
      * rewrite list_lookup_insert_ne in Hp by done.
        destruct (Hpart _ _ Hp) as (Hl' & Hidx' & Hkeys').
        split; [exact Hl'|]. split; [exact Hidx'|].
        intros k. rewrite Hkeys', elem_of_app, list_elem_of_singleton.
        split; [tauto|]. intros [[?| ->] Hoh]; [tauto|]. exfalso. apply Hne.
        fold oh in Hoh. lia.
    + rewrite (bind_insert_Permutation _ _ _ bk _ [(key, value)] Hbk).
      * rewrite Hperm. reflexivity.
      * unfold bucket_pairs. simpl. rewrite zip_with_app by exact Hl. reflexivity.
Qed.

(** ** [Build] *)

Lemma bucket_count_pos (n : Z) : 0 <= n -> 0 < bucket_count n.
Proof.
  intros Hn. unfold bucket_count. destruct (decide (n / 2 = 0)); [lia|].
  pose proof (Z.div_pos n 2 Hn). lia.
Qed.

Lemma bind_replicate_empty (k : nat) :
  replicate k {| bucket_index := 0; bucket_keys := []; bucket_values := [] |}
    ≫= bucket_pairs = [].
Proof. induction k as [|k IH]; [reflexivity|]. simpl replicate. rewrite bind_cons, IH. reflexivity. Qed.

Section BuildCorrect.

Variable rand_source : Z -> nat -> Z.
Variable sort_Sort : bucketVector -> bucketVector.
Hypothesis Sort_perm : forall b, sort_Sort b ≡ₚ b.

(** [r[0]], the value the hasher draws when it is created. *)
Lemma newCHDHasher_fields (n m seed : Z) (seeded : bool) (now : Z) :
  let h := newCHDHasher rand_source n m seed seeded now in
  h_r h = [uint64 (rand_source (if seeded then seed else now) O)] /\
  h_size h = n /\ h_buckets h = m.
Proof. destruct seeded; repeat split. Qed.

Lemma partition_spec (now : Z) (b : CHDBuilder) (bs : bucketVector) :
  length (b_keys b) = length (b_values b) ->
  partition rand_source now b = Ok bs ->
  let r0 := uint64 (rand_source (if b_seeded b then b_seed b else now) O) in
  let m := bucket_count (len (b_keys b)) in
  NoDup (b_keys b) /\
  length bs = Z.to_nat m /\
  (forall p bk, bs !! p = Some bk -> part_ok r0 m (b_keys b) p bk) /\
  bs ≫= bucket_pairs ≡ₚ zip (b_keys b) (b_values b).
Proof.
  intros Hlen H r0 m. unfold partition in H.
  destruct (newCHDHasher_fields (len (b_keys b)) m (b_seed b) (b_seeded b) now)
    as (Hr & _ & Hb).
  fold m in H.
  assert (Hm : 0 < m) by (apply bucket_count_pos; unfold len; lia).
  eapply (Build_buckets_spec _ r0 m _ _ _ _ _ []) in H; eauto.
  - apply length_replicate.
  - intros k. rewrite map_get_empty. simpl. rewrite elem_of_nil. split; [discriminate|tauto].
  - constructor.
  - intros p bk Hp. apply lookup_replicate in Hp as [-> _].
    unfold part_ok. simpl. split; [reflexivity|]. split; [congruence|].
    intros k. rewrite elem_of_nil. tauto.
  - rewrite bind_replicate_empty. reflexivity.
Qed.

Lemma Build_body_spec (now : Z) (b : CHDBuilder) (c : CHD) :
  length (b_keys b) = length (b_values b) ->
  Build_body rand_source sort_Sort now b = Ok c ->
  let n := len (b_keys b) in
  let m := bucket_count n in
  exists r0 placed h tb,
    Inv r0 n m placed h tb /\
    placed ≡ₚ zip (b_keys b) (b_values b) /\
    NoDup (b_keys b) /\
    c = {| chd_r := h_r h; chd_indices := t_indices tb;
           chd_keys := t_keys tb; chd_values := t_values tb |} /\
    (length (h_r h) <= 1 + Z.to_nat m)%nat.
Proof.
  intros Hlen H n m. unfold Build_body in H.
  inv_bind H as bs Hbs. inv_bind H as st Hst. destruct st as [h tb].
  injection H as <-.
  apply partition_spec in Hbs as (HN & Hbl & Hpart & Hperm); [|exact Hlen].
  fold n m in Hst, Hbl, Hpart.
  set (r0 := uint64 (rand_source (if b_seeded b then b_seed b else now) O)) in *.
  destruct (newCHDHasher_fields n m (b_seed b) (b_seeded b) now)
    as (Hr & Hs & Hb).
  fold r0 in Hr.
  assert (Hm : 0 < m) by (apply bucket_count_pos; unfold n, len; lia).
  assert (Hlens : Forall (fun bk => length (bucket_keys bk) = length (bucket_values bk))
                         (sort_Sort bs)).
  { apply Forall_forall. intros bk Hbk. rewrite Sort_perm in Hbk.
    apply list_elem_of_lookup in Hbk as [p Hp]. apply (Hpart _ _ Hp). }
  eapply (place_buckets_Inv _ r0 n m (b_keys b) _ _ _ []) in Hst.
  - destruct Hst as [HInv Hrl]. exists r0, (sort_Sort bs ≫= bucket_pairs), h, tb.
    split; [exact HInv|]. split; [rewrite Sort_perm; exact Hperm|].
    split; [exact HN|]. split; [reflexivity|].
    rewrite Hr, Sort_perm, Hbl in Hrl. simpl in Hrl. lia.
  - unfold Inv. cbn [t_seen t_keys t_values t_indices].
    split; [|split; [|split; [|split; [|split]]]].
    + rewrite Hr, Hs, Hb. auto.
    + unfold len. rewrite !length_replicate. unfold n, len. lia.
    + constructor.
    + intros s Hs'. rewrite map_get_empty in Hs'. discriminate.
    + exists []. split; [constructor|]. split; [reflexivity|].
      intros s. rewrite map_get_empty, elem_of_nil. split; [tauto|discriminate].
    + rewrite Hr. split; [|split].
      * constructor; [apply is_uint64_uint64|constructor].
      * apply Forall_replicate. unfold is_uint16, unassigned. lia.
      * intros i x Hx. apply lookup_replicate in Hx as [-> _]. auto.
  - apply Forall_forall. intros bk Hbk. rewrite Sort_perm in Hbk.
    apply list_elem_of_lookup in Hbk as [p Hp].
    destruct (Hpart _ _ Hp) as (Hl & Hidx & Hkeys).
    split; [exact Hl|]. intros Hne k. rewrite Hkeys, (Hidx Hne). tauto.
  - constructor.
  - simpl. rewrite <- bind_bucket_keys by exact Hlens.
    rewrite Sort_perm, Hperm, fst_zip by lia. exact HN.
Qed.

End BuildCorrect.

(** ** Lookups in a built table *)

Lemma index_lookup {A} (s : list A) (i : nat) (x : A) :
  s !! i = Some x -> index s (Z.of_nat i) = Ok x.
Proof. intros H. apply index_Ok. rewrite Nat2Z.id. split; [lia|exact H]. Qed.

Lemma index_lookup_Z {A} (s : list A) (i : Z) (x : A) :
  0 <= i -> s !! Z.to_nat i = Some x -> index s i = Ok x.
Proof. intros. apply index_Ok. auto. Qed.

Lemma umod_nonzero (a b : Z) : b <> 0 -> umod a b = Ok (a mod b).
Proof. intros. apply umod_Ok. auto. Qed.

Lemma table_hash_range (r0 n r k : Z) : 0 < n -> 0 <= table_hash r0 n r k < n.
Proof. intros. unfold table_hash. apply Z.mod_pos_bound. lia. Qed.

Lemma uint16_small (z : Z) : 0 <= z < 2 ^ 16 -> uint16 z = z.
Proof. intros. unfold uint16. apply Z.mod_small. lia. Qed.

(** Every slot below the table size is taken once all pairs are placed. *)
Lemma full_slots (slots : list Z) (n s : Z) :
  NoDup slots -> length slots = Z.to_nat n ->
  (forall x, x ∈ slots -> 0 <= x < n) ->
  0 <= s < n -> s ∈ slots.
Proof.
  intros HN Hlen Hrange Hs.
  set (all := Z.of_nat <$> seq 0 (Z.to_nat n)).
  assert (Hsub : slots ⊆+ all).
  { apply NoDup_submseteq; [exact HN|]. intros x Hx.
    apply list_elem_of_fmap. exists (Z.to_nat x).
    specialize (Hrange _ Hx). split; [lia|]. apply elem_of_seq. lia. }
  apply submseteq_length_Permutation in Hsub.
  - rewrite Hsub. apply list_elem_of_fmap. exists (Z.to_nat s).
    split; [lia|]. apply elem_of_seq. lia.
  - unfold all. rewrite length_fmap, length_seq. lia.
Qed.

Lemma Inv_slot (r0 n m : Z) (placed : list (Z * Z)) (h : chdHasher) (tb : table)
    (s : Z) :
  Inv r0 n m placed h tb -> length placed = Z.to_nat n -> 0 <= s < n ->
  exists kv, kv ∈ placed /\
             t_keys tb !! Z.to_nat s = Some kv.1 /\
             t_values tb !! Z.to_nat s = Some kv.2.
Proof.
  intros (_ & _ & _ & Hseen & (slots & HN & Hl & Hslots) & _) Hlen Hs.
  apply Hseen, Hslots. apply (full_slots slots n); auto; [congruence|].
  intros x Hx. apply Hslots in Hx. apply Hseen in Hx. tauto.
Qed.


(** A lookup that does not answer [MaxUint64] went through steps 1 to 5
    of the lookup and read a slot holding its key. *)
Lemma Get_found (c : CHD) (key v : Z) :
  Get c key = Ok v -> v <> MaxUint64 ->
  exists r0 ri r ti,
    chd_r c !! 0%nat = Some r0 /\
    chd_indices c !! Z.to_nat (outer_hash r0 (len (chd_indices c)) key)
      = Some ri /\
    0 <= ri < uint16 (len (chd_r c)) /\
    chd_r c !! Z.to_nat ri = Some r /\
    ti = table_hash r0 (len (chd_keys c)) r key /\
    0 <= ti < len (chd_keys c) /\
    chd_keys c !! Z.to_nat ti = Some key /\
    chd_values c !! Z.to_nat ti = Some v.
Proof.
  unfold Get. intros H Hv.
  inv_bind H as r0 Hr0. inv_bind H as i Hi. inv_bind H as ri Hri.
  destruct (decide (uint16 (len (chd_r c)) <= ri)); [congruence|].
  inv_bind H as r Hr. inv_bind H as ti Hti. inv_bind H as k Hk.
  destruct (decide (k <> key)) as [|Heq]; [congruence|].
  inv_bind H as v' Hv'. injection H as ->.
  assert (k = key) by (destruct (decide (k = key)); tauto). subst k.
  apply index_Ok in Hr0 as [_ Hr0]. apply umod_Ok in Hi as [_ ->].
  apply index_Ok in Hri as [_ Hri]. apply index_Ok in Hr as [Hri0 Hr].
  apply umod_Ok in Hti as [Hn ->].
  apply index_Ok in Hk as [_ Hk]. apply index_Ok in Hv' as [_ Hv'].
  exists r0, ri, r, (table_hash r0 (len (chd_keys c)) r key).
  repeat split; auto; try lia;
    apply Z.mod_pos_bound; unfold len in *; lia.
Qed.

Lemma Inv_Get_added (r0 n m : Z) (placed : list (Z * Z)) (h : chdHasher)
    (tb : table) (key v : Z) :
  Inv r0 n m placed h tb -> length placed = Z.to_nat n ->
  Get (chd_of h tb) key = Ok v -> v <> MaxUint64 ->
  (key, v) ∈ placed.
Proof.
  intros HInv Hlen HGet Hv.
  destruct (Get_found _ _ _ HGet Hv) as (_ & _ & _ & ti & _ & _ & _ & _ & _ & Hti & Hk & Hv').
  cbn [chd_of chd_keys chd_values] in *.
  pose proof HInv as (_ & (Lk & _) & _).
  rewrite Lk in Hti.
  destruct (Inv_slot _ _ _ _ _ _ ti HInv Hlen Hti) as ([k' v'] & Hin & Hk' & Hv'').
  simpl in *. congruence.
Qed.

(** ** Sorting the buckets *)

Lemma insert_swap_head {A} (l : list A) (j : nat) (a y : A) :
  l !! j = Some y -> y :: <[j := a]> l ≡ₚ a :: l.
Proof.
  revert j. induction l as [|b l IH]; intros j Hj.
  - rewrite lookup_nil in Hj. discriminate.
  - destruct j as [|j]; simpl in Hj.
    + injection Hj as ->. apply perm_swap.
    + change (<[S j := a]> (b :: l)) with (b :: <[j := a]> l).
      rewrite (perm_swap b y), (IH _ Hj). apply perm_swap.
Qed.

Lemma insert_swap_Permutation {A} (l : list A) (i j : nat) (x y : A) :
  l !! i = Some x -> l !! j = Some y -> <[i := y]> (<[j := x]> l) ≡ₚ l.
Proof.
  revert i j. induction l as [|a l IH]; intros i j Hi Hj.
  - rewrite lookup_nil in Hi. discriminate.
  - destruct i as [|i], j as [|j]; simpl in Hi, Hj.
    + injection Hi as ->. injection Hj as ->. reflexivity.
    + injection Hi as ->.
      change (<[0%nat := y]> (<[S j := x]> (x :: l))) with (y :: <[j := x]> l).
      apply insert_swap_head. exact Hj.
    + injection Hj as ->.
      change (<[S i := y]> (<[0%nat := x]> (y :: l))) with (x :: <[i := y]> l).
      apply insert_swap_head. exact Hi.
    + change (<[S i := y]> (<[S j := x]> (a :: l)))
        with (a :: <[i := y]> (<[j := x]> l)).
      rewrite (IH _ _ Hi Hj). reflexivity.
Qed.

Lemma bv_Swap_Permutation (b : bucketVector) (i j : nat) : bv_Swap b i j ≡ₚ b.
Proof.
  unfold bv_Swap. destruct (b !! i) as [x|] eqn:Hi; [|reflexivity].
  destruct (b !! j) as [y|] eqn:Hj; [|reflexivity].
  apply insert_swap_Permutation; assumption.
Qed.

Lemma insert_down_Permutation (a j : nat) :
  forall data, insert_down data a j ≡ₚ data.
Proof.
  induction j as [|j IH]; intros data; simpl; [reflexivity|].
  destruct (bool_decide (a < S j)%nat && bv_Less data (S j) j); [|reflexivity].
  rewrite IH. apply bv_Swap_Permutation.
Qed.

Lemma insertionSort_Permutation (data : bucketVector) (a b : nat) :
  insertionSort data a b ≡ₚ data.
Proof.
  unfold insertionSort. generalize (seq (a + 1) (b - (a + 1))). intros l.
  revert data. induction l as [|i l IH]; intros data; simpl; [reflexivity|].
  rewrite IH. apply insert_down_Permutation.
Qed.

Lemma shell_pass_Permutation (data : bucketVector) (a b : nat) :
  shell_pass data a b ≡ₚ data.
Proof.
  unfold shell_pass. generalize (seq (a + 6) (b - (a + 6))). intros l.
  revert data. induction l as [|i l IH]; intros data; simpl; [reflexivity|].
  rewrite IH. destruct (bv_Less data i (i - 6)); [|reflexivity].
  apply bv_Swap_Permutation.
Qed.

Lemma place_Permutation (x : bucket) (before : list bucket) :
  place x before ≡ₚ x :: before.
Proof.
  induction before as [|y before IH]; simpl; [reflexivity|].
  destruct (bucket_less x y).
  - rewrite IH, <- Permutation_cons_append. apply perm_swap.
  - rewrite <- Permutation_cons_append. apply perm_skip.
    rewrite reverse_Permutation. reflexivity.
Qed.

Lemma bucket_less_false (x y : bucket) :
  bucket_less y x = false <->
  (length (bucket_keys y) <= length (bucket_keys x))%nat.
Proof.
  unfold bucket_less, len. rewrite bool_decide_eq_false. lia.
Qed.

Lemma place_sorted (x : bucket) (before : list bucket) :
  StronglySorted (fun x y => bucket_less y x = false) (reverse before) ->
  StronglySorted (fun x y => bucket_less y x = false) (place x before).
Proof.
  induction before as [|y before IH]; intros Hs; simpl.
  - repeat constructor.
  - rewrite reverse_cons in Hs.
    apply StronglySorted_app in Hs as (Hle & Hs & _).
    destruct (bucket_less x y) eqn:Hxy.
    + apply StronglySorted_app_2; [|auto|repeat constructor].
      intros z y' Hz Hy'. apply list_elem_of_singleton in Hy'. subst y'.
      rewrite place_Permutation in Hz. apply elem_of_cons in Hz as [->|Hz].
      * apply bucket_less_false. unfold bucket_less in Hxy.
        apply bool_decide_eq_true in Hxy. unfold len in Hxy. lia.
      * apply Hle; [|apply list_elem_of_singleton; reflexivity].
        apply elem_of_reverse. exact Hz.
    + rewrite reverse_cons.
      apply StronglySorted_app_2; [| |repeat constructor].
      * intros z x' Hz Hx'. apply list_elem_of_singleton in Hx'. subst x'.
        apply bucket_less_false. apply bucket_less_false in Hxy.
        apply elem_of_app in Hz as [Hz|Hz].
        -- specialize (Hle z y Hz ltac:(apply list_elem_of_singleton; reflexivity)).
           apply bucket_less_false in Hle. lia.
        -- apply list_elem_of_singleton in Hz. subst z. exact Hxy.
      * apply StronglySorted_app_2; [exact Hle|exact Hs|repeat constructor].
Qed.

Lemma insert_down_place (x : bucket) (before suf : list bucket) :
  insert_down (reverse before ++ x :: suf) 0 (length before)
  = place x before ++ suf.
Proof.
  revert suf. induction before as [|y before IH]; intros suf; [reflexivity|].
  cbn [length insert_down place].
  rewrite bool_decide_eq_true_2 by lia. cbn [andb].
  rewrite reverse_cons, <- app_assoc. cbn [app].
  assert (Hj : (reverse before ++ y :: x :: suf) !! S (length before) = Some x).
  { rewrite lookup_app_r by (rewrite length_reverse; lia).
    rewrite length_reverse. replace (S (length before) - length before)%nat with 1%nat by lia.
    reflexivity. }
  assert (Hj' : (reverse before ++ y :: x :: suf) !! length before = Some y).
  { apply list_lookup_middle. symmetry. apply length_reverse. }
  unfold bv_Less, bv_Swap. rewrite Hj, Hj'.
  destruct (bucket_less x y).
  - replace (<[S (length before) := y]>
               (<[length before := x]> (reverse before ++ y :: x :: suf)))
      with (reverse before ++ x :: y :: suf).
    + rewrite IH, <- app_assoc. reflexivity.
    + rewrite <- (length_reverse before).
      rewrite insert_app_r_alt by lia. rewrite Nat.sub_diag. cbn [insert list_insert].
      rewrite insert_app_r_alt by lia.
      replace (S (length (reverse before)) - length (reverse before))%nat
        with 1%nat by lia.
      reflexivity.
  - rewrite <- !app_assoc. reflexivity.
Qed.

Lemma insertion_steps (suf : list bucket) :
  forall pre : list bucket,
  StronglySorted (fun x y => bucket_less y x = false) pre ->
  StronglySorted (fun x y => bucket_less y x = false)
    (fold_left (fun d i => insert_down d 0 i)
               (seq (length pre) (length suf)) (pre ++ suf)).
Proof.
  induction suf as [|x suf IH]; intros pre Hs; simpl.
  - rewrite app_nil_r. exact Hs.
  - replace (insert_down (pre ++ x :: suf) 0 (length pre))
      with (place x (reverse pre) ++ suf)
      by (rewrite <- insert_down_place, reverse_involutive, length_reverse;
          reflexivity).
    assert (Hl : S (length pre) = length (place x (reverse pre))).
    { rewrite (place_Permutation x (reverse pre)). simpl.
      rewrite length_reverse. reflexivity. }
    rewrite Hl. apply IH. apply place_sorted.
    rewrite reverse_involutive. exact Hs.
Qed.

Lemma insertionSort_sorted (data : bucketVector) :
  StronglySorted (fun x y => bucket_less y x = false)
    (insertionSort data 0 (length data)).
Proof.
  unfold insertionSort. destruct data as [|x data]; [constructor|].
  cbn [length Nat.add]. replace (S (length data) - 1)%nat with (length data) by lia.
  apply (insertion_steps data [x]). repeat constructor.
Qed.

Lemma Sort_short_sorts : sorts Sort_short.
Proof.
  split; intros b; unfold Sort_short, bv_Len.
  - rewrite insertionSort_Permutation. apply shell_pass_Permutation.
  - pose proof (Permutation_length (shell_pass_Permutation b 0 (length b))) as E.
    set (d := shell_pass b 0 (length b)) in *. rewrite <- E.
    apply insertionSort_sorted.
Qed.

(** ** Builders *)

Lemma fold_calls (calls : list call) :
  forall b : CHDBuilder,
  let b' := fold_left apply_call calls b in
  b_keys b' = b_keys b ++ (added calls).*1 /\
  b_values b' = b_values b ++ (added calls).*2 /\
  b_seeded b' = match seeded_with calls with
                | Some _ => true
                | None => b_seeded b
                end /\
  b_seed b' = default (b_seed b) (seeded_with calls).
Proof.
  induction calls as [|[seed|key value] calls IH]; intros b; simpl.
  - rewrite !app_nil_r. auto.
  - destruct (IH (Seed seed b)) as (-> & -> & -> & ->). simpl.
    destruct (seeded_with calls); auto.
  - destruct (IH (Add key value b)) as (-> & -> & -> & ->). simpl.
    rewrite <- !app_assoc. auto.
Qed.

Lemma run_keys (calls : list call) : b_keys (run calls) = (added calls).*1.
Proof. apply (fold_calls calls Builder). Qed.

Lemma run_values (calls : list call) : b_values (run calls) = (added calls).*2.
Proof. apply (fold_calls calls Builder). Qed.

Lemma run_lengths (calls : list call) :
  length (b_keys (run calls)) = length (b_values (run calls)).
Proof. rewrite run_keys, run_values, !length_fmap. reflexivity. Qed.

Lemma run_pairs (calls : list call) :
  zip (b_keys (run calls)) (b_values (run calls)) = added calls.
Proof. rewrite run_keys, run_values. apply zip_fst_snd. Qed.

Lemma Build_Ok_body (rand_source : Z -> nat -> Z)
    (sort_Sort : bucketVector -> bucketVector) (now : Z) (b : CHDBuilder) (c : CHD)
    (e : option error) :
  Build rand_source sort_Sort now b = Ok (Some c, e) ->
  Build_body rand_source sort_Sort now b = Ok c /\ e = None.
Proof.
  unfold Build. destruct (Build_body rand_source sort_Sort now b);
    intros H; inversion H; auto.
Qed.

Lemma uint16_le (z : Z) : 0 <= z -> 0 <= uint16 z <= z.
Proof.
  intros. unfold uint16. split; [apply Z.mod_pos_bound; lia|].
  apply Z.mod_le; lia.
Qed.

Lemma Inv_Get_total (r0 n m : Z) (placed : list (Z * Z)) (h : chdHasher)
    (tb : table) (key : Z) :
  Inv r0 n m placed h tb -> length placed = Z.to_nat n ->
  exists v, Get (chd_of h tb) key = Ok v.
Proof.
  intros ((Hsz & Hbk & Hm & Hr0) & (Lk & Lv & Li) & _ & _ & _ &
          (_ & Hu16 & Hun)) Hlen.
  unfold Get, chd_of. cbn [chd_r chd_indices chd_keys chd_values].
  rewrite (index_lookup_Z _ 0 r0) by (auto; lia). cbn [bind].
  rewrite Li, umod_nonzero by lia. cbn [bind]. fold (outer_hash r0 m key).
  pose proof (outer_hash_range r0 m key Hm) as Hi.
  destruct (lookup_lt_is_Some_2 (t_indices tb) (Z.to_nat (outer_hash r0 m key)))
    as [ri Hri]; [unfold len in Li; lia|].
  rewrite (index_lookup_Z _ _ _ (proj1 Hi) Hri). cbn [bind].
  destruct (decide (uint16 (len (h_r h)) <= ri)) as [|Hlt]; [eauto|].
  pose proof (Forall_lookup_1 _ _ _ _ Hu16 Hri) as Hri16.
  pose proof (uint16_le (len (h_r h)) ltac:(unfold len; lia)) as Hle.
  destruct (lookup_lt_is_Some_2 (h_r h) (Z.to_nat ri)) as [r Hr];
    [unfold len in *; unfold is_uint16 in Hri16; lia|].
  rewrite (index_lookup_Z _ _ _ (proj1 Hri16) Hr). cbn [bind].
  assert (Hn : 0 < n).
  { destruct (Hun _ _ Hri) as [->|Hne].
    - exfalso. apply Hlt. pose proof (is_uint16_uint16 (len (h_r h))) as Hb.
      unfold is_uint16, unassigned in *. lia.
    - destruct placed; [contradiction|]. simpl in Hlen. lia. }
  rewrite Lk, umod_nonzero by lia. cbn [bind]. fold (table_hash r0 n r key).
  pose proof (table_hash_range r0 n r key Hn) as Hti.
  destruct (lookup_lt_is_Some_2 (t_keys tb) (Z.to_nat (table_hash r0 n r key)))
    as [k Hk]; [unfold len in Lk; lia|].
  destruct (lookup_lt_is_Some_2 (t_values tb) (Z.to_nat (table_hash r0 n r key)))
    as [v Hv]; [unfold len in Lv; lia|].
  rewrite (index_lookup_Z _ _ _ (proj1 Hti) Hk). cbn [bind].
  destruct (decide (k <> key)); [eauto|].
  rewrite (index_lookup_Z _ _ _ (proj1 Hti) Hv). cbn [bind]. eauto.
Qed.

(** What a successful [Build] establishes, for builders used through
    [Builder], [Seed] and [Add]. *)
Lemma Build_Inv (rand_source : Z -> nat -> Z)
    (sort_Sort : bucketVector -> bucketVector) (now : Z) (calls : list call) (c : CHD) :
  (forall b, sort_Sort b ≡ₚ b) ->
  Build rand_source sort_Sort now (run calls) = Ok (Some c, None) ->
  exists r0 placed h tb,
    Inv r0 (len (added calls)) (bucket_count (len (added calls))) placed h tb /\
    placed ≡ₚ added calls /\ NoDup (added calls).*1 /\ c = chd_of h tb /\
    len (chd_r c) <= 1 + bucket_count (len (added calls)).
Proof.
  intros Hperm H. apply Build_Ok_body in H as [H _].
  apply Build_body_spec in H; [|exact Hperm|apply run_lengths].
  rewrite run_pairs, run_keys in H. unfold len in H. rewrite length_fmap in H.
  destruct H as (r0 & placed & h & tb & HInv & Hp & HN & -> & Hl).
  exists r0, placed, h, tb. unfold len.
  split; [exact HInv|]. split; [exact Hp|]. split; [exact HN|].
  split; [reflexivity|]. cbn [chd_r].
  pose proof (bucket_count_pos (Z.of_nat (length (added calls))) ltac:(lia)).
  lia.
Qed.


(** With fewer than 131070 pairs there are always fewer than 2^16 hash
    functions. *)
Lemma Build_few_functions (rand_source : Z -> nat -> Z)
    (sort_Sort : bucketVector -> bucketVector) (now : Z) (calls : list call)
    (c : CHD) :
  (forall b, sort_Sort b ≡ₚ b) ->
  Build rand_source sort_Sort now (run calls) = Ok (Some c, None) ->
  len (added calls) < 131070 ->
  len (chd_r c) < 2 ^ 16.
Proof.
  intros Hperm H Hn.
  destruct (Build_Inv _ _ _ _ _ Hperm H) as (_ & _ & _ & _ & _ & _ & _ & _ & Hl).
  unfold bucket_count in Hl.
  destruct (decide (len (added calls) / 2 = 0)) as [E|E]; [lia|].
  assert (len (added calls) / 2 < 65535); [|lia].
  apply Z.div_lt_upper_bound; lia.
Qed.

(** ** Hash functions past the range of [uint16] *)

Lemma Inv_init (rand_source : Z -> nat -> Z) (n m seed : Z) (seeded : bool)
    (now : Z) :
  0 <= n -> 0 < m ->
  Inv (uint64 (rand_source (if seeded then seed else now) O)) n m []
      (newCHDHasher rand_source n m seed seeded now)
      {| t_seen := ∅; t_keys := replicate (Z.to_nat n) 0;
         t_values := replicate (Z.to_nat n) 0;
         t_indices := replicate (Z.to_nat m) unassigned |}.
Proof.
  intros Hn Hm.
  destruct (newCHDHasher_fields rand_source n m seed seeded now) as (Hr & Hs & Hb).
  unfold Inv. cbn [t_seen t_keys t_values t_indices].
  split; [|split; [|split; [|split; [|split]]]].
  - rewrite Hr, Hs, Hb. auto.
  - unfold len. rewrite !length_replicate. lia.
  - constructor.
  - intros s Hs'. rewrite map_get_empty in Hs'. discriminate.
  - exists []. split; [constructor|]. split; [reflexivity|].
    intros s. rewrite map_get_empty, elem_of_nil. split; [tauto|discriminate].
  - rewrite Hr. split; [|split].
    + constructor; [apply is_uint64_uint64|constructor].
    + apply Forall_replicate. unfold is_uint16, unassigned. lia.
    + intros i x Hx. apply lookup_replicate in Hx as [-> _]. auto.
Qed.









(** C3. After a successful [Build], [Get] answers for every key, and an
    answer other than [MaxUint64] was read from a slot whose entry in the
    keys array is exactly the key asked for, so it is the value added with
    that key: a key that was never added gets [MaxUint64]. *)
Theorem Build_Get_only_added (rand_source : Z -> nat -> Z)
    (sort_Sort : bucketVector -> bucketVector) (now : Z)
    (calls : list call) (c : CHD) (key : Z) :
  (forall b, sort_Sort b ≡ₚ b) ->
  Build rand_source sort_Sort now (run calls) = Ok (Some c, None) ->
  exists v,
    Get c key = Ok v /\
    (v <> MaxUint64 ->
     (exists r0 ri r ti,
        chd_r c !! 0%nat = Some r0 /\
        chd_indices c !! Z.to_nat (outer_hash r0 (len (chd_indices c)) key)
          = Some ri /\
        0 <= ri < uint16 (len (chd_r c)) /\
        chd_r c !! Z.to_nat ri = Some r /\
        ti = table_hash r0 (len (chd_keys c)) r key /\
        0 <= ti < len (chd_keys c) /\
        chd_keys c !! Z.to_nat ti = Some key /\
        chd_values c !! Z.to_nat ti = Some v) /\
     (key, v) ∈ added calls) /\
    (key ∉ (added calls).*1 -> v = MaxUint64).
Proof.
  intros Hperm H.
  destruct (Build_Inv _ _ _ _ _ Hperm H)
    as (r0 & placed & h & tb & HInv & Hp & _ & -> & _).
  assert (Hlen : length placed = Z.to_nat (len (added calls))).
  { rewrite Hp. unfold len. lia. }
  destruct (Inv_Get_total _ _ _ _ _ _ key HInv Hlen) as [v HGet].
  assert (Hadded : v <> MaxUint64 -> (key, v) ∈ added calls).
  { intros Hv. rewrite <- Hp. eapply Inv_Get_added; eauto. }
  exists v. split; [exact HGet|]. split.
  - intros Hv. split; [|auto]. apply Get_found; assumption.
  - intros Hnot. destruct (decide (v = MaxUint64)) as [|Hv]; [assumption|].
    exfalso. apply Hnot. apply (list_elem_of_fmap_2 fst _ _ (Hadded Hv)).
Qed.

Lemma Build_Get_only_added_witness :
  Build example_source Sort_short 0 (run sample_calls) = Ok (Some sample_chd, None) /\
  Get sample_chd 5 = Ok MaxUint64.
Proof.
  assert (H : Build example_source Sort_short 0 (run sample_calls)
              = Ok (Some sample_chd, None)) by (vm_compute; reflexivity).
  split; [exact H|].
  destruct (Build_Get_only_added example_source Sort_short 0 sample_calls
              sample_chd 5 (proj1 Sort_short_sorts) H) as (v & HGet & _ & Hnot).
  rewrite HGet. f_equal. apply Hnot.
  vm_compute. intros Hin. repeat (inversion Hin as [|? ? ? Hin']; clear Hin; rename Hin' into Hin).
Defined.

(** ** Duplicate keys *)

Lemma first_repeat (l : list Z) :
  ~ NoDup l ->
  exists l1 k l2 l3, l = l1 ++ k :: l2 ++ k :: l3 /\ NoDup (l1 ++ k :: l2).
Proof.
  induction l as [|x l IH] using rev_ind; intros Hnd.
  - exfalso. apply Hnd. constructor.
  - destruct (decide (NoDup l)) as [Hl|Hl].
    + assert (Hx : x ∈ l).
      { destruct (decide (x ∈ l)) as [|Hx]; [assumption|].
        exfalso. apply Hnd. apply NoDup_app. split; [exact Hl|].
        split; [|apply NoDup_singleton].
        intros y Hy Hy'. apply list_elem_of_singleton in Hy'. subst y. contradiction. }
      apply list_elem_of_split in Hx as (l1 & l2 & ->).
      exists l1, x, l2, []. split; [|exact Hl].
      repeat (rewrite <- app_assoc || rewrite <- app_comm_cons). reflexivity.
    + destruct (IH Hl) as (l1 & k & l2 & l3 & -> & HN).
      exists l1, k, l2, (l3 ++ [x]). split; [|exact HN].
      repeat (rewrite <- app_assoc || rewrite <- app_comm_cons). reflexivity.
Qed.

Lemma Build_buckets_dup (h : chdHasher) (r0 m : Z) (pre : list Z) :
  forall (k : Z) (rest vs : list Z) (dups : gmap Z bool) (bs : bucketVector)
         (seen : list Z),
  h_r h !! 0%nat = Some r0 -> h_buckets h = m -> 0 < m ->
  length bs = Z.to_nat m ->
  (forall x, map_get dups x = true <-> x ∈ seen) ->
  NoDup (seen ++ pre) -> k ∈ seen ++ pre ->
  length (pre ++ k :: rest) = length vs ->
  Build_buckets h (pre ++ k :: rest) vs dups bs = Err (ErrDuplicateKey k).
Proof.
  induction pre as [|a pre IH];
    intros k rest vs dups bs seen Hr0 Hm Hpos Hlen Hdups HN Hk Hvs;
    (destruct vs as [|v vs]; [discriminate|]); simpl.
  - rewrite app_nil_r in Hk. apply Hdups in Hk. rewrite Hk. reflexivity.
  - assert (Ha : map_get dups a = false).
    { destruct (map_get dups a) eqn:E; [|reflexivity].
      apply Hdups in E. apply NoDup_app in HN as (_ & HN & _).
      exfalso. apply (HN _ E). left. }
    rewrite Ha.
    assert (Hoh : HashIndexFromKey h a = Ok (outer_hash r0 m a)).
    { apply HashIndexFromKey_Ok. exists r0. rewrite Hm. split; [auto|].
      split; [lia|reflexivity]. }
    rewrite Hoh. cbn [bind].
    pose proof (outer_hash_range r0 m a Hpos) as Hrange.
    destruct (lookup_lt_is_Some_2 bs (Z.to_nat (outer_hash r0 m a)))
      as [bk Hbk]; [lia|].
    rewrite (index_lookup_Z _ _ _ (proj1 Hrange) Hbk). cbn [bind].
    unfold store. destruct (decide (0 <= outer_hash r0 m a < len bs)) as [_|Hno];
      [|unfold len in Hno; lia].
    cbn [bind]. apply (IH k rest vs _ _ (seen ++ [a])); auto.
    + rewrite length_insert. exact Hlen.
    + intros x. rewrite map_get_insert, Hdups, elem_of_app, list_elem_of_singleton.
      tauto.
    + rewrite <- app_assoc. exact HN.
    + rewrite <- app_assoc. exact Hk.
Qed.

(** C4. When the same key is added twice, with any values, [Build] returns
    no structure and the duplicate-key error naming a key that was added
    twice: the first key whose second [Add] is reached.  It is the
    repeated key whenever the other keys are distinct. *)
Theorem Build_duplicate_key (rand_source : Z -> nat -> Z)
    (sort_Sort : bucketVector -> bucketVector) (now : Z) (calls : list call)
    (i j : nat) (k0 v1 v2 : Z) :
  (i < j)%nat ->
  added calls !! i = Some (k0, v1) ->
  added calls !! j = Some (k0, v2) ->
  exists k,
    Build rand_source sort_Sort now (run calls)
      = Ok (None, Some (ErrDuplicateKey k)) /\
    (exists l1 l2 l3, (added calls).*1 = l1 ++ k :: l2 ++ k :: l3 /\
                      NoDup (l1 ++ k :: l2)) /\
    (NoDup (filter (fun x => x <> k0) (added calls).*1) -> k = k0).
Proof.
  intros Hij Hi Hj.
  assert (Hnd : ~ NoDup (added calls).*1).
  { intros HN. rewrite NoDup_alt in HN.
    assert (i = j); [|lia].
    apply (HN i j k0); rewrite list_lookup_fmap; [rewrite Hi|rewrite Hj]; reflexivity. }
  destruct (first_repeat _ Hnd) as (l1 & k & l2 & l3 & E & HN).
  exists k. split; [|split; [eauto|]].
  - unfold Build, Build_body, partition.
    set (n := len (b_keys (run calls))).
    destruct (newCHDHasher_fields rand_source n (bucket_count n)
                (b_seed (run calls)) (b_seeded (run calls)) now)
      as (Hr & _ & Hb).
    rewrite run_keys, E.
    replace (l1 ++ k :: l2 ++ k :: l3) with ((l1 ++ k :: l2) ++ k :: l3)
      by (rewrite <- app_assoc; reflexivity).
    erewrite (Build_buckets_dup _ _ (bucket_count n) _ _ _ _ _ _ []); eauto.
    + apply bucket_count_pos. unfold n, len. lia.
    + apply length_replicate.
    + intros x. rewrite map_get_empty, elem_of_nil. split; [discriminate|tauto].
    + simpl. apply elem_of_app. right. left.
    + rewrite run_values, length_fmap, <- (length_fmap fst), E, <- app_assoc.
      reflexivity.
  - intros HF. destruct (decide (k = k0)) as [|Hne]; [assumption|].
    exfalso. rewrite E in HF.
    rewrite !filter_app, !filter_cons in HF.
    destruct (decide (k <> k0)); [|contradiction].
    rewrite filter_app, filter_cons in HF.
    destruct (decide (k <> k0)); [|contradiction].
    apply NoDup_app in HF as (_ & _ & HF). apply NoDup_cons in HF as [HF _].
    apply HF. apply elem_of_app. right. left.
Qed.

Lemma Build_duplicate_key_witness :
  Build example_source Sort_short 0
    (run [CallAdd 13 37; CallAdd 14 1; CallAdd 13 2])
  = Ok (None, Some (ErrDuplicateKey 13)).
Proof.
  destruct (Build_duplicate_key example_source Sort_short 0
              [CallAdd 13 37; CallAdd 14 1; CallAdd 13 2] 0 2 13 37 2)
    as (k & HB & _ & Hk); [lia|reflexivity|reflexivity|].
  rewrite HB. rewrite Hk; [reflexivity|].
  vm_compute. repeat constructor. intros H. inversion H.
Defined.

(** ** Seeded builds *)

Lemma Build_body_seeded (rand_source : Z -> nat -> Z)
    (sort_Sort : bucketVector -> bucketVector) (now1 now2 : Z) (b : CHDBuilder) :
  b_seeded b = true ->
  Build_body rand_source sort_Sort now1 b = Build_body rand_source sort_Sort now2 b.
Proof.
  intros Hs. unfold Build_body, partition, newCHDHasher. rewrite Hs. reflexivity.
Qed.

Lemma run_seeded (calls1 calls2 : list call) (seed : Z) :
  seeded_with calls1 = Some seed -> seeded_with calls2 = Some seed ->
  added calls1 = added calls2 ->
  run calls1 = run calls2 /\ b_seeded (run calls1) = true.
Proof.
  intros H1 H2 Ha.
  destruct (fold_calls calls1 Builder) as (K1 & V1 & S1 & D1).
  destruct (fold_calls calls2 Builder) as (K2 & V2 & S2 & D2).
  fold (run calls1) in K1, V1, S1, D1. fold (run calls2) in K2, V2, S2, D2.
  rewrite H1 in S1, D1. rewrite H2 in S2, D2. rewrite <- Ha in K2, V2.
  split; [|exact S1].
  destruct (run calls1), (run calls2). simpl in *. congruence.
Qed.

(** C5. Two builders seeded with the same value and given the same pairs
    in the same order build the same result, whatever the clock reads, and
    the structures they build serialize to the same bytes. *)
Theorem Build_deterministic (rand_source : Z -> nat -> Z)
    (sort_Sort : bucketVector -> bucketVector) (now1 now2 seed : Z)
    (calls1 calls2 : list call) :
  seeded_with calls1 = Some seed ->
  seeded_with calls2 = Some seed ->
  added calls1 = added calls2 ->
  Build rand_source sort_Sort now1 (run calls1)
    = Build rand_source sort_Sort now2 (run calls2) /\
  forall c1 c2,
    Build rand_source sort_Sort now1 (run calls1) = Ok (Some c1, None) ->
    Build rand_source sort_Sort now2 (run calls2) = Ok (Some c2, None) ->
    forall buf : list byte, Write c1 buf = Write c2 buf.
Proof.
  intros H1 H2 Ha. destruct (run_seeded _ _ _ H1 H2 Ha) as [E Hs].
  assert (EB : Build rand_source sort_Sort now1 (run calls1)
               = Build rand_source sort_Sort now2 (run calls2)).
  { unfold Build. rewrite <- E, (Build_body_seeded _ _ now1 now2 _ Hs). reflexivity. }
  split; [exact EB|]. intros c1 c2 B1 B2 buf. rewrite EB, B2 in B1.
  injection B1 as ->. reflexivity.
Qed.

Lemma Build_deterministic_witness :
  Build example_source Sort_short 1 (run sample_calls)
  = Build example_source Sort_short 2
      (run (CallSeed 7 :: removelast sample_calls ++
            [CallSeed 42; CallAdd 85228549085877255 5674464906966263850])).
Proof.
  apply (Build_deterministic example_source Sort_short 1 2 42); reflexivity.
Defined.

(** ** The empty table *)

(** C9. [Build] with no pairs succeeds with one hash function, one
    unassigned bucket and empty key and value arrays; on that structure
    [Get] returns [MaxUint64] for every key and does not panic: it leaves
    at the unassigned check, before the reduction modulo [len(c.keys)],
    which is zero and would panic. *)
Theorem Build_empty_Get (rand_source : Z -> nat -> Z)
    (sort_Sort : bucketVector -> bucketVector) (now : Z) (calls : list call) :
  (forall b, sort_Sort b ≡ₚ b) ->
  added calls = [] ->
  exists r0 c,
    c = {| chd_r := [r0]; chd_indices := [unassigned];
           chd_keys := []; chd_values := [] |} /\
    Build rand_source sort_Sort now (run calls) = Ok (Some c, None) /\
    (forall key, Get c key = Ok MaxUint64) /\
    (forall x, umod x (len (chd_keys c)) = Panic).
Proof.
  intros Hperm Ha.
  pose proof (run_keys calls) as Hk. pose proof (run_values calls) as Hv.
  rewrite Ha in Hk, Hv. simpl in Hk, Hv.
  set (r0 := uint64 (rand_source (if b_seeded (run calls) then b_seed (run calls)
                                  else now) O)).
  exists r0, {| chd_r := [r0]; chd_indices := [unassigned];
                chd_keys := []; chd_values := [] |}.
  split; [reflexivity|]. split; [|split].
  - unfold Build, Build_body, partition. rewrite Hk, Hv.
    change (len (@nil Z)) with 0. change (bucket_count 0) with 1.
    change (Z.to_nat 1) with 1%nat. change (Z.to_nat 0) with 0%nat.
    cbn [Build_buckets replicate bind].
    rewrite (proj1 (Permutation_singleton_r _ _) (Hperm _)).
    cbn [place_buckets]. unfold place_bucket. cbn [bucket_keys].
    change (len (@nil Z)) with 0.
    destruct (decide (0 = 0)) as [_|Hne]; [|contradiction].
    cbn [bind]. unfold r0. destruct (b_seeded (run calls)); reflexivity.
  - intros key. unfold Get. cbn [chd_r chd_indices chd_keys chd_values].
    rewrite (index_lookup_Z [r0] 0 r0 ltac:(lia) eq_refl). cbn [bind].
    change (len [unassigned]) with 1. rewrite umod_nonzero by lia. cbn [bind].
    rewrite Z.mod_1_r.
    rewrite (index_lookup_Z [unassigned] 0 unassigned ltac:(lia) eq_refl).
    cbn [bind]. reflexivity.
  - intros x. reflexivity.
Qed.

Lemma Build_empty_Get_witness :
  Get {| chd_r := [uint64 (example_source 0 O)]; chd_indices := [unassigned];
         chd_keys := []; chd_values := [] |} 13 = Ok MaxUint64.
Proof.
  destruct (Build_empty_Get example_source Sort_short 0 []
              (proj1 Sort_short_sorts) eq_refl) as (r0 & c & -> & HB & HG & _).
  vm_compute in HB. injection HB as <-. apply HG.
Defined.

(** Every structure [Build] returns has a first hash function. *)
Lemma Build_r_nonempty (rand_source : Z -> nat -> Z)
    (sort_Sort : bucketVector -> bucketVector) (now : Z) (calls : list call)
    (c : CHD) :
  (forall b, sort_Sort b ≡ₚ b) ->
  Build rand_source sort_Sort now (run calls) = Ok (Some c, None) ->
  chd_r c <> [].
Proof.
  intros Hperm H.
  destruct (Build_Inv _ _ _ _ _ Hperm H)
    as (r0 & placed & h & tb & ((_ & _ & _ & Hr0) & _) & _ & _ & -> & _).
  simpl. intros E. rewrite E in Hr0. discriminate.
Qed.

(** ** The hash primitive, as documented *)

(** C7. [hasher] is FNV-1a over the 8 little-endian bytes of the key, and
    [Table] is [(digest(k) XOR r0 XOR r) mod n]: the random value enters by
    XOR only, before the reduction.  With [n = 0] the reduction panics. *)
Theorem hasher_Table_spec (key r0 r n m : Z) (rs : list Z) (g : Rand) :
  hasher key = digest key /\
  Table {| h_r := r0 :: rs; h_size := n; h_buckets := m; h_rand := g |} r key
    = (if decide (n = 0) then Panic else Ok (slot r0 n key r)) /\
  HashIndexFromKey
    {| h_r := r0 :: rs; h_size := n; h_buckets := m; h_rand := g |} key
    = (if decide (m = 0) then Panic else Ok (outer r0 m key)).
Proof.
  split; [apply hasher_digest|].
  unfold Table, HashIndexFromKey, slot, outer, umod. cbn [h_r h_size h_buckets].
  rewrite (index_lookup_Z (r0 :: rs) 0 r0 ltac:(lia) eq_refl). cbn [bind].
  rewrite hasher_digest. auto.
Qed.

(** ** Decoding arbitrary bytes *)

Lemma sr_read_no_Err (b : sliceReader) (size : Z) (e : error) :
  sr_read b size <> Err e.
Proof. unfold sr_read. destruct (decide _); discriminate. Qed.

Lemma ReadInt_no_Err (b : sliceReader) (e : error) : ReadInt b <> Err e.
Proof.
  unfold ReadInt. destruct (sr_read b 4) as [[? ?]| |] eqn:E; simpl;
    try discriminate. exfalso. exact (sr_read_no_Err _ _ _ E).
Qed.

Lemma ReadArray_no_Err (b : sliceReader) (n : Z) (e : error) :
  ReadUint64Array b n <> Err e /\ ReadUint16Array b n <> Err e.
Proof.
  unfold ReadUint64Array, ReadUint16Array. split.
  - destruct (sr_read b (uint64 (n * 8))) as [[? ?]| |] eqn:E; simpl;
      try discriminate. exfalso. exact (sr_read_no_Err _ _ _ E).
  - destruct (sr_read b (uint64 (n * 2))) as [[? ?]| |] eqn:E; simpl;
      try discriminate. exfalso. exact (sr_read_no_Err _ _ _ E).
Qed.

Lemma Mmap_outcome (b : list byte) :
  Mmap b = Panic \/ exists c, Mmap b = Ok (Some c, None).
Proof.
  unfold Mmap.
  repeat match goal with
  | |- context [bind ?m _] =>
      let E := fresh "E" in
      destruct m as [[? ?]|e|] eqn:E; cbn [bind];
      [ | exfalso; revert E; first [apply ReadInt_no_Err | apply ReadArray_no_Err]
        | left; reflexivity ]
  end.
  right. eauto.
Qed.

(** C10. [Mmap] has no error path: on every byte slice it either panics
    (a slice expression out of range) or returns a structure and a nil
    error. *)
Theorem Mmap_no_error (b : list byte) :
  Mmap b = Panic \/ exists c, Mmap b = Ok (Some c, None).
Proof. apply Mmap_outcome. Qed.

(** An error from [Read] is the reader's. *)
Lemma Read_error {R} `{Reader R} (r : R) (c : option CHD) (e : error) :
  Read r = Ok (c, Some e) -> (ReadAll r).2 = Some e /\ c = None.
Proof.
  unfold Read. destruct (ReadAll r) as [[b spare] [e'|]]; simpl.
  - intros E. injection E as <- <-. auto.
  - intros E. destruct (Mmap_outcome (b ++ spare)) as [E'|[c' E']];
      rewrite E' in E; discriminate.
Qed.

(** Truncated input makes [Mmap] panic; it is not reported as an error. *)
Lemma Mmap_truncated : Mmap [] = Panic /\ Mmap (le 4 1) = Panic.
Proof. split; reflexivity. Qed.

(** ** The file layout *)

Lemma len_app {A} (l k : list A) : len (l ++ k) = len l + len k.
Proof. unfold len. rewrite length_app. lia. Qed.

Lemma length_le (w : nat) (v : Z) : length (le w v) = w.
Proof. unfold le. rewrite length_map, length_seq. reflexivity. Qed.

Lemma len_flat_map_le (w : nat) (l : list Z) :
  len (flat_map (le w) l) = Z.of_nat w * len l.
Proof.
  unfold len. induction l as [|v l IH]; simpl; [lia|].
  rewrite length_app, length_le. lia.
Qed.

Lemma byte_of_eq_mod (x y : Z) : x mod 256 = y mod 256 -> byte_of x = byte_of y.
Proof. unfold byte_of. intros ->. reflexivity. Qed.

Lemma le_low_bytes (w : nat) (v : Z) : le w (v mod 2 ^ (8 * Z.of_nat w)) = le w v.
Proof.
  unfold le. apply map_ext_in. intros i Hi. apply in_seq in Hi.
  apply byte_of_eq_mod. change 256 with (2 ^ 8).
  rewrite <- !Z.pow_mul_r by lia.
  apply Z.bits_inj'. intros j Hj. destruct (Z.lt_ge_cases j 8).
  - rewrite !Z.mod_pow2_bits_low by lia.
    rewrite !Z.div_pow2_bits by lia.
    rewrite Z.mod_pow2_bits_low by lia. reflexivity.
  - rewrite !Z.mod_pow2_bits_high by lia. reflexivity.
Qed.

Lemma le_uint32 (v : Z) : le_encode 4 (uint32 v) = le 4 v.
Proof. rewrite le_encode_le. apply (le_low_bytes 4). Qed.

Lemma flat_map_le_encode (w : nat) (l : list Z) :
  flat_map (le_encode w) l = flat_map (le w) l.
Proof. apply flat_map_ext. intros. apply le_encode_le. Qed.

Lemma le_decode_le (w : nat) (v : Z) :
  0 <= v < 2 ^ (8 * Z.of_nat w) -> le_decode (le w v) = v.
Proof.
  intros Hv. rewrite <- le_encode_le, le_decode_encode. apply Z.mod_small. exact Hv.
Qed.

Lemma decode_array_le (w : nat) (l : list Z) :
  Forall (fun v => 0 <= v < 2 ^ (8 * Z.of_nat w)) l ->
  decode_array w (length l) (flat_map (le w) l) = l.
Proof.
  induction 1 as [|v l Hv _ IH]; [reflexivity|].
  cbn [length decode_array flat_map].
  rewrite take_app_length' by (rewrite length_le; reflexivity).
  rewrite drop_app_length' by (rewrite length_le; reflexivity).
  rewrite IH, le_decode_le by exact Hv. reflexivity.
Qed.

Lemma sr_read_at (pre x rest : list byte) :
  len pre + len x < 2 ^ 64 ->
  sr_read (reader_at pre (x ++ rest)) (len x) = Ok (x, reader_at (pre ++ x) rest).
Proof.
  intros Hb. unfold sr_read, reader_at. cbn [sr_b sr_pos].
  assert (E : uint64 (len pre + len x) = len pre + len x).
  { unfold uint64. apply Z.mod_small. unfold len in *. lia. }
  rewrite E.
  destruct (decide (len pre <= len pre + len x <= len (pre ++ x ++ rest)))
    as [_|Hno].
  - f_equal. f_equal.
    + replace (Z.to_nat (len pre + len x - len pre)) with (length x)
        by (unfold len; lia).
      replace (Z.to_nat (len pre)) with (length pre) by (unfold len; lia).
      rewrite drop_app_length, take_app_length. reflexivity.
    + rewrite len_app, app_assoc. reflexivity.
  - exfalso. apply Hno. rewrite !len_app. unfold len. lia.
Qed.

Lemma ReadInt_at (pre rest : list byte) (v : Z) :
  0 <= v < 2 ^ 32 -> len pre + 4 < 2 ^ 64 ->
  ReadInt (reader_at pre (le 4 v ++ rest))
  = Ok (v, reader_at (pre ++ le 4 v) rest).
Proof.
  intros Hv Hb. unfold ReadInt.
  replace 4 with (len (le 4 v)) at 1 by (unfold len; rewrite length_le; reflexivity).
  rewrite sr_read_at by (unfold len at 2; rewrite length_le; lia).
  cbn [bind]. rewrite (le_decode_le 4) by exact Hv. reflexivity.
Qed.

Lemma ReadUint64Array_at (pre rest : list byte) (l : list Z) :
  Forall is_uint64 l -> len pre + 8 * len l < 2 ^ 64 ->
  ReadUint64Array (reader_at pre (flat_map (le 8) l ++ rest)) (len l)
  = Ok (l, reader_at (pre ++ flat_map (le 8) l) rest).
Proof.
  intros Hl Hb. unfold ReadUint64Array.
  assert (E : uint64 (len l * 8) = len (flat_map (le 8) l)).
  { rewrite len_flat_map_le. unfold uint64. rewrite Z.mod_small; unfold len in *; lia. }
  rewrite E, sr_read_at by (rewrite len_flat_map_le; lia).
  cbn [bind]. unfold len. rewrite Nat2Z.id, (decode_array_le 8) by exact Hl.
  reflexivity.
Qed.

Lemma ReadUint16Array_at (pre rest : list byte) (l : list Z) :
  Forall is_uint16 l -> len pre + 2 * len l < 2 ^ 64 ->
  ReadUint16Array (reader_at pre (flat_map (le 2) l ++ rest)) (len l)
  = Ok (l, reader_at (pre ++ flat_map (le 2) l) rest).
Proof.
  intros Hl Hb. unfold ReadUint16Array.
  assert (E : uint64 (len l * 2) = len (flat_map (le 2) l)).
  { rewrite len_flat_map_le. unfold uint64. rewrite Z.mod_small; unfold len in *; lia. }
  rewrite E, sr_read_at by (rewrite len_flat_map_le; lia).
  cbn [bind]. unfold len. rewrite Nat2Z.id, (decode_array_le 2) by exact Hl.
  reflexivity.
Qed.

Lemma Write_Buffer (c : CHD) (buf : list byte) :
  Write c buf = (buf ++ layout c, None).
Proof.
  unfold Write, write, binary_Write, w_Write, Buffer_Writer, wire_bytes, layout.
  rewrite !le_uint32, !flat_map_le_encode, <- !app_assoc. reflexivity.
Qed.

Lemma Mmap_layout (c : CHD) (spare : list byte) :
  wf_chd c -> Mmap (layout c ++ spare) = Ok (Some c, None).
Proof.
  intros (Hr & Hi & Hk & Hv & Hlen & Lr & Li & Lk).
  assert (Lv : len (chd_values c) = len (chd_keys c)) by (unfold len; lia).
  unfold Mmap, layout. rewrite <- !app_assoc.
  change {| sr_b := ?b; sr_pos := 0 |} with (reader_at [] b).
  pose proof (len_flat_map_le 8 (chd_r c)) as S1.
  pose proof (len_flat_map_le 2 (chd_indices c)) as S2.
  pose proof (len_flat_map_le 8 (chd_keys c)) as S3.
  assert (L4 : forall v, len (le 4 v) = 4)
    by (intros v; unfold len; rewrite length_le; reflexivity).
  assert (Hnn : forall A (l : list A), 0 <= len l) by (intros; unfold len; lia).
  pose proof (Hnn _ (chd_r c)). pose proof (Hnn _ (chd_indices c)).
  pose proof (Hnn _ (chd_keys c)).
  rewrite ReadInt_at by (rewrite ?len_app, ?L4; change (len []) with 0; lia).
  cbn [bind].
  rewrite ReadUint64Array_at
    by (rewrite ?len_app, ?L4; change (len []) with 0; auto; lia).
  cbn [bind].
  rewrite ReadInt_at by (rewrite ?len_app, ?L4, ?S1; change (len []) with 0; lia).
  cbn [bind].
  rewrite ReadUint16Array_at
    by (rewrite ?len_app, ?L4, ?S1; change (len []) with 0; auto; lia).
  cbn [bind].
  rewrite ReadInt_at
    by (rewrite ?len_app, ?L4, ?S1, ?S2; change (len []) with 0; lia).
  cbn [bind].
  rewrite ReadUint64Array_at
    by (rewrite ?len_app, ?L4, ?S1, ?S2; change (len []) with 0; auto; lia).
  cbn [bind].
  rewrite <- Lv.
  rewrite ReadUint64Array_at
    by (rewrite ?len_app, ?L4, ?S1, ?S2, ?S3; change (len []) with 0; auto; lia).
  cbn [bind]. destruct c. reflexivity.
Qed.

(** C6. [Write] sends exactly the fixed little-endian layout to a buffer,
    with nothing before, between or after its seven fields; when the
    lengths fit the 32-bit counts and the elements fit their types, [Mmap]
    decodes the same fields in the same order and ignores what follows. *)
Theorem Write_Mmap_layout (c : CHD) :
  (forall buf : list byte, Write c buf = (buf ++ layout c, None)) /\
  (wf_chd c -> forall spare, Mmap (layout c ++ spare) = Ok (Some c, None)).
Proof.
  split; [intros buf; apply Write_Buffer|].
  intros Hwf spare. apply Mmap_layout. exact Hwf.
Qed.

Lemma sample_chd_wf : wf_chd sample_chd.
Proof.
  unfold wf_chd, sample_chd, is_uint64, is_uint16. cbn [chd_r chd_indices chd_keys chd_values].
  repeat split; repeat constructor; try (vm_compute; congruence).
Qed.

Lemma Write_Mmap_layout_witness :
  Mmap (layout sample_chd ++ [x00; xff]) = Ok (Some sample_chd, None).
Proof.
  apply (proj2 (Write_Mmap_layout sample_chd) sample_chd_wf).
Defined.

(** ** Round trip *)







(** ** The order of placement *)

Lemma StronglySorted_filter {A} (R : relation A) (P : A -> Prop)
    `{forall x, Decision (P x)} (l : list A) :
  StronglySorted R l -> StronglySorted R (filter P l).
Proof.
  induction 1 as [|x l Hl IH Hx]; [constructor|].
  rewrite filter_cons. destruct (decide (P x)); [|exact IH].
  constructor; [exact IH|].
  rewrite Forall_forall in Hx |- *. intros y Hy.
  apply list_elem_of_filter in Hy as [_ Hy]. auto.
Qed.

Lemma StronglySorted_lookup {A} (R : relation A) (l : list A) :
  StronglySorted R l ->
  forall (i j : nat) (x y : A),
    (i < j)%nat -> l !! i = Some x -> l !! j = Some y -> R x y.
Proof.
  induction 1 as [|a l Hl IH Ha]; intros i j x y Hij Hi Hj.
  - rewrite lookup_nil in Hi. discriminate.
  - destruct j as [|j]; [lia|]. simpl in Hj. destruct i as [|i]; simpl in Hi.
    + injection Hi as <-. rewrite Forall_forall in Ha. apply Ha.
      eapply list_elem_of_lookup_2. exact Hj.
    + apply (IH i j); auto. lia.
Qed.

Lemma placement_order_descending (rand_source : Z -> nat -> Z)
    (sort_Sort : bucketVector -> bucketVector) (now : Z)
    (b : CHDBuilder) (order : bucketVector) :
  sorts sort_Sort ->
  placement_order rand_source sort_Sort now b = Ok order ->
  descending order.
Proof.
  intros [_ Hsorted] H. unfold placement_order in H.
  inv_bind H as bs Hbs. injection H as <-.
  intros i j x y Hij Hi Hj. apply bucket_less_false.
  eapply (StronglySorted_lookup _ _ (StronglySorted_filter _ _ _ (Hsorted bs)));
    eauto.
Qed.

(** The loop of [Build] runs over the sorted vector in list order. *)
Lemma Build_body_order (rand_source : Z -> nat -> Z)
    (sort_Sort : bucketVector -> bucketVector) (now : Z) (b : CHDBuilder) :
  Build_body rand_source sort_Sort now b
  = (do buckets <- partition rand_source now b;
     do st <- place_buckets rand_source (len (sort_Sort buckets)) 0
                (newCHDHasher rand_source (len (b_keys b))
                   (bucket_count (len (b_keys b))) (b_seed b) (b_seeded b) now,
                 {| t_seen := ∅;
                    t_keys := replicate (Z.to_nat (len (b_keys b))) 0;
                    t_values := replicate (Z.to_nat (len (b_keys b))) 0;
                    t_indices :=
                      replicate (Z.to_nat (bucket_count (len (b_keys b))))
                                unassigned |})
                (sort_Sort buckets);
     Ok (chd_of st.1 st.2)).
Proof.
  unfold Build_body. destruct (partition rand_source now b); try reflexivity.
  cbn [bind]. destruct (place_buckets _ _ _ _ _) as [[h tb]| |]; reflexivity.
Qed.

(** An empty bucket leaves the state of the loop as it is. *)
Lemma place_bucket_empty (rand_source : Z -> nat -> Z) (nb i : Z) (st : chdHasher * table)
    (bk : bucket) :
  bucket_keys bk = [] -> place_bucket rand_source nb i st bk = Ok st.
Proof.
  intros E. unfold place_bucket. destruct st as [h tb]. rewrite E.
  destruct (decide (len (@nil Z) = 0)) as [_|Hne]; [reflexivity|].
  exfalso. apply Hne. reflexivity.
Qed.

(** Whether a bucket can be placed does not depend on the position that
    the error message would report. *)
Lemma place_bucket_Ok (rand_source : Z -> nat -> Z) (nb nb' i i' : Z)
    (st st' : chdHasher * table) (bk : bucket) :
  place_bucket rand_source nb i st bk = Ok st' ->
  place_bucket rand_source nb' i' st bk = Ok st'.
Proof.
  unfold place_bucket. destruct st as [h tb].
  destruct (decide (len (bucket_keys bk) = 0)); [auto|].
  destruct (try_existing h tb bk 0 (h_r h)) as [[tb1|]| |]; cbn [bind]; auto.
  destruct (retry (try_new rand_source tb bk) retries h) as [[h1|st1]| |];
    cbn [bind]; auto; discriminate.
Qed.

(** The loop of [Build] succeeds exactly when placing the non-empty
    buckets, one after the other in their sorted order, succeeds, and ends
    in the same state. *)
Lemma place_buckets_nonempty (rand_source : Z -> nat -> Z) (L : bucketVector) :
  forall (nb nb' i i' : Z) (st st' : chdHasher * table),
  place_buckets rand_source nb i st L = Ok st' ->
  place_buckets rand_source nb' i' st
    (filter (fun bk => bucket_keys bk <> []) L) = Ok st'.
Proof.
  induction L as [|bk L IH]; intros nb nb' i i' st st' H; [exact H|].
  simpl in H. inv_bind H as st1 Hst1. rewrite filter_cons.
  destruct (decide (bucket_keys bk <> [])) as [Hne|He].
  - simpl. rewrite (place_bucket_Ok _ _ nb' _ i' _ _ _ Hst1). cbn [bind].
    apply (IH _ _ _ _ _ _ H).
  - assert (E : bucket_keys bk = [])
      by (destruct (bucket_keys bk); [reflexivity|exfalso; apply He; discriminate]).
    rewrite place_bucket_empty in Hst1 by exact E. injection Hst1 as <-.
    apply (IH _ _ _ _ _ _ H).
Qed.

(** A structure that [Build] returns is the result of placing the buckets
    of [placement_order], in that order, into the empty table. *)
Lemma Build_body_placement (rand_source : Z -> nat -> Z)
    (sort_Sort : bucketVector -> bucketVector) (now : Z) (b : CHDBuilder)
    (c : CHD) :
  Build_body rand_source sort_Sort now b = Ok c ->
  exists order st,
    placement_order rand_source sort_Sort now b = Ok order /\
    place_buckets rand_source (len order) 0
      (newCHDHasher rand_source (len (b_keys b))
         (bucket_count (len (b_keys b))) (b_seed b) (b_seeded b) now,
       {| t_seen := ∅;
          t_keys := replicate (Z.to_nat (len (b_keys b))) 0;
          t_values := replicate (Z.to_nat (len (b_keys b))) 0;
          t_indices :=
            replicate (Z.to_nat (bucket_count (len (b_keys b)))) unassigned |})
      order = Ok st /\
    c = chd_of st.1 st.2.
Proof.
  rewrite Build_body_order. unfold placement_order. intros H.
  inv_bind H as bs Hbs. inv_bind H as st Hst. injection H as <-.
  rewrite Hbs. cbn [bind]. eexists _, st. split; [reflexivity|].
  split; [|reflexivity].
  apply (place_buckets_nonempty _ _ _ _ _ _ _ _ Hst).
Qed.

(** The loop over a vector runs over its first part, then over the rest. *)
Lemma place_buckets_app (rand_source : Z -> nat -> Z) (nb : Z)
    (L1 L2 : bucketVector) :
  forall (i : Z) (st : chdHasher * table),
  place_buckets rand_source nb i st (L1 ++ L2)
  = (do st' <- place_buckets rand_source nb i st L1;
     place_buckets rand_source nb (i + len L1) st' L2).
Proof.
  induction L1 as [|bk L1 IH]; intros i st.
  - cbn [app place_buckets bind]. f_equal. unfold len. simpl. lia.
  - cbn [app place_buckets].
    destruct (place_bucket rand_source nb i st bk) as [st1| |]; cbn [bind];
      try reflexivity.
    rewrite IH. replace (i + len (bk :: L1)) with (i + 1 + len L1)
      by (unfold len; rewrite length_cons; lia).
    reflexivity.
Qed.

(** The loop skips a run of empty buckets. *)
Lemma place_buckets_empty (rand_source : Z -> nat -> Z) (nb : Z)
    (L : bucketVector) :
  Forall (fun bk => bucket_keys bk = []) L ->
  forall (i : Z) (st : chdHasher * table),
  place_buckets rand_source nb i st L = Ok st.
Proof.
  induction 1 as [|bk L Hbk _ IH]; intros i st; [reflexivity|].
  cbn [place_buckets]. rewrite place_bucket_empty by exact Hbk.
  cbn [bind]. apply IH.
Qed.

(** When the empty buckets of the sorted vector come last, [Build] is the
    loop over the buckets before them. *)
Lemma Build_body_places (rand_source : Z -> nat -> Z)
    (sort_Sort : bucketVector -> bucketVector) (now : Z) (b : CHDBuilder)
    (buckets order rest : bucketVector) :
  partition rand_source now b = Ok buckets ->
  sort_Sort buckets = order ++ rest ->
  Forall (fun bk => bucket_keys bk = []) rest ->
  Build_body rand_source sort_Sort now b
  = (do st <- place_buckets rand_source (len (sort_Sort buckets)) 0
                (Build_start rand_source now b) order;
     Ok (chd_of st.1 st.2)).
Proof.
  intros Hbs Hsplit Hrest. rewrite Build_body_order, Hbs. cbn [bind].
  fold (Build_start rand_source now b).
  rewrite Hsplit at 2. rewrite place_buckets_app.
  destruct (place_buckets rand_source _ 0 _ order) as [st| |]; cbn [bind];
    try reflexivity.
  rewrite place_buckets_empty by exact Hrest. reflexivity.
Qed.

(** In a vector sorted by [Less] the empty buckets come last. *)
Lemma sorted_empty_last (L : bucketVector) :
  StronglySorted (fun x y => bucket_less y x = false) L ->
  L = filter (fun bk => bucket_keys bk <> []) L
      ++ filter (fun bk => bucket_keys bk = []) L.
Proof.
  induction 1 as [|x L HL IH Hx]; [reflexivity|].
  rewrite !filter_cons.
  destruct (decide (bucket_keys x <> [])) as [Hne|He].
  - destruct (decide (bucket_keys x = [])) as [E|_]; [contradiction|].
    cbn [app]. f_equal. exact IH.
  - assert (E : bucket_keys x = [])
      by (destruct (bucket_keys x); [reflexivity|exfalso; apply He; discriminate]).
    destruct (decide (bucket_keys x = [])) as [_|Hn]; [|contradiction].
    assert (Hall : Forall (fun bk => bucket_keys bk = []) L).
    { eapply Forall_impl; [exact Hx|]. intros y Hy. cbn beta in Hy.
      apply bucket_less_false in Hy. rewrite E in Hy. simpl in Hy.
      destruct (bucket_keys y); [reflexivity|simpl in Hy; lia]. }
    assert (F1 : filter (fun bk => bucket_keys bk <> []) L = []).
    { clear -Hall. induction Hall as [|y L Hy _ IH]; [reflexivity|].
      rewrite filter_cons. destruct (decide (bucket_keys y <> [])); [contradiction|].
      exact IH. }
    assert (F2 : filter (fun bk => bucket_keys bk = []) L = L).
    { clear -Hall. induction Hall as [|y L Hy _ IH]; [reflexivity|].
      rewrite filter_cons. destruct (decide (bucket_keys y = [])); [|contradiction].
      f_equal. exact IH. }
    rewrite F1, F2. reflexivity.
Qed.

(** The partition has as many buckets as [Build] makes. *)
Lemma partition_length (rand_source : Z -> nat -> Z) (now : Z) (b : CHDBuilder)
    (buckets : bucketVector) :
  length (b_keys b) = length (b_values b) ->
  partition rand_source now b = Ok buckets ->
  len buckets = bucket_count (len (b_keys b)).
Proof.
  intros Hlen H. apply partition_spec in H as (_ & Hbl & _); [|exact Hlen].
  pose proof (bucket_count_pos (len (b_keys b)) ltac:(unfold len; lia)).
  unfold len at 1. rewrite Hbl. lia.
Qed.

(** The partition of the keys draws one value from the source. *)
Lemma partition_first_value (rs1 rs2 : Z -> nat -> Z) (now1 now2 : Z)
    (b : CHDBuilder) :
  (if b_seeded b then b_seed b else now1)
  = (if b_seeded b then b_seed b else now2) ->
  rs1 (if b_seeded b then b_seed b else now1) O
  = rs2 (if b_seeded b then b_seed b else now2) O ->
  partition rs1 now1 b = partition rs2 now2 b.
Proof.
  intros Es E. unfold partition, newCHDHasher, rand_Uint64.
  cbn [h_rand rand_seed rand_drawn]. rewrite E, Es. reflexivity.
Qed.

Lemma placement_order_first_value (rs1 rs2 : Z -> nat -> Z)
    (sort_Sort : bucketVector -> bucketVector) (now1 now2 : Z)
    (b : CHDBuilder) :
  (if b_seeded b then b_seed b else now1)
  = (if b_seeded b then b_seed b else now2) ->
  rs1 (if b_seeded b then b_seed b else now1) O
  = rs2 (if b_seeded b then b_seed b else now2) O ->
  placement_order rs1 sort_Sort now1 b = placement_order rs2 sort_Sort now2 b.
Proof.
  intros Es E. unfold placement_order.
  rewrite (partition_first_value rs1 rs2 now1 now2) by assumption.
  reflexivity.
Qed.

(** After [Seed(42)], with [rand_42_first] drawn first, [pdqsort] leaves the
    thirteen buckets of [tie_calls_26] as [tie_placement_26] followed by
    the three empty buckets, whatever else the source draws, whatever the
    clock says and whatever [breakPatterns] does (it is not reached). *)
Lemma tie_sorted_pdq (rand_source : Z -> nat -> Z)
    (breakPatterns : bucketVector -> nat -> nat -> bucketVector) (now : Z) :
  rand_source 42 O = rand_42_first ->
  exists buckets,
    partition rand_source now (run tie_calls_26) = Ok buckets /\
    Sort_pdq breakPatterns buckets
    = tie_placement_26
      ++ replicate 3 {| bucket_index := 0; bucket_keys := [];
                        bucket_values := [] |}.
Proof.
  intros E.
  rewrite (partition_first_value rand_source source_42 now 0)
    by (vm_compute run; cbn [b_seeded b_seed]; rewrite ?E; reflexivity).
  eexists. split; [vm_compute; reflexivity|]. vm_compute. reflexivity.
Qed.

Lemma tie_order_pdq (rand_source : Z -> nat -> Z)
    (breakPatterns : bucketVector -> nat -> nat -> bucketVector) (now : Z) :
  rand_source 42 O = rand_42_first ->
  placement_order rand_source (Sort_pdq breakPatterns) now (run tie_calls_26)
  = Ok tie_placement_26.
Proof.
  intros E.
  rewrite (placement_order_first_value rand_source source_42 _ now 0)
    by (vm_compute run; cbn [b_seeded b_seed]; rewrite ?E; reflexivity).
  vm_compute. reflexivity.
Qed.

(** The buckets of [tie_calls] in the order of [sort.Sort], old or current,
    when [r[0]] is [rand_42_first]: the ties follow the ids. *)
Lemma tie_order :
  placement_order source_42 Sort_short 0 (run tie_calls) = Ok tie_placement /\
  forall breakPatterns,
    placement_order source_42 (Sort_pdq breakPatterns) 0 (run tie_calls)
    = Ok tie_placement.
Proof.
  split; [|intros bp]; vm_compute; reflexivity.
Qed.

Lemma tie_placement_26_descending : descending tie_placement_26.
Proof.
  assert (HS : StronglySorted
                 (fun x y => (length (bucket_keys y)
                              <= length (bucket_keys x))%nat) tie_placement_26).
  { unfold tie_placement_26.
    repeat (apply SSorted_cons;
            [|repeat (apply List.Forall_cons; [simpl; lia|]);
              apply List.Forall_nil]).
    apply SSorted_nil. }
  intros i j x y Hij Hi Hj.
  exact (StronglySorted_lookup _ _ HS i j x y Hij Hi Hj).
Qed.

(** C8, as amended.  [Build] is the loop that places the non-empty buckets
    in the order in which [sort.Sort] leaves them, and for every
    [sort.Sort] that sorts, that order is descending in the population of
    the buckets. *)
Theorem Build_places_descending (rand_source : Z -> nat -> Z)
    (sort_Sort : bucketVector -> bucketVector) (now : Z) (calls : list call) :
  sorts sort_Sort ->
  Build_body rand_source sort_Sort now (run calls)
  = (do order <- placement_order rand_source sort_Sort now (run calls);
     do st <- place_buckets rand_source (bucket_count (len (added calls))) 0
                (Build_start rand_source now (run calls)) order;
     Ok (chd_of st.1 st.2)) /\
  forall order,
    placement_order rand_source sort_Sort now (run calls) = Ok order ->
    descending order.
Proof.
  intros Hsorts. split.
  - unfold placement_order.
    destruct (partition rand_source now (run calls)) as [bs| |] eqn:Hbs;
      cbn [bind].
    + destruct Hsorts as [Hperm Hsorted].
      rewrite (Build_body_places _ _ _ _ bs _ _ Hbs
                 (sorted_empty_last _ (Hsorted bs))).
      * assert (E : len (sort_Sort bs) = bucket_count (len (added calls))).
        { unfold len at 1. rewrite (Permutation_length (Hperm bs)).
          fold (len bs).
          rewrite (partition_length _ _ _ _ (run_lengths calls) Hbs).
          rewrite run_keys. unfold len. rewrite length_fmap. reflexivity. }
        rewrite E. reflexivity.
      * apply Forall_forall. intros bk Hbk.
        apply list_elem_of_filter in Hbk as [Hbk _]. exact Hbk.
    + unfold Build_body. rewrite Hbs. reflexivity.
    + unfold Build_body. rewrite Hbs. reflexivity.
  - intros order. apply placement_order_descending. exact Hsorts.
Qed.

Lemma Build_places_descending_witness :
  placement_order source_42 Sort_short 0 (run tie_calls) = Ok tie_placement /\
  bucket_index <$> tie_placement = [0; 5; 1; 2; 3; 4; 6] /\
  descending tie_placement.
Proof.
  split; [exact (proj1 tie_order)|]. split; [reflexivity|].
  apply (proj2 (Build_places_descending source_42 Sort_short 0 tie_calls
                  Sort_short_sorts)).
  exact (proj1 tie_order).
Defined.

(** C8, as stated, fails.  After [Seed(42)] the first value that
    [math/rand] draws is [rand_42_first], and the keys 1 to 26 fall into
    thirteen buckets, ten of them non-empty.  Whatever the source draws
    next and whatever [breakPatterns] does, [pdqsort] leaves the
    non-empty buckets as [tie_placement_26] and [Build] is the loop that
    places them in that order: by descending population, and bucket 6
    before bucket 3, both of three keys, against the order of their
    ids. *)
Lemma Build_places_ties_by_sort :
  (forall (rand_source : Z -> nat -> Z)
          (breakPatterns : bucketVector -> nat -> nat -> bucketVector)
          (now : Z),
     rand_source 42 O = rand_42_first ->
     placement_order rand_source (Sort_pdq breakPatterns) now
       (run tie_calls_26) = Ok tie_placement_26 /\
     Build_body rand_source (Sort_pdq breakPatterns) now (run tie_calls_26)
     = (do st <- place_buckets rand_source 13 0
                   (Build_start rand_source now (run tie_calls_26))
                   tie_placement_26;
        Ok (chd_of st.1 st.2))) /\
  placement_order source_42 (Sort_pdq (fun data _ _ => data)) 0
    (run tie_calls_26) = Ok tie_placement_26 /\
  descending tie_placement_26 /\
  bucket_index <$> tie_placement_26 = [0; 12; 6; 3; 4; 8; 5; 7; 9; 10] /\
  (fun bk => length (bucket_keys bk)) <$> tie_placement_26
  = [5; 4; 3; 3; 3; 3; 2; 1; 1; 1]%nat /\
  ~ stable_by_id tie_placement_26.
Proof.
  split.
  { intros rand_source breakPatterns now E.
    split; [apply tie_order_pdq; exact E|].
    destruct (tie_sorted_pdq rand_source breakPatterns now E)
      as (buckets & Hbs & Hsplit).
    rewrite (Build_body_places _ _ _ _ _ _ _ Hbs Hsplit)
      by (repeat constructor).
    rewrite Hsplit. reflexivity. }
  split; [apply tie_order_pdq; reflexivity|].
  split; [exact tie_placement_26_descending|].
  split; [reflexivity|]. split; [reflexivity|].
  intros Hstable.
  specialize (Hstable 2%nat 3%nat _ _ ltac:(lia) eq_refl eq_refl).
  cbn [bucket_keys bucket_index length] in Hstable.
  assert (6 < 3) by (apply Hstable; [discriminate|reflexivity]). lia.
Qed.

(** ** Iteration *)


Lemma int64_small (z : Z) : - 2 ^ 63 <= z < 2 ^ 63 -> int64 z = z.
Proof. intros. unfold int64. rewrite Z.mod_small; lia. Qed.

Lemma iterate_from_spec (c : CHD) :
  length (chd_values c) = length (chd_keys c) ->
  len (chd_keys c) < 2 ^ 63 ->
  forall (fuel i : nat),
  (i < length (chd_keys c))%nat ->
  (length (chd_keys c) - i <= fuel)%nat ->
  iterate_from fuel {| it_i := Z.of_nat i; it_c := c |}
  = Some (Ok (drop i (zip (chd_keys c) (chd_values c)))).
Proof.
  intros Hlen Hmax. induction fuel as [|fuel IH]; intros i Hi Hfuel; [lia|].
  destruct (lookup_lt_is_Some_2 (chd_keys c) i Hi) as [k Hk].
  destruct (lookup_lt_is_Some_2 (chd_values c) i) as [v Hv]; [lia|].
  assert (Hkv : zip (chd_keys c) (chd_values c) !! i = Some (k, v)).
  { rewrite lookup_zip_with, Hk, Hv. reflexivity. }
  cbn [iterate_from]. unfold Iterator_Get, Iterator_Next. cbn [it_i it_c].
  rewrite (index_lookup _ _ _ Hk), (index_lookup _ _ _ Hv). cbn [bind].
  rewrite int64_small by (unfold len in Hmax; lia).
  rewrite (drop_S _ _ _ Hkv).
  destruct (decide (Z.of_nat i + 1 >= len (chd_keys c))) as [Hend|Hmore].
  - rewrite drop_ge; [reflexivity|].
    rewrite length_zip_with. unfold len in Hend. lia.
  - replace (Z.of_nat i + 1) with (Z.of_nat (S i)) by lia.
    rewrite IH by (unfold len in Hmore; lia). reflexivity.
Qed.

(** X1.  The loop over [Iterate] and [Next] visits every slot once, in slot
    order, and reaches the nil iterator after [Len] rounds: it collects
    the keys array zipped with the values array.  On an empty structure
    [Iterate] is nil at once. *)
Theorem Iterate_entries (c : CHD) (fuel : nat) :
  length (chd_values c) = length (chd_keys c) ->
  len (chd_keys c) < 2 ^ 63 ->
  (length (chd_keys c) <= fuel)%nat ->
  entries fuel c = Some (Ok (zip (chd_keys c) (chd_values c))) /\
  (Iterate c = None <-> Len c = 0).
Proof.
  intros Hlen Hmax Hfuel. unfold entries, Iterate, Len. split.
  - destruct (decide (len (chd_keys c) = 0)) as [Hz|Hnz].
    + destruct (chd_keys c); [reflexivity|discriminate].
    + change 0 with (Z.of_nat 0).
      rewrite iterate_from_spec; auto; unfold len in Hnz; lia.
  - destruct (decide (len (chd_keys c) = 0)) as [Hz|Hnz].
    + split; auto.
    + split; [discriminate|contradiction].
Qed.

Lemma Iterate_entries_witness :
  entries 7 sample_chd
  = Some (Ok (zip (chd_keys sample_chd) (chd_values sample_chd))).
Proof.
  apply (Iterate_entries sample_chd 7); [reflexivity| |].
  - vm_compute. reflexivity.
  - vm_compute. lia.
Defined.

(** X2.  When [Next] returns nil it has still advanced the iterator object, to
    a position past the last slot: [Get] on that object panics. *)
Theorem Iterator_Next_nil_Get (it : Iterator) :
  (Iterator_Next it).2 = false ->
  Iterator_Get (Iterator_Next it).1 = Panic /\
  it_i (Iterator_Next it).1 >= Len (it_c it).
Proof.
  unfold Iterator_Next, Iterator_Get, Len. cbn [fst snd it_i it_c].
  destruct (decide (int64 (it_i it + 1) >= len (chd_keys (it_c it)))) as [Hge|];
    [|discriminate].
  intros _. split; [|exact Hge].
  unfold index. destruct (decide (0 <= int64 (it_i it + 1))); [|reflexivity].
  rewrite lookup_ge_None_2; [reflexivity|]. unfold len in Hge. lia.
Qed.

Lemma Iterator_Next_nil_Get_witness :
  Iterator_Get (Iterator_Next {| it_i := 6; it_c := sample_chd |}).1 = Panic.
Proof.
  apply (Iterator_Next_nil_Get {| it_i := 6; it_c := sample_chd |}).
  vm_compute. reflexivity.
Defined.

(** ** The table of a built structure *)

Lemma Inv_table_Permutation (r0 n m : Z) (placed : list (Z * Z)) (h : chdHasher)
    (tb : table) :
  Inv r0 n m placed h tb -> length placed = Z.to_nat n -> NoDup placed.*1 ->
  zip (t_keys tb) (t_values tb) ≡ₚ placed.
Proof.
  intros (_ & (Lk & Lv & _) & Hplaced & _) Hlen HN. symmetry.
  apply submseteq_length_Permutation.
  - apply NoDup_submseteq; [eapply NoDup_fmap_1; exact HN|].
    intros [k v] Hin. rewrite Forall_forall in Hplaced.
    destruct (Hplaced _ Hin) as (ri & r & _ & _ & Hk & Hv & _). simpl in Hk, Hv.
    apply list_elem_of_lookup. exists (Z.to_nat (table_hash r0 n r k)).
    rewrite lookup_zip_with, Hk, Hv. reflexivity.
  - rewrite length_zip_with. unfold len in *. lia.
Qed.

Lemma Build_table (rand_source : Z -> nat -> Z)
    (sort_Sort : bucketVector -> bucketVector) (now : Z) (calls : list call)
    (c : CHD) :
  (forall b, sort_Sort b ≡ₚ b) ->
  Build rand_source sort_Sort now (run calls) = Ok (Some c, None) ->
  zip (chd_keys c) (chd_values c) ≡ₚ added calls /\
  Len c = len (added calls) /\
  len (chd_values c) = len (added calls) /\
  len (chd_indices c) = bucket_count (len (added calls)) /\
  NoDup (chd_keys c).
Proof.
  intros Hperm H.
  destruct (Build_Inv _ _ _ _ _ Hperm H)
    as (r0 & placed & h & tb & HInv & Hp & HN & -> & _).
  pose proof HInv as (_ & (Lk & Lv & Li) & _).
  assert (Hlen : length placed = Z.to_nat (len (added calls))).
  { rewrite Hp. unfold len. lia. }
  assert (HT : zip (t_keys tb) (t_values tb) ≡ₚ added calls).
  { rewrite <- Hp. eapply Inv_table_Permutation; eauto. rewrite Hp. exact HN. }
  unfold Len, chd_of. cbn [chd_keys chd_values chd_indices].
  split; [exact HT|]. split; [exact Lk|]. split; [exact Lv|]. split; [exact Li|].
  rewrite <- (fst_zip (t_keys tb) (t_values tb)) by (unfold len in *; lia).
  rewrite HT. exact HN.
Qed.

(** X3.  A structure that [Build] returns is a minimal perfect hash table of
    the added pairs: its keys and values arrays have one slot per added
    pair, every added pair sits in exactly one slot with its value beside
    its key, and no slot is left over.  [Len] is the number of added
    pairs, and there is one bucket entry per two pairs (at least one). *)
Theorem Build_table_Permutation (rand_source : Z -> nat -> Z)
    (sort_Sort : bucketVector -> bucketVector) (now : Z) (calls : list call)
    (c : CHD) :
  (forall b, sort_Sort b ≡ₚ b) ->
  Build rand_source sort_Sort now (run calls) = Ok (Some c, None) ->
  zip (chd_keys c) (chd_values c) ≡ₚ added calls /\
  Len c = len (added calls) /\
  len (chd_values c) = len (added calls) /\
  len (chd_indices c) = bucket_count (len (added calls)) /\
  NoDup (chd_keys c).
Proof. apply Build_table. Qed.

Lemma Build_table_Permutation_witness :
  zip (chd_keys sample_chd) (chd_values sample_chd) ≡ₚ added sample_calls.
Proof.
  apply (Build_table_Permutation example_source Sort_short 0 sample_calls
           sample_chd (proj1 Sort_short_sorts)).
  vm_compute. reflexivity.
Defined.

(** X4.  Iterating over a built structure yields the added pairs, each once,
    in slot order, and ends after as many rounds as pairs were added. *)
Theorem Build_Iterate (rand_source : Z -> nat -> Z)
    (sort_Sort : bucketVector -> bucketVector) (now : Z) (calls : list call)
    (c : CHD) :
  (forall b, sort_Sort b ≡ₚ b) ->
  Build rand_source sort_Sort now (run calls) = Ok (Some c, None) ->
  len (added calls) < 2 ^ 63 ->
  exists l,
    entries (length (added calls)) c = Some (Ok l) /\
    l ≡ₚ added calls /\
    (Iterate c = None <-> added calls = []).
Proof.
  intros Hperm H Hmax.
  destruct (Build_table _ _ _ _ _ Hperm H) as (HT & HL & HLv & _ & _).
  unfold Len in HL.
  exists (zip (chd_keys c) (chd_values c)). split; [|split; [exact HT|]].
  - unfold entries, Iterate.
    destruct (decide (len (chd_keys c) = 0)) as [Hz|Hnz].
    + destruct (chd_keys c); [|discriminate]. reflexivity.
    + change 0 with (Z.of_nat 0).
      rewrite iterate_from_spec; auto; unfold len in *; lia.
  - unfold Iterate. rewrite HL.
    destruct (decide (len (added calls) = 0)) as [Hz|Hnz].
    + split; [|reflexivity]. intros _.
      destruct (added calls); [reflexivity|discriminate].
    + split; [discriminate|]. intros E. rewrite E in Hnz. contradiction.
Qed.

Lemma Build_Iterate_witness :
  exists l, entries 7 sample_chd = Some (Ok l) /\ l ≡ₚ added sample_calls.
Proof.
  destruct (Build_Iterate example_source Sort_short 0 sample_calls sample_chd
              (proj1 Sort_short_sorts)) as (l & Hl & Hp & _).
  - vm_compute. reflexivity.
  - vm_compute. reflexivity.
  - exists l. split; [exact Hl|exact Hp].
Defined.

(** ** What [tryHash] computes *)

Lemma map_get_insert_false_iff (m : gmap Z bool) (k x : Z) :
  map_get (<[k := true]> m) x = false <-> x <> k /\ map_get m x = false.
Proof.
  split; [apply map_get_insert_false|].
  intros [Hne Hm]. destruct (map_get (<[k := true]> m) x) eqn:E; [|reflexivity].
  apply map_get_insert in E as [->|E]; [contradiction|congruence].
Qed.

(** The first loop of [tryHash] succeeds exactly when the slots of the
    bucket's keys are pairwise distinct and none of them is taken. *)
Lemma tryHash_hashes_spec (h : chdHasher) (r0 : Z) (seen : gmap Z bool) (r : Z)
    (ks : list Z) :
  h_r h !! 0%nat = Some r0 -> h_size h <> 0 ->
  forall dup : gmap Z bool,
  tryHash_hashes h seen dup r ks
  = Ok (if decide (NoDup (table_hash r0 (h_size h) r <$> ks) /\
                   Forall (fun hv => map_get seen hv = false /\
                                     map_get dup hv = false)
                          (table_hash r0 (h_size h) r <$> ks))
        then Some (table_hash r0 (h_size h) r <$> ks) else None).
Proof.
  intros Hr0 Hn. induction ks as [|k ks IH]; intros dup.
  - cbn [tryHash_hashes fmap list_fmap].
    destruct (decide _) as [_|Hno]; [reflexivity|].
    exfalso. apply Hno. split; constructor.
  - cbn [tryHash_hashes fmap list_fmap].
    assert (HT : Table h r k = Ok (table_hash r0 (h_size h) r k))
      by (apply Table_Ok; eauto).
    rewrite HT. cbn [bind].
    set (hv := table_hash r0 (h_size h) r k).
    set (hs := list_fmap Z Z (table_hash r0 (h_size h) r) ks) in *.
    destruct (map_get seen hv) eqn:Hseen.
    { destruct (decide _) as [[_ HF]|_]; [|reflexivity].
      apply Forall_cons in HF as [[HF _] _]. congruence. }
    destruct (map_get dup hv) eqn:Hdup.
    { destruct (decide _) as [[_ HF]|_]; [|reflexivity].
      apply Forall_cons in HF as [[_ HF] _]. congruence. }
    rewrite IH. cbn [bind].
    assert (Hiff : NoDup hs /\
                   Forall (fun x => map_get seen x = false /\
                                    map_get (<[hv := true]> dup) x = false) hs
                   <-> NoDup (hv :: hs) /\
                       Forall (fun x => map_get seen x = false /\
                                        map_get dup x = false) (hv :: hs)).
    { rewrite NoDup_cons, Forall_cons, !Forall_forall. split.
      - intros [HN HF]. split; [split; [|exact HN]|split; [auto|]].
        + intros Hin. destruct (HF _ Hin) as [_ Hx].
          apply map_get_insert_false_iff in Hx. tauto.
        + intros x Hx. destruct (HF _ Hx) as [? Hx'].
          apply map_get_insert_false_iff in Hx'. tauto.
      - intros [[Hnotin HN] [_ HF]]. split; [exact HN|].
        intros x Hx. destruct (HF _ Hx) as [? ?]. split; [assumption|].
        apply map_get_insert_false_iff. split; [|assumption].
        intros ->. contradiction. }
    destruct (decide _) as [H1|H1]; destruct (decide _) as [H2|H2];
      try reflexivity; exfalso; tauto.
Qed.

Lemma fill_table_total (bk : bucket) (hashes : list Z) :
  forall (keys values : list Z) (i : Z),
  0 <= i ->
  (Z.to_nat i + length hashes <= length (bucket_keys bk))%nat ->
  (Z.to_nat i + length hashes <= length (bucket_values bk))%nat ->
  Forall (fun hv => 0 <= hv < len keys /\ 0 <= hv < len values) hashes ->
  exists kv, fill_table keys values bk i hashes = Ok kv.
Proof.
  induction hashes as [|hv hashes IH]; intros keys values i Hi Hk Hv HF;
    cbn [fill_table]; [eauto|].
  cbn [length] in Hk, Hv.
  apply Forall_cons in HF as [[Hr1 Hr2] HF].
  destruct (lookup_lt_is_Some_2 (bucket_keys bk) (Z.to_nat i)) as [k Ek]; [lia|].
  destruct (lookup_lt_is_Some_2 (bucket_values bk) (Z.to_nat i)) as [v Ev]; [lia|].
  rewrite (index_lookup_Z _ _ _ Hi Ek). cbn [bind].
  unfold store at 1. destruct (decide (0 <= hv < len keys)); [|contradiction].
  cbn [bind]. rewrite (index_lookup_Z _ _ _ Hi Ev). cbn [bind].
  unfold store at 1. destruct (decide (0 <= hv < len values)); [|contradiction].
  cbn [bind]. apply IH; try lia.
  unfold len. rewrite !length_insert. exact HF.
Qed.

(** [tryHash] does not panic on a bucket with as many values as keys and
    an index within the bucket map, given a table of the hasher's size. *)
Lemma tryHash_total (hT : chdHasher) (r0 : Z) (tb : table) (bk : bucket)
    (ri r : Z) :
  h_r hT !! 0%nat = Some r0 -> 0 < h_size hT ->
  len (t_keys tb) = h_size hT -> len (t_values tb) = h_size hT ->
  0 <= bucket_index bk < len (t_indices tb) ->
  length (bucket_keys bk) = length (bucket_values bk) ->
  exists o, tryHash hT tb bk ri r = Ok o.
Proof.
  intros Hr0 Hn Lk Lv Hidx Hlen. unfold tryHash.
  rewrite (tryHash_hashes_spec _ r0) by (auto; lia). cbn [bind].
  destruct (decide _) as [_|_]; [|eauto].
  unfold store. destruct (decide (0 <= bucket_index bk < len (t_indices tb)));
    [|contradiction].
  cbn [bind].
  destruct (fill_table_total bk (table_hash r0 (h_size hT) r <$> bucket_keys bk)
              (t_keys tb) (t_values tb) 0) as [[keys values] E].
  - lia.
  - rewrite length_fmap. simpl. lia.
  - rewrite length_fmap. simpl. lia.
  - apply Forall_fmap, Forall_forall. intros k _. simpl.
    rewrite Lk, Lv. split; apply table_hash_range; exact Hn.
  - rewrite E. cbn [bind]. eauto.
Qed.

Lemma try_existing_total (h : chdHasher) (r0 : Z) (tb : table) (bk : bucket)
    (rs : list Z) :
  h_r h !! 0%nat = Some r0 -> 0 < h_size h ->
  len (t_keys tb) = h_size h -> len (t_values tb) = h_size h ->
  0 <= bucket_index bk < len (t_indices tb) ->
  length (bucket_keys bk) = length (bucket_values bk) ->
  forall ri0 : nat, exists o, try_existing h tb bk ri0 rs = Ok o.
Proof.
  intros Hr0 Hn Lk Lv Hidx Hlen.
  induction rs as [|r rs IH]; intros ri0; cbn [try_existing]; [eauto|].
  destruct (tryHash_total h r0 tb bk (uint16 (Z.of_nat ri0)) r) as [[tb'|] E];
    auto; rewrite E; cbn [bind]; eauto.
Qed.

Lemma rounds_total {S R} (P : S -> Prop) (body : S -> result (S + R)) :
  (forall s, P s ->
     exists x, body s = Ok x /\ match x with inl s' => P s' | inr _ => True end) ->
  forall (n : nat) (s : S), P s -> exists x, rounds body n s = Ok x.
Proof.
  intros Hbody. induction n as [|n IH]; intros s Hs; cbn [rounds]; [eauto|].
  destruct (Hbody s Hs) as ([s'|v] & E & Hx); rewrite E; cbn [bind]; eauto.
Qed.

(** ** The outcomes of [Build] *)

Lemma try_new_total (rand_source : Z -> nat -> Z) (r0 : Z) (tb : table)
    (bk : bucket) (h : chdHasher) :
  h_r h !! 0%nat = Some r0 -> 0 < h_size h ->
  len (t_keys tb) = h_size h -> len (t_values tb) = h_size h ->
  0 <= bucket_index bk < len (t_indices tb) ->
  length (bucket_keys bk) = length (bucket_values bk) ->
  exists x, try_new rand_source tb bk h = Ok x.
Proof.
  intros Hr0 Hn Lk Lv Hidx Hlen. unfold try_new, Generate, rand_Uint64.
  match goal with
  | |- context [tryHash ?hT tb bk ?ri ?r] =>
      destruct (tryHash_total hT r0 tb bk ri r) as [[tb'|] E]; auto;
        rewrite E; cbn [bind]; eauto
  end.
Qed.

Lemma place_bucket_outcome (rand_source : Z -> nat -> Z) (r0 n m : Z)
    (ks : list Z) (placed : list (Z * Z)) (h : chdHasher) (tb : table)
    (bk : bucket) (nb i : Z) :
  Inv r0 n m placed h tb -> bucket_ok r0 m ks bk -> (ks <> [] -> 0 < n) ->
  (exists st, place_bucket rand_source nb i (h, tb) bk = Ok st) \/
  (bucket_keys bk <> [] /\
   place_bucket rand_source nb i (h, tb) bk
   = Err (ErrNoHashFunction i nb (len (bucket_keys bk)) (bucket_keys bk))).
Proof.
  intros ((Hsz & Hbk & Hm & Hr0) & (Lk & Lv & Li) & _) [Hlen Hbok] Hn'.
  unfold place_bucket.
  destruct (decide (len (bucket_keys bk) = 0)) as [Hz|Hnz]; [eauto|].
  assert (Hne : bucket_keys bk <> []).
  { intros E. rewrite E in Hnz. apply Hnz. reflexivity. }
  assert (Hn : 0 < n).
  { apply Hn'. destruct (bucket_keys bk) as [|k ks'] eqn:E; [contradiction|].
    destruct (Hbok Hne k) as [[Hk _] _]; [left|].
    intros E'. rewrite E' in Hk. inversion Hk. }
  assert (Hidx : 0 <= bucket_index bk < len (t_indices tb)).
  { destruct (bucket_keys bk) as [|k ks'] eqn:E; [contradiction|].
    destruct (Hbok Hne k) as [[_ <-] _]; [left|].
    rewrite Li. apply outer_hash_range. exact Hm. }
  destruct (try_existing_total h r0 tb bk (h_r h)) with (ri0 := O)
    as [[tb'|] E]; try (rewrite ?Hsz; auto; lia);
    rewrite E; cbn [bind]; [eauto|].
  destruct (rounds_total
              (fun s : chdHasher => h_r s = h_r h /\ h_size s = h_size h)
              (try_new rand_source tb bk)) with (n := Pos.to_nat retries) (s := h)
    as [x Ex].
  - intros s [Er Es].
    destruct (try_new_total rand_source r0 tb bk s) as [x Ex];
      try (rewrite ?Er, ?Es, ?Hsz; auto; lia).
    exists x. split; [exact Ex|].
    apply try_new_spec in Ex. destruct x as [s'|]; [|exact I].
    destruct Ex as (-> & -> & _). auto.
  - auto.
  - rewrite retry_rounds, Ex. cbn [bind].
    destruct x as [h1|st']; [|eauto]. right. split; [exact Hne|reflexivity].
Qed.

Lemma place_buckets_outcome (rand_source : Z -> nat -> Z) (r0 n m : Z)
    (ks : list Z) (nb : Z) (L : bucketVector) :
  (ks <> [] -> 0 < n) ->
  forall (i : Z) (placed : list (Z * Z)) (h : chdHasher) (tb : table),
  Inv r0 n m placed h tb ->
  Forall (bucket_ok r0 m ks) L ->
  Forall (fun k => k ∈ ks) placed.*1 ->
  NoDup (placed.*1 ++ (L ≫= bucket_keys)) ->
  (exists st, place_buckets rand_source nb i (h, tb) L = Ok st) \/
  (exists (j : nat) (bk : bucket),
     L !! j = Some bk /\ bucket_keys bk <> [] /\
     place_buckets rand_source nb i (h, tb) L
     = Err (ErrNoHashFunction (i + Z.of_nat j) nb (len (bucket_keys bk))
                              (bucket_keys bk))).
Proof.
  intros Hn. induction L as [|bk L IH]; intros i placed h tb HInv HL Hks HN;
    cbn [place_buckets]; [eauto|].
  apply Forall_cons in HL as [Hbk HL].
  destruct (place_bucket_outcome rand_source r0 n m ks placed h tb bk nb i
              HInv Hbk Hn) as [[[h1 tb1] Hst]|[Hne Herr]].
  - rewrite Hst. cbn [bind].
    rewrite bind_cons in HN.
    assert (Hfresh : forall kv, kv ∈ placed -> kv.1 ∈ ks /\ kv.1 ∉ bucket_keys bk).
    { intros kv Hkv. rewrite Forall_forall in Hks.
      assert (Hin : kv.1 ∈ placed.*1) by (apply list_elem_of_fmap_2; exact Hkv).
      split; [auto|]. apply NoDup_app in HN as (_ & HN & _).
      intros Hk. apply (HN _ Hin). apply elem_of_app. auto. }
    destruct (place_bucket_Inv _ _ _ _ _ _ _ _ _ _ _ _ _ HInv Hbk Hfresh Hst)
      as [HInv1 _].
    assert (Efst : (placed ++ bucket_pairs bk).*1 = placed.*1 ++ bucket_keys bk).
    { rewrite fmap_app. f_equal. unfold bucket_pairs. apply fst_zip.
      destruct Hbk as [-> _]. lia. }
    destruct (IH (i + 1) (placed ++ bucket_pairs bk) h1 tb1) as [Hok|Herr];
      try assumption.
    + rewrite Efst. apply Forall_app. split; [exact Hks|].
      apply Forall_forall. intros k Hk. destruct Hbk as [_ Hbk].
      apply Hbk; [|exact Hk]. intros E. rewrite E in Hk. inversion Hk.
    + rewrite Efst, <- app_assoc. exact HN.
    + left. exact Hok.
    + right. destruct Herr as (j & bk' & Hj & Hne & ->).
      exists (S j), bk'. split; [exact Hj|]. split; [exact Hne|].
      do 2 f_equal. lia.
  - right. exists O, bk. split; [reflexivity|]. split; [exact Hne|].
    rewrite Herr. cbn [bind]. do 2 f_equal. lia.
Qed.

Lemma Build_buckets_outcome (h : chdHasher) (r0 m : Z) (ks : list Z) :
  forall (vs : list Z) (dups : gmap Z bool) (bs : bucketVector) (seen : list Z),
  h_r h !! 0%nat = Some r0 -> h_buckets h = m -> 0 < m ->
  length bs = Z.to_nat m ->
  length ks = length vs ->
  (forall x, map_get dups x = true <-> x ∈ seen) ->
  (exists bs', Build_buckets h ks vs dups bs = Ok bs') \/
  (exists k, Build_buckets h ks vs dups bs = Err (ErrDuplicateKey k) /\
             ~ NoDup (seen ++ ks)).
Proof.
  induction ks as [|key ks IH]; intros vs dups bs seen Hr0 Hm Hpos Hlen Hkv Hdups;
    [left; simpl; eauto|].
  destruct vs as [|value vs]; [discriminate|]. cbn [Build_buckets].
  destruct (map_get dups key) eqn:Hdup.
  { right. exists key. split; [reflexivity|].
    apply Hdups in Hdup. intros HN. apply NoDup_app in HN as (_ & HN & _).
    apply (HN _ Hdup). left. }
  assert (Hoh : HashIndexFromKey h key = Ok (outer_hash r0 m key)).
  { apply HashIndexFromKey_Ok. exists r0. rewrite Hm. split; [auto|].
    split; [lia|reflexivity]. }
  rewrite Hoh. cbn [bind].
  pose proof (outer_hash_range r0 m key Hpos) as Hrange.
  destruct (lookup_lt_is_Some_2 bs (Z.to_nat (outer_hash r0 m key)))
    as [bk Hbk]; [lia|].
  rewrite (index_lookup_Z _ _ _ (proj1 Hrange) Hbk). cbn [bind].
  unfold store. destruct (decide (0 <= outer_hash r0 m key < len bs)) as [_|Hno];
    [|unfold len in Hno; lia].
  cbn [bind].
  destruct (IH vs (<[key := true]> dups)
              (<[Z.to_nat (outer_hash r0 m key) :=
                   {| bucket_index := outer_hash r0 m key;
                      bucket_keys := bucket_keys bk ++ [key];
                      bucket_values := bucket_values bk ++ [value] |}]> bs)
              (seen ++ [key])) as [Hok|(k & Herr & Hnd)]; auto.
  - rewrite length_insert. exact Hlen.
  - intros x. rewrite map_get_insert, Hdups, elem_of_app, list_elem_of_singleton.
    tauto.
  - right. exists k. split; [exact Herr|].
    rewrite <- app_assoc in Hnd. exact Hnd.
Qed.

Lemma Build_body_outcome (rand_source : Z -> nat -> Z)
    (sort_Sort : bucketVector -> bucketVector) (now : Z) (b : CHDBuilder) :
  (forall b, sort_Sort b ≡ₚ b) ->
  length (b_keys b) = length (b_values b) ->
  (exists c, Build_body rand_source sort_Sort now b = Ok c /\ NoDup (b_keys b)) \/
  (exists k, Build_body rand_source sort_Sort now b = Err (ErrDuplicateKey k) /\
             ~ NoDup (b_keys b)) \/
  (exists (bs : bucketVector) (i : nat) (bk : bucket),
     partition rand_source now b = Ok bs /\
     sort_Sort bs !! i = Some bk /\ bucket_keys bk <> [] /\
     NoDup (b_keys b) /\
     Build_body rand_source sort_Sort now b
     = Err (ErrNoHashFunction (Z.of_nat i) (bucket_count (len (b_keys b)))
                              (len (bucket_keys bk)) (bucket_keys bk))).
Proof.
  intros Hperm Hlen. unfold Build_body.
  set (n := len (b_keys b)). set (m := bucket_count n).
  assert (Hn : 0 <= n) by (unfold n, len; lia).
  assert (Hm : 0 < m) by (apply bucket_count_pos; exact Hn).
  destruct (newCHDHasher_fields rand_source n m (b_seed b) (b_seeded b) now)
    as (Hr & Hs & Hb).
  set (r0 := uint64 (rand_source (if b_seeded b then b_seed b else now) O)) in *.
  destruct (Build_buckets_outcome (newCHDHasher rand_source n m (b_seed b) (b_seeded b) now)
              r0 m (b_keys b) (b_values b) ∅
              (replicate (Z.to_nat m)
                 {| bucket_index := 0; bucket_keys := []; bucket_values := [] |})
              []) as [[bs Hbs]|(k & Herr & Hnd)];
    [rewrite Hr; reflexivity | exact Hb | exact Hm | apply length_replicate
    | exact Hlen
    | intros x; rewrite map_get_empty, elem_of_nil; split; [discriminate|tauto]
    | | ].
  - assert (Hpart : partition rand_source now b = Ok bs) by exact Hbs.
    rewrite Hpart. cbn [bind].
    apply partition_spec in Hbs as (HN & Hbl & Hpok & Hpp); [|exact Hlen].
    fold n m r0 in Hbl, Hpok.
    assert (Hlens : Forall (fun bk => length (bucket_keys bk) = length (bucket_values bk))
                           (sort_Sort bs)).
    { apply Forall_forall. intros bk Hbk. rewrite Hperm in Hbk.
      apply list_elem_of_lookup in Hbk as [p Hp]. apply (Hpok _ _ Hp). }
    destruct (place_buckets_outcome rand_source r0 n m (b_keys b)
                (len (sort_Sort bs)) (sort_Sort bs)) with
      (i := 0) (placed := @nil (Z * Z))
      (h := newCHDHasher rand_source n m (b_seed b) (b_seeded b) now)
      (tb := {| t_seen := ∅; t_keys := replicate (Z.to_nat n) 0;
                t_values := replicate (Z.to_nat n) 0;
                t_indices := replicate (Z.to_nat m) unassigned |})
      as [[[h tb] Hst]|(j & bk & Hj & Hne & Herr)].
    + intros Hks. unfold n, len. destruct (b_keys b); [contradiction|]. simpl. lia.
    + apply Inv_init; assumption.
    + apply Forall_forall. intros bk Hbk. rewrite Hperm in Hbk.
      apply list_elem_of_lookup in Hbk as [p Hp].
      destruct (Hpok _ _ Hp) as (Hl & Hidx & Hkeys).
      split; [exact Hl|]. intros Hne k. rewrite Hkeys, (Hidx Hne). tauto.
    + constructor.
    + simpl. rewrite <- bind_bucket_keys by exact Hlens.
      rewrite Hperm, Hpp, fst_zip by lia. exact HN.
    + left. rewrite Hst. cbn [bind]. eauto.
    + right. right. exists bs, j, bk.
      split; [reflexivity|]. split; [exact Hj|]. split; [exact Hne|].
      split; [exact HN|]. rewrite Herr. cbn [bind].
      assert (E : len (sort_Sort bs) = m).
      { unfold len. rewrite Hperm, Hbl. lia. }
      rewrite E. reflexivity.
  - right. left. exists k. split; [|exact Hnd].
    assert (Hpart : partition rand_source now b = Err (ErrDuplicateKey k))
      by exact Herr.
    rewrite Hpart. reflexivity.
Qed.

Lemma run_seed (calls : list call) (now : Z) :
  (if b_seeded (run calls) then b_seed (run calls) else now)
  = default now (seeded_with calls).
Proof.
  unfold run. destruct (fold_calls calls Builder) as (_ & _ & -> & ->).
  destruct (seeded_with calls); reflexivity.
Qed.

Lemma Build_outcome_run (rand_source : Z -> nat -> Z)
    (sort_Sort : bucketVector -> bucketVector) (now : Z) (calls : list call) :
  (forall b, sort_Sort b ≡ₚ b) ->
  let n := len (added calls) in
  let m := bucket_count n in
  let r0 := uint64 (rand_source (default now (seeded_with calls)) O) in
  (exists c, Build rand_source sort_Sort now (run calls) = Ok (Some c, None) /\
             NoDup (added calls).*1) \/
  (exists k, Build rand_source sort_Sort now (run calls)
             = Ok (None, Some (ErrDuplicateKey k)) /\
             ~ NoDup (added calls).*1) \/
  (exists (i : Z) (ks : list Z),
     Build rand_source sort_Sort now (run calls)
     = Ok (None, Some (ErrNoHashFunction i m (len ks) ks)) /\
     NoDup (added calls).*1 /\ 0 <= i < m /\ ks <> [] /\
     exists idx, forall k,
       k ∈ ks <-> k ∈ (added calls).*1 /\ outer_hash r0 m k = idx).
Proof.
  intros Hperm n m r0. unfold Build.
  destruct (Build_body_outcome rand_source sort_Sort now (run calls) Hperm
              (run_lengths calls))
    as [(c & -> & HN)|[(k & -> & HN)|(bs & i & bk & Hpart & Hi & Hne & HN & ->)]];
    rewrite run_keys in HN.
  - left. eauto.
  - right. left. eauto.
  - right. right. exists (Z.of_nat i), (bucket_keys bk).
    rewrite run_keys. unfold len at 1. rewrite length_fmap. fold (len (added calls)).
    split; [reflexivity|]. split; [exact HN|].
    apply partition_spec in Hpart as (_ & Hbl & Hpok & _); [|apply run_lengths].
    rewrite run_seed, run_keys in Hpok. rewrite run_keys in Hbl.
    unfold len in Hpok, Hbl. rewrite length_fmap in Hpok, Hbl.
    fold (len (added calls)) in Hpok, Hbl. fold n m r0 in Hpok, Hbl.
    split; [|split; [exact Hne|]].
    + apply lookup_lt_Some in Hi. rewrite Hperm, Hbl in Hi.
      pose proof (bucket_count_pos n ltac:(unfold n, len; lia)). fold m in H. lia.
    + assert (Hin : bk ∈ sort_Sort bs) by (apply list_elem_of_lookup; eauto).
      rewrite Hperm in Hin. apply list_elem_of_lookup in Hin as [p Hp].
      destruct (Hpok _ _ Hp) as (_ & _ & Hkeys).
      exists (Z.of_nat p). exact Hkeys.
Qed.

(** X5.  [Build] on a builder used through [Builder], [Seed] and [Add] never
    panics and has exactly three outcomes: a structure, when the keys are
    distinct; the duplicate-key error, exactly when some key was added
    twice; or, with distinct keys, the error of the retry loop, which
    reports a position below the bucket count and the keys of one
    complete, non-empty bucket. *)
Theorem Build_outcome (rand_source : Z -> nat -> Z)
    (sort_Sort : bucketVector -> bucketVector) (now : Z) (calls : list call) :
  (forall b, sort_Sort b ≡ₚ b) ->
  let n := len (added calls) in
  let m := bucket_count n in
  let r0 := uint64 (rand_source (default now (seeded_with calls)) O) in
  (exists c, Build rand_source sort_Sort now (run calls) = Ok (Some c, None) /\
             NoDup (added calls).*1) \/
  (exists k, Build rand_source sort_Sort now (run calls)
             = Ok (None, Some (ErrDuplicateKey k)) /\
             ~ NoDup (added calls).*1) \/
  (exists (i : Z) (ks : list Z),
     Build rand_source sort_Sort now (run calls)
     = Ok (None, Some (ErrNoHashFunction i m (len ks) ks)) /\
     NoDup (added calls).*1 /\ 0 <= i < m /\ ks <> [] /\
     exists idx, forall k,
       k ∈ ks <-> k ∈ (added calls).*1 /\ outer_hash r0 m k = idx).
Proof. apply Build_outcome_run. Qed.

Lemma Build_outcome_witness :
  exists r, Build example_source Sort_short 0 (run sample_calls) = Ok r.
Proof.
  destruct (Build_outcome example_source Sort_short 0 sample_calls
              (proj1 Sort_short_sorts))
    as [(c & -> & _)|[(k & -> & _)|(i & ks & -> & _)]]; eauto.
Defined.

(** ** Tables whose size is a power of two *)

Lemma lxor_mod_pow2 (a b j : Z) :
  0 <= j -> Z.lxor a b mod 2 ^ j = Z.lxor (a mod 2 ^ j) (b mod 2 ^ j).
Proof.
  intros Hj. apply Z.bits_inj'. intros i Hi.
  destruct (Z.lt_ge_cases i j).
  - rewrite Z.mod_pow2_bits_low, !Z.lxor_spec, !Z.mod_pow2_bits_low by lia.
    reflexivity.
  - rewrite Z.mod_pow2_bits_high, Z.lxor_spec, !Z.mod_pow2_bits_high by lia.
    reflexivity.
Qed.

Lemma mod_pow2_le (a i j : Z) :
  0 <= i <= j -> (a mod 2 ^ j) mod 2 ^ i = a mod 2 ^ i.
Proof.
  intros Hij. apply Z.mod_mod_divide.
  exists (2 ^ (j - i)). rewrite <- Z.pow_add_r by lia. f_equal. lia.
Qed.

Lemma bucket_count_pow2 (j : Z) : 1 <= j -> bucket_count (2 ^ j) = 2 ^ (j - 1).
Proof.
  intros Hj. unfold bucket_count.
  assert (E : 2 ^ j / 2 = 2 ^ (j - 1)).
  { replace j with (1 + (j - 1)) at 1 by lia.
    rewrite Z.pow_add_r by lia. change (2 ^ 1) with 2.
    rewrite Z.mul_comm, Z.div_mul by lia. reflexivity. }
  rewrite E. destruct (decide (2 ^ (j - 1) = 0)) as [Hz|]; [|reflexivity].
  pose proof (Z.pow_pos_nonneg 2 (j - 1)). lia.
Qed.

(** In a table of [2^j] slots two keys whose hashes agree on the low [j]
    bits fall into the same bucket and, under every hash function, into
    the same slot. *)
Lemma pow2_same_slot (r0 j k1 k2 : Z) :
  1 <= j -> hasher k1 mod 2 ^ j = hasher k2 mod 2 ^ j ->
  outer_hash r0 (2 ^ (j - 1)) k1 = outer_hash r0 (2 ^ (j - 1)) k2 /\
  forall r, table_hash r0 (2 ^ j) r k1 = table_hash r0 (2 ^ j) r k2.
Proof.
  intros Hj Heq. unfold outer_hash, table_hash. split.
  - rewrite !(lxor_mod_pow2 _ r0) by lia. f_equal.
    rewrite <- (mod_pow2_le (hasher k1) (j - 1) j) by lia.
    rewrite <- (mod_pow2_le (hasher k2) (j - 1) j) by lia.
    rewrite Heq. reflexivity.
  - intros r. rewrite !(lxor_mod_pow2 _ r), !(lxor_mod_pow2 _ r0) by lia.
    rewrite Heq. reflexivity.
Qed.

Lemma Build_pow2_injective (rand_source : Z -> nat -> Z)
    (sort_Sort : bucketVector -> bucketVector) (now : Z) (calls : list call)
    (c : CHD) (j k1 k2 : Z) :
  (forall b, sort_Sort b ≡ₚ b) ->
  Build rand_source sort_Sort now (run calls) = Ok (Some c, None) ->
  len (added calls) = 2 ^ j -> 1 <= j <= 16 ->
  k1 ∈ (added calls).*1 -> k2 ∈ (added calls).*1 ->
  hasher k1 mod 2 ^ j = hasher k2 mod 2 ^ j ->
  k1 = k2.
Proof.
  intros Hperm H Hn Hj H1 H2 Heq.
  destruct (Build_Inv _ _ _ _ _ Hperm H)
    as (r0 & placed & h & tb & HInv & Hp & _ & -> & Hl).
  rewrite Hn, bucket_count_pow2 in HInv, Hl by lia.
  destruct HInv as (_ & _ & Hplaced & _). rewrite Forall_forall in Hplaced.
  apply list_elem_of_fmap in H1 as ([k1' v1] & -> & H1).
  apply list_elem_of_fmap in H2 as ([k2' v2] & -> & H2).
  rewrite <- Hp in H1, H2. cbn [fst] in *.
  destruct (Hplaced _ H1) as (ri1 & ra & Hi1 & Hr1 & Hk1 & _).
  destruct (Hplaced _ H2) as (ri2 & rb & Hi2 & Hr2 & Hk2 & _).
  cbn [fst] in *.
  destruct (pow2_same_slot r0 j k1' k2' ltac:(lia) Heq) as [Eo Et].
  rewrite Eo, Hi2 in Hi1. injection Hi1 as Hri.
  cbn [chd_of chd_r] in Hl. unfold len in Hl.
  assert (Hpow : 2 ^ (j - 1) <= 2 ^ 15) by (apply Z.pow_le_mono_r; lia).
  pose proof (lookup_lt_Some _ _ _ Hr1). pose proof (lookup_lt_Some _ _ _ Hr2).
  rewrite !uint16_small in Hri by lia.
  assert (ri1 = ri2) by lia. subst ri2.
  rewrite Hr2 in Hr1. injection Hr1 as ->.
  rewrite Et, Hk2 in Hk1. congruence.
Qed.

(** X6.  When the number of pairs is a power of two, [2^j] with [j] from 1 to
    16, and two distinct added keys have hashes that agree on their low
    [j] bits, [Build] cannot succeed, whatever the seed and the random
    source: XOR with a hash function does not separate the two keys.  With
    distinct keys it gives up with the error of the retry loop. *)
Theorem Build_pow2_collision (rand_source : Z -> nat -> Z)
    (sort_Sort : bucketVector -> bucketVector) (now : Z) (calls : list call)
    (j k1 k2 : Z) :
  (forall b, sort_Sort b ≡ₚ b) ->
  len (added calls) = 2 ^ j -> 1 <= j <= 16 ->
  k1 ∈ (added calls).*1 -> k2 ∈ (added calls).*1 -> k1 <> k2 ->
  hasher k1 mod 2 ^ j = hasher k2 mod 2 ^ j ->
  exists e,
    Build rand_source sort_Sort now (run calls) = Ok (None, Some e) /\
    (NoDup (added calls).*1 ->
     exists i ks, e = ErrNoHashFunction i (2 ^ (j - 1)) (len ks) ks).
Proof.
  intros Hperm Hn Hj H1 H2 Hne Heq.
  destruct (Build_outcome_run rand_source sort_Sort now calls Hperm)
    as [(c & Hc & _)|[(k & Hk & Hnd)|(i & ks & Hks & _)]].
  - exfalso. apply Hne.
    exact (Build_pow2_injective _ _ _ _ _ _ _ _ Hperm Hc Hn Hj H1 H2 Heq).
  - exists (ErrDuplicateKey k). split; [exact Hk|]. intros HN. contradiction.
  - rewrite Hn, bucket_count_pow2 in Hks by lia. eauto.
Qed.

Lemma Build_pow2_collision_witness :
  exists e,
    Build example_source Sort_short 0 (run [CallAdd 2 10; CallAdd 4 20])
    = Ok (None, Some e).
Proof.
  destruct (Build_pow2_collision example_source Sort_short 0
              [CallAdd 2 10; CallAdd 4 20] 1 2 4 (proj1 Sort_short_sorts))
    as (e & He & _).
  - reflexivity.
  - lia.
  - cbn [added fmap list_fmap fst]. left.
  - cbn [added fmap list_fmap fst]. right. left.
  - lia.
  - vm_compute. reflexivity.
  - exists e. exact He.
Defined.

(** ** Fitting a bucket *)

Lemma tryHash_fits (hT : chdHasher) (r0 : Z) (tb : table) (bk : bucket)
    (ri r : Z) :
  h_r hT !! 0%nat = Some r0 -> 0 < h_size hT ->
  len (t_keys tb) = h_size hT -> len (t_values tb) = h_size hT ->
  0 <= bucket_index bk < len (t_indices tb) ->
  length (bucket_keys bk) = length (bucket_values bk) ->
  NoDup (table_hash r0 (h_size hT) r <$> bucket_keys bk) ->
  Forall (fun hv => map_get (t_seen tb) hv = false)
         (table_hash r0 (h_size hT) r <$> bucket_keys bk) ->
  exists tb', tryHash hT tb bk ri r = Ok (Some tb').
Proof.
  intros Hr0 Hn Lk Lv Hidx Hlen HN HF.
  destruct (tryHash_total hT r0 tb bk ri r Hr0 Hn Lk Lv Hidx Hlen) as [o E].
  destruct o as [tb'|]; [eauto|]. exfalso.
  unfold tryHash in E.
  rewrite (tryHash_hashes_spec _ r0) in E by (auto; lia). cbn [bind] in E.
  destruct (decide _) as [_|Hno].
  - inv_bind E as indices Hind. inv_bind E as kv Hkv. destruct kv. discriminate.
  - apply Hno. split; [exact HN|].
    eapply Forall_impl; [exact HF|]. intros hv Hhv. split; [exact Hhv|].
    apply map_get_empty.
Qed.

Lemma lxor_cancel (a b : Z) : Z.lxor (Z.lxor a b) b = a.
Proof. rewrite Z.lxor_assoc, Z.lxor_nilpotent, Z.lxor_0_r. reflexivity. Qed.

(** ** What [Mmap] accepts *)

Lemma byte_of_val (c : byte) : byte_of (byte_val c) = c.
Proof.
  unfold byte_of, byte_val. pose proof (Byte.to_N_bounded c).
  rewrite Z.mod_small by lia. rewrite N2Z.id, Byte.of_to_N. reflexivity.
Qed.

Lemma le_decode_cons (c : byte) (b : list byte) :
  le_decode (c :: b) = byte_val c + 256 * le_decode b.
Proof.
  cbn [le_decode]. apply lor_shiftl_8; [apply byte_val_range|apply le_decode_nonneg].
Qed.

Lemma le_decode_bound (b : list byte) :
  0 <= le_decode b < 2 ^ (8 * Z.of_nat (length b)).
Proof.
  induction b as [|c b IH]; [cbn; lia|].
  rewrite le_decode_cons. pose proof (byte_val_range c).
  replace (8 * Z.of_nat (length (c :: b))) with (8 + 8 * Z.of_nat (length b))
    by (cbn [length]; lia).
  rewrite Z.pow_add_r by lia. change (2 ^ 8) with 256. nia.
Qed.

Lemma le_encode_decode (b : list byte) : le_encode (length b) (le_decode b) = b.
Proof.
  induction b as [|c b IH]; [reflexivity|].
  cbn [length le_encode]. rewrite le_decode_cons.
  pose proof (byte_val_range c). f_equal.
  - rewrite <- (byte_of_val c) at 2. apply byte_of_eq_mod.
    replace (byte_val c + 256 * le_decode b)
      with (byte_val c + le_decode b * 256) by lia.
    apply Z.mod_add. lia.
  - rewrite Z.shiftr_div_pow2 by lia. change (2 ^ 8) with 256.
    replace (byte_val c + 256 * le_decode b)
      with (byte_val c + le_decode b * 256) by lia.
    rewrite Z.div_add by lia. rewrite Z.div_small by lia. exact IH.
Qed.

Lemma decode_array_inv (w n : nat) :
  forall buf : list byte,
  length buf = (n * w)%nat ->
  flat_map (le w) (decode_array w n buf) = buf /\
  length (decode_array w n buf) = n /\
  Forall (fun v => 0 <= v < 2 ^ (8 * Z.of_nat w)) (decode_array w n buf).
Proof.
  induction n as [|n IH]; intros buf Hlen.
  - destruct buf; [|discriminate]. repeat split. constructor.
  - cbn [decode_array flat_map length].
    assert (Ht : length (take w buf) = w) by (rewrite length_take; lia).
    destruct (IH (drop w buf)) as (E & L & F); [rewrite length_drop; lia|].
    split; [|split].
    + rewrite E. rewrite <- le_encode_le.
      pose proof (le_encode_decode (take w buf)) as Hed. rewrite Ht in Hed.
      rewrite Hed. apply take_drop.
    + rewrite L. reflexivity.
    + constructor; [|exact F].
      pose proof (le_decode_bound (take w buf)) as Hbd. rewrite Ht in Hbd.
      exact Hbd.
Qed.

Lemma sr_read_at_Ok (pre rest : list byte) (size : Z) (buf : list byte)
    (rd : sliceReader) :
  0 <= size -> len pre + size < 2 ^ 64 ->
  sr_read (reader_at pre rest) size = Ok (buf, rd) ->
  exists rest', rest = buf ++ rest' /\ len buf = size /\
                rd = reader_at (pre ++ buf) rest'.
Proof.
  intros Hs Hb. unfold sr_read, reader_at. cbn [sr_b sr_pos].
  assert (E : uint64 (len pre + size) = len pre + size).
  { unfold uint64. apply Z.mod_small. unfold len in *. lia. }
  rewrite E.
  destruct (decide (len pre <= len pre + size <= len (pre ++ rest))) as [Hr|];
    [|discriminate].
  intros H. injection H as <- <-.
  rewrite len_app in Hr.
  replace (Z.to_nat (len pre + size - len pre)) with (Z.to_nat size) by lia.
  replace (Z.to_nat (len pre)) with (length pre) by (unfold len; lia).
  rewrite drop_app_length.
  exists (drop (Z.to_nat size) rest).
  split; [symmetry; apply take_drop|].
  assert (Hl : len (take (Z.to_nat size) rest) = size).
  { unfold len in *. rewrite length_take. lia. }
  split; [exact Hl|].
  rewrite <- app_assoc, take_drop, len_app, Hl. reflexivity.
Qed.

Lemma ReadInt_at_Ok (pre rest : list byte) (v : Z) (rd : sliceReader) :
  len pre + 4 < 2 ^ 64 ->
  ReadInt (reader_at pre rest) = Ok (v, rd) ->
  exists rest', rest = le 4 v ++ rest' /\ 0 <= v < 2 ^ 32 /\
                rd = reader_at (pre ++ le 4 v) rest'.
Proof.
  intros Hb H. unfold ReadInt in H. inv_bind H as x Hx. destruct x as [buf rd'].
  injection H as <- <-.
  apply sr_read_at_Ok in Hx as (rest' & -> & Hl & ->); [|lia|lia].
  assert (Hl' : length buf = 4%nat) by (unfold len in Hl; lia).
  assert (E : le 4 (le_decode buf) = buf).
  { rewrite <- le_encode_le. rewrite <- Hl'. apply le_encode_decode. }
  exists rest'. rewrite E. split; [reflexivity|]. split; [|reflexivity].
  pose proof (le_decode_bound buf) as Hbd. rewrite Hl' in Hbd. exact Hbd.
Qed.

Lemma ReadUint64Array_at_Ok (pre rest : list byte) (n : Z) (l : list Z)
    (rd : sliceReader) :
  0 <= n < 2 ^ 32 -> len pre + 8 * n < 2 ^ 64 ->
  ReadUint64Array (reader_at pre rest) n = Ok (l, rd) ->
  exists rest', rest = flat_map (le 8) l ++ rest' /\ len l = n /\
                Forall is_uint64 l /\
                rd = reader_at (pre ++ flat_map (le 8) l) rest'.
Proof.
  intros Hn Hb H. unfold ReadUint64Array in H.
  inv_bind H as x Hx. destruct x as [buf rd']. injection H as <- <-.
  assert (E : uint64 (n * 8) = n * 8) by (unfold uint64; apply Z.mod_small; lia).
  rewrite E in Hx.
  apply sr_read_at_Ok in Hx as (rest' & -> & Hl & ->); [|lia|lia].
  destruct (decode_array_inv 8 (Z.to_nat n) buf) as (Ef & Ll & F);
    [unfold len in Hl; lia|].
  exists rest'. rewrite Ef. split; [reflexivity|].
  split; [unfold len; lia|]. split; [exact F|reflexivity].
Qed.

Lemma ReadUint16Array_at_Ok (pre rest : list byte) (n : Z) (l : list Z)
    (rd : sliceReader) :
  0 <= n < 2 ^ 32 -> len pre + 2 * n < 2 ^ 64 ->
  ReadUint16Array (reader_at pre rest) n = Ok (l, rd) ->
  exists rest', rest = flat_map (le 2) l ++ rest' /\ len l = n /\
                Forall is_uint16 l /\
                rd = reader_at (pre ++ flat_map (le 2) l) rest'.
Proof.
  intros Hn Hb H. unfold ReadUint16Array in H.
  inv_bind H as x Hx. destruct x as [buf rd']. injection H as <- <-.
  assert (E : uint64 (n * 2) = n * 2) by (unfold uint64; apply Z.mod_small; lia).
  rewrite E in Hx.
  apply sr_read_at_Ok in Hx as (rest' & -> & Hl & ->); [|lia|lia].
  destruct (decode_array_inv 2 (Z.to_nat n) buf) as (Ef & Ll & F);
    [unfold len in Hl; lia|].
  exists rest'. rewrite Ef. split; [reflexivity|].
  split; [unfold len; lia|]. split; [exact F|reflexivity].
Qed.

Lemma len_nonneg {A} (l : list A) : 0 <= len l.
Proof. unfold len. lia. Qed.

Lemma len_le4 (v : Z) : len (le 4 v) = 4.
Proof. unfold len. rewrite length_le. reflexivity. Qed.

(** Rewrite the lengths of the pieces of a file and leave the rest to [lia]. *)
Ltac len_lia :=
  repeat match goal with
  | H : context [len (_ ++ _)] |- _ => rewrite len_app in H
  | H : context [len (le 4 _)] |- _ => rewrite len_le4 in H
  | H : context [len (flat_map (le _) _)] |- _ => rewrite len_flat_map_le in H
  end;
  rewrite ?len_app, ?len_le4, ?len_flat_map_le;
  change (len (@nil byte)) with 0;
  repeat match goal with
  | |- context [len ?l] =>
      lazymatch goal with
      | _ : 0 <= len l |- _ => fail
      | _ => pose proof (len_nonneg l)
      end
  | _ : context [len ?l] |- _ =>
      lazymatch goal with
      | _ : 0 <= len l |- _ => fail
      | _ => pose proof (len_nonneg l)
      end
  end;
  lia.

Lemma Mmap_Ok_inv (b : list byte) (c : CHD) :
  len b < 2 ^ 63 -> Mmap b = Ok (Some c, None) ->
  wf_chd c /\ exists spare, b = layout c ++ spare.
Proof.
  intros Hb H. unfold Mmap in H.
  change {| sr_b := b; sr_pos := 0 |} with (reader_at [] b) in H.
  inv_bind H as x1 H1. destruct x1 as [rl rd1].
  apply ReadInt_at_Ok in H1 as (rest1 & -> & Hrl & ->); [|len_lia].
  inv_bind H as x2 H2. destruct x2 as [r rd2].
  apply ReadUint64Array_at_Ok in H2 as (rest2 & -> & Lr & Fr & ->);
    [|lia|len_lia].
  inv_bind H as x3 H3. destruct x3 as [il rd3].
  apply ReadInt_at_Ok in H3 as (rest3 & -> & Hil & ->); [|len_lia].
  inv_bind H as x4 H4. destruct x4 as [indices rd4].
  apply ReadUint16Array_at_Ok in H4 as (rest4 & -> & Li & Fi & ->);
    [|lia|len_lia].
  inv_bind H as x5 H5. destruct x5 as [el rd5].
  apply ReadInt_at_Ok in H5 as (rest5 & -> & Hel & ->); [|len_lia].
  inv_bind H as x6 H6. destruct x6 as [keys rd6].
  apply ReadUint64Array_at_Ok in H6 as (rest6 & -> & Lk & Fk & ->);
    [|lia|len_lia].
  inv_bind H as x7 H7. destruct x7 as [values rd7].
  apply ReadUint64Array_at_Ok in H7 as (rest7 & -> & Lv & Fv & ->);
    [|lia|len_lia].
  injection H as <-. split.
  - unfold wf_chd. cbn [chd_r chd_indices chd_keys chd_values].
    repeat (split; [first [assumption | unfold len in *; lia]|]).
    lia.
  - exists rest7. unfold layout. cbn [chd_r chd_indices chd_keys chd_values].
    rewrite Lr, Li, Lk, <- !app_assoc. reflexivity.
Qed.

(** X7.  [Mmap] returns a structure for exactly the byte regions that begin
    with the layout of a structure whose elements fit their types, whose
    key and value arrays are equally long and whose lengths fit the 32-bit
    counts; the structure it returns is that one, and what follows the
    layout is ignored.  On every other region it panics. *)
Theorem Mmap_accepts (b : list byte) (c : CHD) :
  len b < 2 ^ 63 ->
  (Mmap b = Ok (Some c, None) <->
   wf_chd c /\ exists spare, b = layout c ++ spare) /\
  (Mmap b = Panic <->
   ~ exists c' spare, wf_chd c' /\ b = layout c' ++ spare).
Proof.
  intros Hb. split; split.
  - apply Mmap_Ok_inv. exact Hb.
  - intros (Hwf & spare & ->). apply Mmap_layout. exact Hwf.
  - intros HP (c' & spare & Hwf & ->).
    rewrite (Mmap_layout c' spare Hwf) in HP. discriminate.
  - intros Hno. destruct (Mmap_outcome b) as [HP|[c' Hc']]; [exact HP|].
    exfalso. apply Hno. apply Mmap_Ok_inv in Hc' as (Hwf & spare & ->); eauto.
Qed.

Lemma Mmap_accepts_witness :
  Mmap (layout sample_chd ++ [x2a]) = Ok (Some sample_chd, None).
Proof.
  apply (Mmap_accepts (layout sample_chd ++ [x2a]) sample_chd).
  - vm_compute. reflexivity.
  - split; [exact sample_chd_wf|]. exists [x2a]. reflexivity.
Defined.

Lemma len_layout (c : CHD) :
  len (layout c)
  = 12 + 8 * len (chd_r c) + 2 * len (chd_indices c) + 8 * len (chd_keys c)
    + 8 * len (chd_values c).
Proof.
  unfold layout. rewrite !len_app, !len_le4, !len_flat_map_le. lia.
Qed.

Lemma Mmap_prefix (c : CHD) (k : nat) :
  wf_chd c -> (k < length (layout c))%nat -> Mmap (take k (layout c)) = Panic.
Proof.
  intros Hwf Hk. destruct (Mmap_outcome (take k (layout c))) as [HP|[c' Hc']];
    [exact HP|exfalso].
  assert (Hb : len (take k (layout c)) < 2 ^ 63).
  { pose proof (len_layout c) as HL.
    destruct Hwf as (_ & _ & _ & _ & Hlv & Lr & Li & Lk).
    unfold len in *. rewrite length_take. lia. }
  apply Mmap_Ok_inv in Hc' as (Hwf' & spare & E); [|exact Hb].
  assert (EL : layout c = layout c' ++ (spare ++ drop k (layout c))).
  { rewrite app_assoc, <- E. symmetry. apply take_drop. }
  pose proof (Mmap_layout c [] Hwf) as H1. rewrite app_nil_r in H1.
  rewrite EL, (Mmap_layout c' _ Hwf') in H1. injection H1 as ->.
  apply (f_equal length) in E. rewrite length_take, length_app in E. lia.
Qed.

(** X8.  A serialized structure that lost its end cannot be loaded: on every
    proper prefix of the layout [Mmap] panics, and so does [Read] from a
    reader that delivers such a prefix in a slice without spare capacity.
    The truncation is never reported as an error. *)
Theorem Mmap_prefix_Panic (c : CHD) (k : nat) :
  wf_chd c -> (k < length (layout c))%nat ->
  Mmap (take k (layout c)) = Panic /\
  forall R (reader : Reader R) (r : R),
    ReadAll r = (take k (layout c), [], None) -> Read r = Panic.
Proof.
  intros Hwf Hk. split; [apply Mmap_prefix; assumption|].
  intros R reader r Hr. unfold Read. rewrite Hr, app_nil_r.
  apply Mmap_prefix; assumption.
Qed.

Lemma Mmap_prefix_Panic_witness :
  Mmap (take 145 (layout sample_chd)) = Panic.
Proof.
  apply (Mmap_prefix_Panic sample_chd 145 sample_chd_wf).
  vm_compute. lia.
Defined.

(** X9.  Whatever [Mmap] accepts, [Write] gives back: serializing the structure
    decoded from a byte region reproduces the bytes it was decoded from,
    the bytes behind the layout excepted. *)
Theorem Mmap_Write (b : list byte) (c : CHD) :
  len b < 2 ^ 63 -> Mmap b = Ok (Some c, None) ->
  exists bytes spare, Write c [] = (bytes, None) /\ b = bytes ++ spare.
Proof.
  intros Hb H. apply Mmap_Ok_inv in H as (_ & spare & ->); [|exact Hb].
  exists (layout c), spare. split; [apply (Write_Buffer c [])|reflexivity].
Qed.

Lemma Mmap_Write_witness :
  exists bytes spare,
    Write sample_chd [] = (bytes, None) /\
    layout sample_chd ++ [x2a] = bytes ++ spare.
Proof.
  apply (Mmap_Write (layout sample_chd ++ [x2a]) sample_chd).
  - vm_compute. reflexivity.
  - vm_compute. reflexivity.
Defined.

(** X10.  Serialization is injective and self-delimiting on well-formed
    structures: when the output of [Write] for one structure, followed by
    any bytes, equals the output for another followed by any bytes, the
    two structures are equal and so are the bytes that follow. *)
Theorem Write_injective (c1 c2 : CHD) (b1 b2 s1 s2 : list byte) :
  wf_chd c1 -> wf_chd c2 ->
  Write c1 [] = (b1, None) -> Write c2 [] = (b2, None) ->
  b1 ++ s1 = b2 ++ s2 ->
  c1 = c2 /\ s1 = s2.
Proof.
  intros Hwf1 Hwf2 H1 H2 E.
  rewrite Write_Buffer in H1, H2. injection H1 as <-. injection H2 as <-.
  cbn [app] in E.
  pose proof (Mmap_layout c1 s1 Hwf1) as M1.
  rewrite E, (Mmap_layout c2 s2 Hwf2) in M1. injection M1 as <-.
  split; [reflexivity|]. exact (app_inv_head _ _ _ E).
Qed.

Lemma Write_injective_witness :
  sample_chd = sample_chd /\ [x01] = [x01].
Proof.
  apply (Write_injective sample_chd sample_chd (layout sample_chd)
           (layout sample_chd) [x01] [x01] sample_chd_wf sample_chd_wf);
    vm_compute; reflexivity.
Defined.

(** ** [tryHash] as a decision *)

Lemma Table_hashes (h : chdHasher) (r0 r : Z) (ks hashes : list Z) :
  h_r h !! 0%nat = Some r0 ->
  Forall2 (fun k hv => Table h r k = Ok hv) ks hashes ->
  hashes = table_hash r0 (h_size h) r <$> ks.
Proof.
  intros Hr0. induction 1 as [|k hv ks hashes HT _ IH]; [reflexivity|].
  cbn [fmap list_fmap]. f_equal; [|exact IH].
  apply Table_Ok in HT as (r0' & Hr0' & _ & ->). congruence.
Qed.

(** X11.  [tryHash] answers [true] exactly when the hash function [r] sends the
    keys of the bucket to pairwise distinct slots none of which is taken,
    and [false] otherwise; it does not panic on a bucket with as many
    values as keys whose index lies within the bucket map. *)
Theorem tryHash_true_iff (hT : chdHasher) (r0 : Z) (tb : table) (bk : bucket)
    (ri r : Z) :
  h_r hT !! 0%nat = Some r0 -> 0 < h_size hT ->
  len (t_keys tb) = h_size hT -> len (t_values tb) = h_size hT ->
  0 <= bucket_index bk < len (t_indices tb) ->
  length (bucket_keys bk) = length (bucket_values bk) ->
  let slots := table_hash r0 (h_size hT) r <$> bucket_keys bk in
  ((exists tb', tryHash hT tb bk ri r = Ok (Some tb')) <->
   NoDup slots /\ Forall (fun s => map_get (t_seen tb) s = false) slots) /\
  (tryHash hT tb bk ri r = Ok None <->
   ~ (NoDup slots /\ Forall (fun s => map_get (t_seen tb) s = false) slots)).
Proof.
  intros Hr0 Hn Lk Lv Hidx Hlen slots.
  assert (Hto : (exists tb', tryHash hT tb bk ri r = Ok (Some tb')) ->
                NoDup slots /\ Forall (fun s => map_get (t_seen tb) s = false) slots).
  { intros [tb' H]. apply tryHash_Some in H as (hashes & HT & HF & HN & _).
    apply (Table_hashes _ r0) in HT; [|exact Hr0]. subst hashes. auto. }
  assert (Hfrom : NoDup slots /\ Forall (fun s => map_get (t_seen tb) s = false) slots ->
                  exists tb', tryHash hT tb bk ri r = Ok (Some tb')).
  { intros [HN HF]. eapply tryHash_fits; eauto. }
  split; [split; assumption|]. split.
  - intros HNone Hfit. destruct (Hfrom Hfit) as [tb' E]. congruence.
  - intros Hno.
    destruct (tryHash_total hT r0 tb bk ri r Hr0 Hn Lk Lv Hidx Hlen) as [[tb'|] E];
      [|exact E].
    exfalso. apply Hno, Hto. eauto.
Qed.

Lemma tryHash_true_iff_witness :
  exists tb', tryHash example_hasher example_table example_bucket 0 7 = Ok (Some tb').
Proof.
  apply (tryHash_true_iff example_hasher 7 example_table example_bucket 0 7);
    try reflexivity; try (vm_compute; intuition congruence).
  split.
  - vm_compute. repeat constructor; intros H; inversion H as [|? ? ? H']; inversion H'.
  - repeat constructor.
Defined.

(** X12.  When [tryHash] answers [true] it has put every pair of the bucket
    into the slot of its key, which was free, has marked that slot as
    taken and has recorded [ri] for the bucket; every slot that was taken
    before keeps its key, its value and its mark. *)
Theorem tryHash_places (hT : chdHasher) (r0 : Z) (tb tb' : table) (bk : bucket)
    (ri r : Z) :
  h_r hT !! 0%nat = Some r0 ->
  tryHash hT tb bk ri r = Ok (Some tb') ->
  (forall (j : nat) (k : Z), bucket_keys bk !! j = Some k ->
     let s := table_hash r0 (h_size hT) r k in
     map_get (t_seen tb) s = false /\
     t_keys tb' !! Z.to_nat s = Some k /\
     t_values tb' !! Z.to_nat s = bucket_values bk !! j /\
     map_get (t_seen tb') s = true) /\
  (forall s, 0 <= s -> map_get (t_seen tb) s = true ->
     t_keys tb' !! Z.to_nat s = t_keys tb !! Z.to_nat s /\
     t_values tb' !! Z.to_nat s = t_values tb !! Z.to_nat s /\
     map_get (t_seen tb') s = true) /\
  t_indices tb' = <[Z.to_nat (bucket_index bk) := ri]> (t_indices tb).
Proof.
  intros Hr0 H.
  apply tryHash_Some in H as (hashes & HT & HF & HN & Eseen & _ & Eind & Hfill).
  pose proof (Table_hashes _ r0 _ _ _ Hr0 HT) as Eh.
  apply fill_table_spec in Hfill as (_ & _ & Hin & Hout); [|lia|exact HN].
  rewrite Forall_forall in HF.
  split; [|split; [|exact Eind]].
  - intros j k Hj s.
    assert (Hs : hashes !! j = Some s).
    { rewrite Eh, list_lookup_fmap, Hj. reflexivity. }
    destruct (Hin _ _ Hs) as (_ & _ & k' & v' & Hk' & Hv' & Hkeys & Hvalues).
    change (Z.to_nat 0 + j)%nat with j in Hk', Hv'.
    rewrite Hj in Hk'. injection Hk' as <-.
    split; [apply HF; apply list_elem_of_lookup; eauto|].
    split; [exact Hkeys|]. split; [congruence|].
    rewrite Eseen. apply mark_seen_spec. left. apply list_elem_of_lookup. eauto.
  - intros s Hs Hseen.
    destruct (Hout (Z.to_nat s)) as [Ek Ev].
    { intros hv Hhv Heq. pose proof (HF _ Hhv) as Hfree.
      apply list_elem_of_lookup in Hhv as [j Hj].
      destruct (Hin _ _ Hj) as (Hr & _).
      assert (hv = s) by lia. congruence. }
    split; [exact Ek|]. split; [exact Ev|].
    rewrite Eseen. apply mark_seen_spec. auto.
Qed.

Lemma tryHash_places_witness :
  exists tb',
    tryHash example_hasher example_table example_bucket 0 7 = Ok (Some tb') /\
    t_indices tb' = [unassigned; 0].
Proof.
  destruct (tryHash example_hasher example_table example_bucket 0 7)
    as [[tb'|]| |] eqn:H; try (vm_compute in H; discriminate).
  exists tb'. split; [reflexivity|].
  apply (tryHash_places example_hasher 7 example_table tb' example_bucket 0 7
           eq_refl H).
Defined.

(** ** The [sort.Interface] of [bucketVector] *)

Lemma bv_Less_population (b : bucketVector) (i j : nat) :
  bv_Less b i j = true <->
  exists x y, b !! i = Some x /\ b !! j = Some y /\
              (length (bucket_keys y) < length (bucket_keys x))%nat.
Proof.
  unfold bv_Less, bucket_less, len.
  destruct (b !! i) as [x|], (b !! j) as [y|]; split;
    try discriminate; try (intros (? & ? & ? & ? & _); discriminate).
  - intros H. apply bool_decide_eq_true in H. exists x, y. repeat split. lia.
  - intros (x' & y' & Hx & Hy & Hlt). injection Hx as <-. injection Hy as <-.
    apply bool_decide_eq_true. lia.
Qed.

(** X13.  On indices below [Len], [Less] returns without a panic whether
    the first bucket has more keys than the second, and is a strict weak
    ordering, as [sort.Sort] requires: irreflexive, transitive, and being
    neither less nor greater is transitive.  With an index at or past
    [Len] it panics. *)
Theorem bv_Less_strict_weak (b : bucketVector) (i j k : nat) :
  (i < bv_Len b)%nat -> (j < bv_Len b)%nat -> (k < bv_Len b)%nat ->
  (exists x y, b !! i = Some x /\ b !! j = Some y /\
     bv_Less_checked b i j
     = Ok (bool_decide (length (bucket_keys y) < length (bucket_keys x))%nat)) /\
  bv_Less_checked b i j = Ok (bv_Less b i j) /\
  bv_Less_checked b i i = Ok false /\
  (bv_Less_checked b i j = Ok true -> bv_Less_checked b j k = Ok true ->
   bv_Less_checked b i k = Ok true) /\
  (bv_Less_checked b i j = Ok false -> bv_Less_checked b j i = Ok false ->
   bv_Less_checked b j k = Ok false -> bv_Less_checked b k j = Ok false ->
   bv_Less_checked b i k = Ok false /\ bv_Less_checked b k i = Ok false) /\
  (forall p q, (bv_Len b <= p)%nat \/ (bv_Len b <= q)%nat ->
     bv_Less_checked b p q = Panic).
Proof.
  unfold bv_Len. intros Hi Hj Hk.
  destruct (lookup_lt_is_Some_2 b i Hi) as [x Hx].
  destruct (lookup_lt_is_Some_2 b j Hj) as [y Hy].
  destruct (lookup_lt_is_Some_2 b k Hk) as [z Hz].
  assert (Hless : forall u v : bucket,
            bucket_less u v
            = bool_decide (length (bucket_keys v) < length (bucket_keys u))%nat).
  { intros u v. unfold bucket_less, len. apply bool_decide_ext. lia. }
  unfold bv_Less_checked, bv_Less. rewrite Hx, Hy, Hz, !Hless.
  split; [exists x, y; auto|]. split; [reflexivity|].
  split; [f_equal; apply bool_decide_eq_false; lia|].
  split; [|split].
  - intros H1 H2. injection H1 as H1. injection H2 as H2. f_equal.
    apply bool_decide_eq_true in H1, H2. apply bool_decide_eq_true. lia.
  - intros H1 H2 H3 H4.
    injection H1 as H1. injection H2 as H2. injection H3 as H3. injection H4 as H4.
    apply bool_decide_eq_false in H1, H2, H3, H4.
    split; f_equal; apply bool_decide_eq_false; lia.
  - intros p q [Hp|Hq].
    + rewrite (lookup_ge_None_2 b p Hp). reflexivity.
    + rewrite (lookup_ge_None_2 b q Hq). destruct (b !! p); reflexivity.
Qed.

Lemma bv_Less_strict_weak_witness :
  bv_Less_checked [example_bucket; example_bucket_empty] 0 1 = Ok true /\
  bv_Less_checked [example_bucket; example_bucket_empty] 0 0 = Ok false /\
  bv_Less_checked [example_bucket; example_bucket_empty] 0 2 = Panic.
Proof.
  destruct (bv_Less_strict_weak [example_bucket; example_bucket_empty] 0 1 0)
    as (_ & H1 & H2 & _ & _ & H3); [simpl; lia|simpl; lia|simpl; lia|].
  split; [exact H1|]. split; [exact H2|]. apply H3. right. simpl. lia.
Defined.

(** X14.  [Swap] exchanges the two buckets and leaves every other position and
    the length alone; swapping twice restores the vector. *)
Theorem bv_Swap_exchange (b : bucketVector) (i j : nat) :
  (i < bv_Len b)%nat -> (j < bv_Len b)%nat ->
  bv_Swap b i j !! i = b !! j /\
  bv_Swap b i j !! j = b !! i /\
  (forall p, p <> i -> p <> j -> bv_Swap b i j !! p = b !! p) /\
  bv_Len (bv_Swap b i j) = bv_Len b /\
  bv_Swap (bv_Swap b i j) i j = b.
Proof.
  unfold bv_Len. intros Hi Hj.
  destruct (lookup_lt_is_Some_2 b i Hi) as [x Hx].
  destruct (lookup_lt_is_Some_2 b j Hj) as [y Hy].
  assert (Ei : bv_Swap b i j !! i = Some y).
  { unfold bv_Swap. rewrite Hx, Hy.
    apply list_lookup_insert_eq. rewrite length_insert. exact Hi. }
  assert (Ej : bv_Swap b i j !! j = Some x).
  { unfold bv_Swap. rewrite Hx, Hy. destruct (decide (i = j)) as [->|Hne].
    - rewrite list_lookup_insert_eq by (rewrite length_insert; exact Hj). congruence.
    - rewrite list_lookup_insert_ne by exact Hne.
      apply list_lookup_insert_eq. exact Hj. }
  assert (Ep : forall p, p <> i -> p <> j -> bv_Swap b i j !! p = b !! p).
  { intros p Hpi Hpj. unfold bv_Swap. rewrite Hx, Hy.
    rewrite !list_lookup_insert_ne by auto. reflexivity. }
  split; [congruence|]. split; [congruence|]. split; [exact Ep|]. split.
  - unfold bv_Swap. rewrite Hx, Hy, !length_insert. reflexivity.
  - apply list_eq. intros p. unfold bv_Swap at 1. rewrite Ei, Ej.
    destruct (decide (p = i)) as [->|Hpi].
    + rewrite list_lookup_insert_eq; [congruence|].
      rewrite length_insert. apply lookup_lt_Some in Ei. exact Ei.
    + rewrite list_lookup_insert_ne by auto.
      destruct (decide (p = j)) as [->|Hpj].
      * rewrite list_lookup_insert_eq; [congruence|].
        apply lookup_lt_Some in Ej. exact Ej.
      * rewrite list_lookup_insert_ne by auto. apply Ep; assumption.
Qed.

Lemma bv_Swap_exchange_witness :
  bv_Swap [example_bucket; example_bucket_empty] 0 1 !! 0%nat
  = [example_bucket; example_bucket_empty] !! 1%nat.
Proof.
  apply (bv_Swap_exchange [example_bucket; example_bucket_empty] 0 1);
    vm_compute; lia.
Defined.

(** ** Unassigned buckets *)

Lemma tryHash_idx (r0 m : Z) (ks : list Z) (placed : list (Z * Z))
    (hT : chdHasher) (tb tb' : table) (bk : bucket) (ri r : Z) :
  idx_ok r0 m placed tb -> bucket_ok r0 m ks bk -> bucket_keys bk <> [] ->
  tryHash hT tb bk ri r = Ok (Some tb') ->
  idx_ok r0 m (placed ++ bucket_pairs bk) tb'.
Proof.
  intros Hidx [Hlen Hbok] Hne H.
  apply tryHash_Some in H as (_ & _ & _ & _ & _ & _ & Eind & _).
  intros i x Hx. rewrite Eind in Hx.
  destruct (decide (i = Z.to_nat (bucket_index bk))) as [->|Hi].
  - right. destruct (bucket_keys bk) as [|k ks'] eqn:Ek; [contradiction|].
    destruct (bucket_values bk) as [|v vs'] eqn:Ev; [discriminate|].
    exists (k, v). split.
    + apply elem_of_app. right. unfold bucket_pairs. rewrite Ek, Ev. left.
    + cbn [fst]. destruct (Hbok Hne k) as [[_ ->] _]; [left|reflexivity].
  - rewrite list_lookup_insert_ne in Hx by auto.
    destruct (Hidx _ _ Hx) as [->|(kv & Hkv & E)]; [auto|].
    right. exists kv. split; [apply elem_of_app; auto|exact E].
Qed.

Lemma place_bucket_idx (rand_source : Z -> nat -> Z) (r0 m : Z) (ks : list Z)
    (placed : list (Z * Z)) (h h' : chdHasher) (tb tb' : table) (bk : bucket)
    (nb i : Z) :
  idx_ok r0 m placed tb -> bucket_ok r0 m ks bk ->
  place_bucket rand_source nb i (h, tb) bk = Ok (h', tb') ->
  idx_ok r0 m (placed ++ bucket_pairs bk) tb'.
Proof.
  intros Hidx Hbok H. unfold place_bucket in H.
  destruct (decide (len (bucket_keys bk) = 0)) as [Hz|Hnz].
  - injection H as <- <-.
    assert (E : bucket_keys bk = []).
    { destruct (bucket_keys bk); [reflexivity|]. unfold len in Hz. simpl in Hz. lia. }
    unfold bucket_pairs. rewrite E. simpl. rewrite app_nil_r. exact Hidx.
  - assert (Hne : bucket_keys bk <> []).
    { intros E. rewrite E in Hnz. apply Hnz. reflexivity. }
    inv_bind H as t Ht. destruct t as [tb1|].
    + injection H as <- <-.
      apply try_existing_Some in Ht as (j & r & _ & Htry).
      eapply tryHash_idx; eauto.
    + inv_bind H as x Hx. destruct x as [h1|[h1 tb1]]; [discriminate|].
      injection H as <- <-.
      apply (retry_spec (fun _ => True)) in Hx; [|auto|exact I].
      destruct Hx as (s' & _ & Hx).
      apply try_new_spec in Hx as (hT & r & _ & _ & _ & Htry & _).
      eapply tryHash_idx; eauto.
Qed.

Lemma place_buckets_idx (rand_source : Z -> nat -> Z) (r0 m : Z) (ks : list Z)
    (nb : Z) (L : bucketVector) :
  forall (i : Z) (placed : list (Z * Z)) (h h' : chdHasher) (tb tb' : table),
  idx_ok r0 m placed tb ->
  Forall (bucket_ok r0 m ks) L ->
  place_buckets rand_source nb i (h, tb) L = Ok (h', tb') ->
  idx_ok r0 m (placed ++ (L ≫= bucket_pairs)) tb'.
Proof.
  induction L as [|bk L IH]; intros i placed h h' tb tb' Hidx HL H;
    cbn [place_buckets] in H.
  - injection H as <- <-.
    change (@nil bucket ≫= bucket_pairs) with (@nil (Z * Z)).
    rewrite app_nil_r. exact Hidx.
  - inv_bind H as st Hst. destruct st as [h1 tb1].
    apply Forall_cons in HL as [Hbk HL].
    rewrite bind_cons, app_assoc.
    eapply IH; [|exact HL|exact H].
    eapply place_bucket_idx; eauto.
Qed.

Lemma Build_body_idx (rand_source : Z -> nat -> Z)
    (sort_Sort : bucketVector -> bucketVector) (now : Z) (b : CHDBuilder) (c : CHD) :
  (forall b, sort_Sort b ≡ₚ b) ->
  length (b_keys b) = length (b_values b) ->
  Build_body rand_source sort_Sort now b = Ok c ->
  let m := bucket_count (len (b_keys b)) in
  let r0 := uint64 (rand_source (if b_seeded b then b_seed b else now) O) in
  chd_r c !! 0%nat = Some r0 /\
  forall i x, chd_indices c !! i = Some x ->
    x = unassigned \/
    exists k, k ∈ b_keys b /\ Z.to_nat (outer_hash r0 m k) = i.
Proof.
  intros Hperm Hlen H m r0. unfold Build_body in H.
  inv_bind H as bs Hbs. inv_bind H as st Hst. destruct st as [h tb].
  injection H as <-. cbn [chd_r chd_indices].
  apply partition_spec in Hbs as (HN & Hbl & Hpart & Hpp); [|exact Hlen].
  set (n := len (b_keys b)) in *. fold m r0 in Hpart, Hbl.
  assert (Hn : 0 <= n) by (unfold n, len; lia).
  assert (Hm : 0 < m) by (apply bucket_count_pos; exact Hn).
  assert (Hlens : Forall (fun bk => length (bucket_keys bk) = length (bucket_values bk))
                         (sort_Sort bs)).
  { apply Forall_forall. intros bk Hbk. rewrite Hperm in Hbk.
    apply list_elem_of_lookup in Hbk as [p Hp]. apply (Hpart _ _ Hp). }
  assert (Hok : Forall (bucket_ok r0 m (b_keys b)) (sort_Sort bs)).
  { apply Forall_forall. intros bk Hbk. rewrite Hperm in Hbk.
    apply list_elem_of_lookup in Hbk as [p Hp].
    destruct (Hpart _ _ Hp) as (Hl & Hidx & Hkeys).
    split; [exact Hl|]. intros Hne k. rewrite Hkeys, (Hidx Hne). tauto. }
  split.
  - eapply (place_buckets_Inv _ r0 n m (b_keys b) _ _ _ []) in Hst as [HInv _].
    + destruct HInv as ((_ & _ & _ & Hr0) & _). exact Hr0.
    + apply Inv_init; assumption.
    + exact Hok.
    + constructor.
    + simpl. rewrite <- bind_bucket_keys by exact Hlens.
      rewrite Hperm, Hpp, fst_zip by lia. exact HN.
  - eapply (place_buckets_idx _ r0 m (b_keys b) _ _ _ []) in Hst.
    + intros i x Hx. destruct (Hst _ _ Hx) as [->|(kv & Hkv & E)]; [auto|].
      right. exists kv.1. split; [|exact E].
      rewrite app_nil_l, Hperm, Hpp in Hkv.
      apply (list_elem_of_fmap_2 fst) in Hkv.
      rewrite fst_zip in Hkv by lia. exact Hkv.
    + intros i x Hx. cbn [t_indices] in Hx.
      apply lookup_replicate in Hx as [-> _]. auto.
    + exact Hok.
Qed.

(** X15.  In a built structure with fewer than 131070 pairs, the entry of a
    bucket in the bucket map is [unassigned] exactly when no added key
    falls into that bucket; every other entry is the index of a hash
    function of the structure. *)
Theorem Build_unassigned_iff (rand_source : Z -> nat -> Z)
    (sort_Sort : bucketVector -> bucketVector) (now : Z) (calls : list call)
    (c : CHD) :
  (forall b, sort_Sort b ≡ₚ b) ->
  Build rand_source sort_Sort now (run calls) = Ok (Some c, None) ->
  len (added calls) < 131070 ->
  exists r0,
    chd_r c !! 0%nat = Some r0 /\
    forall (i : nat) (x : Z), chd_indices c !! i = Some x ->
      (x = unassigned <->
       forall k, k ∈ (added calls).*1 ->
                 outer_hash r0 (len (chd_indices c)) k <> Z.of_nat i) /\
      (x <> unassigned -> 0 <= x < len (chd_r c)).
Proof.
  intros Hperm H Hsmall.
  assert (Hfew : len (chd_r c) < 2 ^ 16)
    by (eapply Build_few_functions; eauto).
  destruct (Build_Inv _ _ _ _ _ Hperm H)
    as (r0 & placed & h & tb & HInv & Hp & _ & Ec & _).
  pose proof H as Hb. apply Build_Ok_body in Hb as [Hb _].
  apply Build_body_idx in Hb as [Hr0 Hidx]; [|exact Hperm|apply run_lengths].
  rewrite run_seed, run_keys in *. unfold len in Hidx at 1.
  rewrite length_fmap in Hidx. fold (len (added calls)) in Hidx.
  destruct HInv as ((_ & _ & Hm & Hr0') & (_ & _ & Li) & Hplaced & _).
  subst c. cbn [chd_of chd_r chd_indices] in *.
  rewrite Hr0' in Hr0. injection Hr0 as Er0.
  rewrite <- Er0 in Hidx. rewrite Li.
  exists r0. split; [exact Hr0'|]. intros i x Hx.
  assert (Hused : forall k, k ∈ (added calls).*1 ->
            outer_hash r0 (bucket_count (len (added calls))) k = Z.of_nat i ->
            0 <= x < len (h_r h)).
  { intros k Hk Ho. apply list_elem_of_fmap in Hk as ([k' v] & -> & Hkv).
    rewrite <- Hp in Hkv. rewrite Forall_forall in Hplaced.
    destruct (Hplaced _ Hkv) as (ri & r & Hi & Hr & _). cbn [fst] in *.
    rewrite Ho, Nat2Z.id, Hx in Hi. injection Hi as ->.
    apply lookup_lt_Some in Hr. unfold len in *.
    rewrite uint16_small by lia. lia. }
  split; [split|].
  - intros -> k Hk Ho. specialize (Hused k Hk Ho). unfold unassigned in Hused. lia.
  - intros Hnone. destruct (Hidx _ _ Hx) as [->|(k & Hk & Ho)]; [reflexivity|].
    exfalso. apply (Hnone k Hk).
    pose proof (outer_hash_range r0 _ k Hm). lia.
  - intros Hne. destruct (Hidx _ _ Hx) as [->|(k & Hk & Ho)]; [contradiction|].
    apply (Hused k Hk). pose proof (outer_hash_range r0 _ k Hm). lia.
Qed.

Lemma Build_unassigned_iff_witness :
  exists r0,
    chd_r sample_chd !! 0%nat = Some r0 /\
    forall (i : nat) (x : Z), chd_indices sample_chd !! i = Some x ->
      (x = unassigned <->
       forall k, k ∈ (added sample_calls).*1 ->
                 outer_hash r0 (len (chd_indices sample_chd)) k <> Z.of_nat i) /\
      (x <> unassigned -> 0 <= x < len (chd_r sample_chd)).
Proof.
  apply (Build_unassigned_iff example_source Sort_short 0 sample_calls sample_chd
           (proj1 Sort_short_sorts)).
  - vm_compute. reflexivity.
  - vm_compute. reflexivity.
Defined.

(** ** Lookups in arbitrary structures *)

(** X16.  On any structure, also one decoded from bytes that [Write] never
    produced, [Get] has no error path, and an answer other than
    [MaxUint64] is the value stored beside the key in some slot. *)
Theorem Get_value_stored (c : CHD) (key : Z) :
  (forall e, Get c key <> Err e) /\
  (forall v, Get c key = Ok v -> v <> MaxUint64 ->
     exists ti, 0 <= ti < Len c /\
                chd_keys c !! Z.to_nat ti = Some key /\
                chd_values c !! Z.to_nat ti = Some v).
Proof.
  split.
  - intros e. unfold Get, index, umod.
    repeat match goal with
    | |- context [decide ?P] => destruct (decide P); cbn [bind]
    | |- context [?l !! ?i] => destruct (l !! i); cbn [bind]
    end; discriminate.
  - intros v H Hv.
    destruct (Get_found _ _ _ H Hv) as (_ & _ & _ & ti & _ & _ & _ & _ & _ & ? & ? & ?).
    exists ti. auto.
Qed.

(** X17.  [Get] does not panic on a structure that has a first hash function
    and a bucket map, whose bucket entries are of type [uint16], whose key
    and value arrays are equally long and, when they are empty, whose
    bucket entries all read as unassigned. *)
Theorem Get_total (c : CHD) (key : Z) :
  chd_r c <> [] -> chd_indices c <> [] ->
  Forall is_uint16 (chd_indices c) ->
  length (chd_values c) = length (chd_keys c) ->
  (chd_keys c = [] ->
   Forall (fun x => uint16 (len (chd_r c)) <= x) (chd_indices c)) ->
  exists v, Get c key = Ok v.
Proof.
  intros Hr Hi Hu16 Hlen Hempty. unfold Get.
  destruct (chd_r c) as [|r0 rs] eqn:Er; [contradiction|].
  rewrite (index_lookup_Z (r0 :: rs) 0 r0 ltac:(lia) eq_refl). cbn [bind].
  assert (Hli : 0 < len (chd_indices c)).
  { destruct (chd_indices c); [contradiction|]. unfold len. simpl. lia. }
  rewrite umod_nonzero by lia. cbn [bind].
  set (i := Z.lxor (hasher key) r0 mod len (chd_indices c)).
  assert (Hir : 0 <= i < len (chd_indices c)) by (apply Z.mod_pos_bound; lia).
  destruct (lookup_lt_is_Some_2 (chd_indices c) (Z.to_nat i)) as [ri Hri];
    [unfold len in Hir; lia|].
  rewrite (index_lookup_Z _ _ _ (proj1 Hir) Hri). cbn [bind].
  destruct (decide (uint16 (len (r0 :: rs)) <= ri)) as [|Hlt]; [eauto|].
  pose proof (Forall_lookup_1 _ _ _ _ Hu16 Hri) as Hri16.
  pose proof (uint16_le (len (r0 :: rs)) (len_nonneg _)) as Hle.
  destruct (lookup_lt_is_Some_2 (r0 :: rs) (Z.to_nat ri)) as [r Hrr];
    [unfold len, is_uint16 in *; lia|].
  rewrite (index_lookup_Z _ _ _ (proj1 Hri16) Hrr). cbn [bind].
  assert (Hlk : 0 < len (chd_keys c)).
  { destruct (chd_keys c) eqn:Ek; [|unfold len; simpl; lia].
    exfalso. apply Hlt.
    exact (Forall_lookup_1 _ _ _ _ (Hempty eq_refl) Hri). }
  rewrite umod_nonzero by lia. cbn [bind].
  set (ti := Z.lxor (Z.lxor (hasher key) r0) r mod len (chd_keys c)).
  assert (Htr : 0 <= ti < len (chd_keys c)) by (apply Z.mod_pos_bound; lia).
  destruct (lookup_lt_is_Some_2 (chd_keys c) (Z.to_nat ti)) as [k Hk];
    [unfold len in Htr; lia|].
  destruct (lookup_lt_is_Some_2 (chd_values c) (Z.to_nat ti)) as [v Hv];
    [unfold len in Htr; lia|].
  rewrite (index_lookup_Z _ _ _ (proj1 Htr) Hk). cbn [bind].
  destruct (decide (k <> key)); [eauto|].
  rewrite (index_lookup_Z _ _ _ (proj1 Htr) Hv). cbn [bind]. eauto.
Qed.

Lemma Get_total_witness : exists v, Get sample_chd 5 = Ok v.
Proof.
  apply (Get_total sample_chd 5); try discriminate; try reflexivity.
  unfold sample_chd, is_uint16. cbn [chd_indices].
  repeat constructor; try (vm_compute; congruence).
Defined.

(** ** The hash functions of a built structure *)

(** X18.  A built structure has its first hash function and at most one more
    per bucket, all of type [uint64], and bucket entries of type
    [uint16]; with fewer than 131070 pairs the hash functions can be
    indexed by a [uint16]. *)
Theorem Build_function_count (rand_source : Z -> nat -> Z)
    (sort_Sort : bucketVector -> bucketVector) (now : Z) (calls : list call)
    (c : CHD) :
  (forall b, sort_Sort b ≡ₚ b) ->
  Build rand_source sort_Sort now (run calls) = Ok (Some c, None) ->
  1 <= len (chd_r c) <= 1 + bucket_count (len (added calls)) /\
  chd_r c !! 0%nat
  = Some (uint64 (rand_source (default now (seeded_with calls)) O)) /\
  Forall is_uint64 (chd_r c) /\ Forall is_uint16 (chd_indices c) /\
  (len (added calls) < 131070 -> len (chd_r c) < 2 ^ 16).
Proof.
  intros Hperm H.
  destruct (Build_Inv _ _ _ _ _ Hperm H)
    as (r0 & placed & h & tb & HInv & _ & _ & Ec & Hl).
  pose proof H as Hb. apply Build_Ok_body in Hb as [Hb _].
  apply Build_body_idx in Hb as [Hr0 _]; [|exact Hperm|apply run_lengths].
  rewrite run_seed in Hr0.
  destruct HInv as ((_ & _ & _ & Hr0') & _ & _ & _ & _ & (Hu64 & Hu16 & _)).
  subst c. cbn [chd_of chd_r chd_indices] in *.
  split; [|split; [exact Hr0|split; [exact Hu64|split; [exact Hu16|]]]].
  - split; [|exact Hl]. apply lookup_lt_Some in Hr0'. unfold len. lia.
  - intros Hn. unfold bucket_count in Hl.
    destruct (decide (len (added calls) / 2 = 0)) as [E|E]; [lia|].
    assert (len (added calls) / 2 < 65535); [|lia].
    apply Z.div_lt_upper_bound; lia.
Qed.

Lemma Build_function_count_witness :
  1 <= len (chd_r sample_chd) <= 1 + bucket_count (len (added sample_calls)).
Proof.
  apply (Build_function_count example_source Sort_short 0 sample_calls sample_chd
           (proj1 Sort_short_sorts)).
  vm_compute. reflexivity.
Defined.

(** ** The lowest bit of the hash *)

Lemma lxor_parity (a b : Z) : Z.lxor a b mod 2 = (a + b) mod 2.
Proof.
  rewrite <- Z.bit0_mod, Z.lxor_spec.
  rewrite (Z.add_mod a b) by lia. rewrite <- !Z.bit0_mod.
  destruct (Z.testbit a 0), (Z.testbit b 0); reflexivity.
Qed.

Lemma fnv1a_parity (bytes : list Z) (h : Z) :
  fnv1a bytes h mod 2 = (h + fold_right Z.add 0 bytes) mod 2.
Proof.
  revert h. induction bytes as [|c bytes IH]; intros h; cbn [fnv1a fold_right].
  - rewrite Z.add_0_r. reflexivity.
  - rewrite IH. rewrite Z.add_mod by lia.
    rewrite (mod_pow2_le _ 1 64) by lia. change (2 ^ 1) with 2.
    rewrite Z.mul_mod by lia. change (1099511628211 mod 2) with 1.
    rewrite Z.mul_1_r, Z.mod_mod by lia. rewrite lxor_parity.
    rewrite <- Z.add_mod by lia. f_equal. lia.
Qed.

(** X19.  The lowest bit of [hasher] is linear in the key: it is the parity of
    one plus the sum of the eight bytes of the key.  For a key below 256
    the hash is odd exactly when the key is even. *)
Theorem hasher_parity (key : Z) :
  hasher key mod 2 = (1 + fold_right Z.add 0 (le_bytes8 key)) mod 2 /\
  (0 <= key < 256 -> hasher key mod 2 = (1 + key) mod 2).
Proof.
  assert (E : hasher key mod 2 = (1 + fold_right Z.add 0 (le_bytes8 key)) mod 2).
  { rewrite hasher_digest. unfold digest. rewrite fnv1a_parity.
    rewrite (Z.add_mod 14695981039346656037) by lia.
    rewrite (Z.add_mod 1 (fold_right Z.add 0 (le_bytes8 key))) by lia.
    reflexivity. }
  split; [exact E|].
  intros Hk. rewrite E. unfold le_bytes8. cbn [map fold_right].
  repeat match goal with
  | |- context [256 ^ ?i] =>
      let v := eval vm_compute in (256 ^ i) in change (256 ^ i) with v
  end.
  rewrite Z.div_1_r, (Z.mod_small key) by lia.
  rewrite !(Z.div_small key) by lia. change (0 mod 256) with 0.
  f_equal. lia.
Qed.

(** ** [Read] *)

(** X21.  An empty stream is not rejected: when the slice that [ioutil.ReadAll]
    returns is empty but has spare capacity that starts with twelve zero
    bytes, [Mmap] reads the three counts from that capacity and [Read]
    returns, without an error, a structure with no hash function, on
    which [Get] panics for every key. *)
Theorem Read_empty_stream {R} `{Reader R} (r : R) (spare : list byte) :
  ReadAll r = ([], replicate 12 x00 ++ spare, None) ->
  Read r = Ok (Some {| chd_r := []; chd_indices := [];
                       chd_keys := []; chd_values := [] |}, None) /\
  forall key, Get {| chd_r := []; chd_indices := [];
                     chd_keys := []; chd_values := [] |} key = Panic.
Proof.
  intros Hr. split; [|reflexivity].
  unfold Read. rewrite Hr. rewrite app_nil_l.
  apply (Mmap_layout {| chd_r := []; chd_indices := [];
                        chd_keys := []; chd_values := [] |} spare).
  unfold wf_chd. cbn [chd_r chd_indices chd_keys chd_values].
  repeat split; try constructor; reflexivity.
Qed.

Lemma Read_empty_stream_witness :
  @Read unit (fun _ => ([], replicate 12 x00 ++ [x01], None)) tt
  = Ok (Some {| chd_r := []; chd_indices := [];
                chd_keys := []; chd_values := [] |}, None).
Proof.
  apply (@Read_empty_stream unit (fun _ => ([], replicate 12 x00 ++ [x01], None))
           tt [x01] eq_refl).
Defined.

(** ** The size of a serialized structure *)

(** X22.  [Write] of a built structure with [n] pairs and [f] hash functions
    sends [12 + 8 f + 2 max (n / 2) 1 + 16 n] bytes, which is at most
    [20 + 10 max (n / 2) 1 + 16 n]. *)
Theorem Build_Write_size (rand_source : Z -> nat -> Z)
    (sort_Sort : bucketVector -> bucketVector) (now : Z) (calls : list call)
    (c : CHD) :
  (forall b, sort_Sort b ≡ₚ b) ->
  Build rand_source sort_Sort now (run calls) = Ok (Some c, None) ->
  let n := len (added calls) in
  exists bytes,
    Write c [] = (bytes, None) /\
    len bytes = 12 + 8 * len (chd_r c) + 2 * bucket_count n + 16 * n /\
    len bytes <= 20 + 10 * bucket_count n + 16 * n.
Proof.
  intros Hperm H n.
  destruct (Build_table _ _ _ _ _ Hperm H) as (_ & HL & HLv & HLi & _).
  destruct (Build_Inv _ _ _ _ _ Hperm H) as (_ & _ & _ & _ & _ & _ & _ & _ & Hl).
  unfold Len in HL. exists (layout c). split; [apply (Write_Buffer c [])|].
  rewrite len_layout, HL, HLv, HLi. fold n in Hl |- *. lia.
Qed.

Lemma Build_Write_size_witness :
  exists bytes, Write sample_chd [] = (bytes, None) /\ len bytes = 146.
Proof.
  destruct (Build_Write_size example_source Sort_short 0 sample_calls sample_chd
              (proj1 Sort_short_sorts)) as (bytes & HW & HL & _).
  - vm_compute. reflexivity.
  - exists bytes. split; [exact HW|]. rewrite HL. vm_compute. reflexivity.
Defined.

(** ** When the first hash function fits *)

Lemma table_hash_first (r0 n k : Z) : table_hash r0 n r0 k = hasher k mod n.
Proof. unfold table_hash. rewrite lxor_cancel. reflexivity. Qed.

Lemma NoDup_fmap_inj {A B} (f : A -> B) (l : list A) (x y : A) :
  NoDup (f <$> l) -> x ∈ l -> y ∈ l -> f x = f y -> x = y.
Proof.
  intros HN Hx Hy Hf.
  apply list_elem_of_lookup in Hx as [i Hi]. apply list_elem_of_lookup in Hy as [j Hj].
  assert (i = j).
  { apply (proj1 (NoDup_alt _) HN i j (f x)); rewrite list_lookup_fmap.
    - rewrite Hi. reflexivity.
    - rewrite Hj, Hf. reflexivity. }
  subst j. congruence.
Qed.

Lemma place_bucket_first (rand_source : Z -> nat -> Z) (r0 n m : Z)
    (ks : list Z) (placed : list (Z * Z)) (h : chdHasher) (tb : table)
    (bk : bucket) (nb i : Z) :
  Inv r0 n m placed h tb -> first_ok r0 n placed h tb ->
  bucket_ok r0 m ks bk ->
  (forall kv, kv ∈ placed -> kv.1 ∈ ks /\ kv.1 ∉ bucket_keys bk) ->
  NoDup (bucket_keys bk) ->
  NoDup ((fun k => hasher k mod n) <$> ks) ->
  (ks <> [] -> 0 < n) ->
  exists tb',
    place_bucket rand_source nb i (h, tb) bk = Ok (h, tb') /\
    first_ok r0 n (placed ++ bucket_pairs bk) h tb'.
Proof.
  intros ((Hsz & Hbk & Hm & Hr0) & (Lk & Lv & Li) & _) [Hr Hseen] [Hlen Hbok]
         Hfresh HNk HNh Hn'.
  unfold place_bucket.
  destruct (decide (len (bucket_keys bk) = 0)) as [Hz|Hnz].
  - exists tb. split; [reflexivity|].
    assert (E : bucket_keys bk = []).
    { destruct (bucket_keys bk); [reflexivity|]. unfold len in Hz. simpl in Hz. lia. }
    unfold bucket_pairs. rewrite E. simpl. rewrite app_nil_r. split; assumption.
  - assert (Hne : bucket_keys bk <> []).
    { intros E. rewrite E in Hnz. apply Hnz. reflexivity. }
    specialize (Hbok Hne).
    assert (Hin : forall k, k ∈ bucket_keys bk -> k ∈ ks)
      by (intros k Hk; apply Hbok; exact Hk).
    assert (Hn : 0 < n).
    { apply Hn'. destruct (bucket_keys bk) as [|k ks'] eqn:E; [contradiction|].
      intros E'. specialize (Hin k ltac:(left)). rewrite E' in Hin. inversion Hin. }
    assert (Hidx : 0 <= bucket_index bk < len (t_indices tb)).
    { destruct (bucket_keys bk) as [|k ks'] eqn:E; [contradiction|].
      destruct (Hbok k) as [[_ <-] _]; [left|].
      rewrite Li. apply outer_hash_range. exact Hm. }
    assert (Eslots : table_hash r0 (h_size h) r0 <$> bucket_keys bk
                     = (fun k => hasher k mod n) <$> bucket_keys bk).
    { apply list_fmap_ext. intros j k _. rewrite Hsz. apply table_hash_first. }
    destruct (tryHash_fits h r0 tb bk (uint16 (Z.of_nat 0)) r0) as [tb' E];
      try (rewrite ?Hsz; auto; lia).
    + rewrite Eslots. apply NoDup_fmap_2_strong; [|exact HNk].
      intros x y Hx Hy Hf.
      apply (NoDup_fmap_inj (fun k => hasher k mod n) ks x y HNh); auto.
    + rewrite Eslots. apply Forall_fmap, Forall_forall. intros k Hk. simpl.
      destruct (map_get (t_seen tb) (hasher k mod n)) eqn:Es; [|reflexivity].
      exfalso. destruct (Hseen _ Es) as (kv & Hkv & Heq).
      destruct (Hfresh _ Hkv) as [Hkvks Hkvno].
      assert (k = kv.1)
        by (apply (NoDup_fmap_inj (fun k => hasher k mod n) ks k kv.1 HNh); auto).
      subst k. contradiction.
    + exists tb'. rewrite Hr. cbn [try_existing]. rewrite E. cbn [bind].
      split; [reflexivity|]. split; [exact Hr|].
      apply tryHash_Some in E as (hashes & HT & _ & _ & Eseen & _).
      apply (Table_hashes _ r0) in HT; [|exact Hr0]. rewrite Eslots in HT.
      intros s Hs. rewrite Eseen in Hs. apply mark_seen_spec in Hs as [Hs|Hs].
      * rewrite HT in Hs. apply list_elem_of_fmap in Hs as (k & -> & Hk).
        apply list_elem_of_lookup in Hk as [j Hj].
        destruct (lookup_lt_is_Some_2 (bucket_values bk) j) as [v Hv].
        { apply lookup_lt_Some in Hj. lia. }
        exists (k, v). split; [|reflexivity].
        apply elem_of_app. right. apply list_elem_of_lookup. exists j.
        unfold bucket_pairs. rewrite lookup_zip_with, Hj, Hv. reflexivity.
      * destruct (Hseen _ Hs) as (kv & Hkv & Heq).
        exists kv. split; [apply elem_of_app; auto|exact Heq].
Qed.

Lemma place_buckets_first (rand_source : Z -> nat -> Z) (r0 n m : Z)
    (ks : list Z) (nb : Z) (L : bucketVector) :
  NoDup ((fun k => hasher k mod n) <$> ks) ->
  (ks <> [] -> 0 < n) ->
  forall (i : Z) (placed : list (Z * Z)) (h : chdHasher) (tb : table),
  Inv r0 n m placed h tb -> first_ok r0 n placed h tb ->
  Forall (bucket_ok r0 m ks) L ->
  Forall (fun k => k ∈ ks) placed.*1 ->
  NoDup (placed.*1 ++ (L ≫= bucket_keys)) ->
  exists tb', place_buckets rand_source nb i (h, tb) L = Ok (h, tb').
Proof.
  intros HNh Hn. induction L as [|bk L IH];
    intros i placed h tb HInv Hfirst HL Hks HN; cbn [place_buckets]; [eauto|].
  apply Forall_cons in HL as [Hbk HL]. rewrite bind_cons in HN.
  assert (Hfresh : forall kv, kv ∈ placed -> kv.1 ∈ ks /\ kv.1 ∉ bucket_keys bk).
  { intros kv Hkv. rewrite Forall_forall in Hks.
    assert (Hin : kv.1 ∈ placed.*1) by (apply list_elem_of_fmap_2; exact Hkv).
    split; [auto|]. apply NoDup_app in HN as (_ & HN & _).
    intros Hk. apply (HN _ Hin). apply elem_of_app. auto. }
  assert (HNk : NoDup (bucket_keys bk)).
  { apply NoDup_app in HN as (_ & _ & HN). apply NoDup_app in HN as (HN & _). exact HN. }
  destruct (place_bucket_first rand_source r0 n m ks placed h tb bk nb i
              HInv Hfirst Hbk Hfresh HNk HNh Hn) as (tb1 & Hst & Hfirst1).
  rewrite Hst. cbn [bind].
  destruct (place_bucket_Inv _ _ _ _ _ _ _ _ _ _ _ _ _ HInv Hbk Hfresh Hst)
    as [HInv1 _].
  assert (Efst : (placed ++ bucket_pairs bk).*1 = placed.*1 ++ bucket_keys bk).
  { rewrite fmap_app. f_equal. unfold bucket_pairs. apply fst_zip.
    destruct Hbk as [-> _]. lia. }
  apply (IH (i + 1) (placed ++ bucket_pairs bk) h tb1); try assumption.
  - rewrite Efst. apply Forall_app. split; [exact Hks|].
    apply Forall_forall. intros k Hk. destruct Hbk as [_ Hbk].
    apply Hbk; [|exact Hk]. intros E. rewrite E in Hk. inversion Hk.
  - rewrite Efst, <- app_assoc. exact HN.
Qed.

Lemma Build_buckets_NoDup (h : chdHasher) (r0 m : Z) (ks vs : list Z) :
  h_r h !! 0%nat = Some r0 -> h_buckets h = m -> 0 < m ->
  length ks = length vs -> NoDup ks ->
  exists bs,
    Build_buckets h ks vs ∅
      (replicate (Z.to_nat m)
         {| bucket_index := 0; bucket_keys := []; bucket_values := [] |})
    = Ok bs.
Proof.
  intros Hr0 Hb Hm Hlen HN.
  destruct (Build_buckets_outcome h r0 m ks vs ∅
              (replicate (Z.to_nat m)
                 {| bucket_index := 0; bucket_keys := []; bucket_values := [] |})
              []) as [Hok|(k & _ & Hnd)];
    [exact Hr0 | exact Hb | exact Hm | apply length_replicate | exact Hlen
    | intros x; rewrite map_get_empty, elem_of_nil; split; [discriminate|tauto]
    | exact Hok | contradiction ].
Qed.

Lemma Build_body_first (rand_source : Z -> nat -> Z)
    (sort_Sort : bucketVector -> bucketVector) (now : Z) (b : CHDBuilder) :
  (forall b, sort_Sort b ≡ₚ b) ->
  length (b_keys b) = length (b_values b) ->
  NoDup ((fun k => hasher k mod len (b_keys b)) <$> b_keys b) ->
  exists c,
    Build_body rand_source sort_Sort now b = Ok c /\
    chd_r c = [uint64 (rand_source (if b_seeded b then b_seed b else now) O)].
Proof.
  intros Hperm Hlen HNh.
  assert (HN : NoDup (b_keys b)) by (eapply NoDup_fmap_1; exact HNh).
  set (n := len (b_keys b)) in *. set (m := bucket_count n).
  assert (Hn : 0 <= n) by (unfold n, len; lia).
  assert (Hm : 0 < m) by (apply bucket_count_pos; exact Hn).
  destruct (newCHDHasher_fields rand_source n m (b_seed b) (b_seeded b) now)
    as (Hr & Hs & Hb).
  set (r0 := uint64 (rand_source (if b_seeded b then b_seed b else now) O)) in *.
  destruct (Build_buckets_NoDup
              (newCHDHasher rand_source n m (b_seed b) (b_seeded b) now)
              r0 m (b_keys b) (b_values b)) as [bs Hbs];
    [rewrite Hr; reflexivity | exact Hb | exact Hm | exact Hlen | exact HN |].
  assert (Hpart : partition rand_source now b = Ok bs) by exact Hbs.
  unfold Build_body. fold n m. rewrite Hpart. cbn [bind].
  apply partition_spec in Hbs as (_ & Hbl & Hpok & Hpp); [|exact Hlen].
  fold n m r0 in Hbl, Hpok.
  assert (Hlens : Forall (fun bk => length (bucket_keys bk) = length (bucket_values bk))
                         (sort_Sort bs)).
  { apply Forall_forall. intros bk Hbk. rewrite Hperm in Hbk.
    apply list_elem_of_lookup in Hbk as [p Hp]. apply (Hpok _ _ Hp). }
  destruct (place_buckets_first rand_source r0 n m (b_keys b)
              (len (sort_Sort bs)) (sort_Sort bs) HNh) with
    (i := 0) (placed := @nil (Z * Z))
    (h := newCHDHasher rand_source n m (b_seed b) (b_seeded b) now)
    (tb := {| t_seen := ∅; t_keys := replicate (Z.to_nat n) 0;
              t_values := replicate (Z.to_nat n) 0;
              t_indices := replicate (Z.to_nat m) unassigned |})
    as [tb' Hst].
  - intros Hks. unfold n, len. destruct (b_keys b); [contradiction|]. simpl. lia.
  - apply Inv_init; assumption.
  - split; [exact Hr|]. intros s Hs'. cbn [t_seen] in Hs'.
    rewrite map_get_empty in Hs'. discriminate.
  - apply Forall_forall. intros bk Hbk. rewrite Hperm in Hbk.
    apply list_elem_of_lookup in Hbk as [p Hp].
    destruct (Hpok _ _ Hp) as (Hl & Hidx & Hkeys).
    split; [exact Hl|]. intros Hne k. rewrite Hkeys, (Hidx Hne). tauto.
  - constructor.
  - simpl. rewrite <- bind_bucket_keys by exact Hlens.
    rewrite Hperm, Hpp, fst_zip by lia. exact HN.
  - rewrite Hst. cbn [bind]. eexists. split; [reflexivity|]. exact Hr.
Qed.

(** X23.  When the hashes of the added keys are pairwise distinct modulo the
    number of pairs, [Build] succeeds whatever the random source draws
    after the first value: the first hash function, tried first for every
    bucket, cancels itself out and sends every key to the slot
    [hasher(k) mod n].  The structure has that one hash function and holds
    every pair in the slot of its key.  A single pair always builds. *)
Theorem Build_first_function (rand_source : Z -> nat -> Z)
    (sort_Sort : bucketVector -> bucketVector) (now : Z) (calls : list call) :
  (forall b, sort_Sort b ≡ₚ b) ->
  let n := len (added calls) in
  NoDup ((fun k => hasher k mod n) <$> (added calls).*1) ->
  exists c,
    Build rand_source sort_Sort now (run calls) = Ok (Some c, None) /\
    chd_r c = [uint64 (rand_source (default now (seeded_with calls)) O)] /\
    forall k v, (k, v) ∈ added calls ->
      chd_keys c !! Z.to_nat (hasher k mod n) = Some k /\
      chd_values c !! Z.to_nat (hasher k mod n) = Some v.
Proof.
  intros Hperm n HNh.
  destruct (Build_body_first rand_source sort_Sort now (run calls) Hperm
              (run_lengths calls)) as (c & Hc & Hr).
  { rewrite run_keys. unfold len. rewrite length_fmap. exact HNh. }
  rewrite run_seed in Hr.
  assert (HB : Build rand_source sort_Sort now (run calls) = Ok (Some c, None))
    by (unfold Build; rewrite Hc; reflexivity).
  exists c. split; [exact HB|]. split; [exact Hr|].
  intros k v Hkv.
  destruct (Build_Inv _ _ _ _ _ Hperm HB)
    as (r0 & placed & h & tb & HInv & Hp & _ & -> & _).
  destruct HInv as ((_ & _ & _ & Hr0) & _ & Hplaced & _).
  rewrite Forall_forall in Hplaced. rewrite <- Hp in Hkv.
  destruct (Hplaced _ Hkv) as (ri & r & _ & Hri & Hk & Hv & _).
  cbn [chd_of chd_r chd_keys chd_values fst snd] in *.
  rewrite Hr in Hr0, Hri. injection Hr0 as <-.
  destruct ri as [|ri]; [|rewrite lookup_cons, lookup_nil in Hri; discriminate].
  injection Hri as <-. rewrite table_hash_first in Hk, Hv. fold n in Hk, Hv. auto.
Qed.

Lemma Build_first_function_witness :
  exists c,
    Build example_source Sort_short 0 (run [CallAdd 13 37]) = Ok (Some c, None) /\
    chd_r c = [uint64 (example_source 0 O)].
Proof.
  destruct (Build_first_function example_source Sort_short 0 [CallAdd 13 37]
              (proj1 Sort_short_sorts)) as (c & Hc & Hr & _).
  - cbn [added fmap list_fmap fst]. apply NoDup_singleton.
  - exists c. split; [exact Hc|exact Hr].
Defined.

(** ** Two keys *)

(** X24.  With exactly two pairs the table has two slots and one bucket, and a
    hash function can only flip both slots at once: [Build] succeeds
    exactly when the hashes of the two keys differ in their lowest bit,
    whatever the seed and the random source. *)
Theorem Build_two_keys (rand_source : Z -> nat -> Z)
    (sort_Sort : bucketVector -> bucketVector) (now : Z) (calls : list call)
    (k1 v1 k2 v2 : Z) :
  (forall b, sort_Sort b ≡ₚ b) ->
  added calls = [(k1, v1); (k2, v2)] ->
  (exists c, Build rand_source sort_Sort now (run calls) = Ok (Some c, None)) <->
  hasher k1 mod 2 <> hasher k2 mod 2.
Proof.
  intros Hperm Ha. split.
  - intros [c Hc] Heq.
    destruct (Build_Inv _ _ _ _ _ Hperm Hc) as (_ & _ & _ & _ & _ & _ & HN & _).
    assert (k1 = k2).
    { apply (Build_pow2_injective _ _ _ _ _ 1 k1 k2 Hperm Hc);
        rewrite ?Ha; try reflexivity; try lia.
      - cbn. left.
      - cbn. right. left.
      - exact Heq. }
    subst k2. rewrite Ha in HN. cbn in HN.
    apply NoDup_cons in HN as [HN _]. apply HN. left.
  - intros Hpar.
    destruct (Build_body_first rand_source sort_Sort now (run calls) Hperm
                (run_lengths calls)) as (c & Hc & _).
    + rewrite run_keys, Ha. cbn [fmap list_fmap fst]. change (len [k1; k2]) with 2.
      apply NoDup_cons. split; [|apply NoDup_singleton].
      intros Hin. apply list_elem_of_singleton in Hin. contradiction.
    + exists c. unfold Build. rewrite Hc. reflexivity.
Qed.

Lemma Build_two_keys_witness :
  (exists c, Build example_source Sort_short 0 (run [CallAdd 2 10; CallAdd 3 20])
             = Ok (Some c, None)) /\
  ~ (exists c, Build example_source Sort_short 0 (run [CallAdd 2 10; CallAdd 4 20])
               = Ok (Some c, None)).
Proof.
  split.
  - apply (Build_two_keys example_source Sort_short 0
             [CallAdd 2 10; CallAdd 3 20] 2 10 3 20 (proj1 Sort_short_sorts) eq_refl).
    vm_compute. discriminate.
  - intros H.
    apply (Build_two_keys example_source Sort_short 0
             [CallAdd 2 10; CallAdd 4 20] 2 10 4 20 (proj1 Sort_short_sorts) eq_refl)
      in H.
    apply H. vm_compute. reflexivity.
Defined.
